(** * Trick-taker server: the game session engine

    A shallow embedding of [src/types/index.ts], [src/game-logic/utils.ts],
    [src/game-logic/rules.ts] and of the engine functions of [src/index.ts]
    (state redaction, autoplay, play handling), with the properties of the
    engine stated and proved over it.

    Conventions of the embedding.
    - TypeScript string-literal unions are inductive types; interfaces are
      records; [T | null] and [T | undefined] are [option T].
    - JavaScript numbers hold integers wherever the engine uses them; they
      are [Z], and an addition that can grow without bound is the addition
      of IEEE 754 doubles ([numAdd]), exact up to 2^53 and rounded beyond.
    - Arrays are lists; [a[i]] is stdpp's lookup [a !! i] ([None] is
      [undefined]); an in-place update of an element is [alter] or insert.
    - A function that can throw a [TypeError] returns [option]; [None] is
      the throw.
    - [Math.random] is a stream of draws handed to the function. *)

From Stdlib Require Import ZArith List Bool Permutation Sorted Lia.
From stdpp Require Import base option list strings.

Open Scope string_scope.
Open Scope list_scope.
Open Scope Z_scope.

(** ** Numbers

    A JavaScript [number] is an IEEE 754 double.  Every integer up to 2^53
    in absolute value is a double; beyond, a double is a 53-bit integer
    times a power of two.  [roundToDouble x] is the double nearest to the
    integer [x], ties going to the even significand: with [2^e] the unit in
    the last place at the size of [x], the quotient by [2^e] is kept,
    rounded up or down by the remainder.  (The overflow to [Infinity], at
    2^1024, is left out: no sum of a double and 1 reaches it.) *)
Definition roundToDouble (x : Z) : Z :=
  let m := Z.abs x in
  if m <? 2 ^ 53 then x
  else
    let e := Z.log2 m - 52 in
    let q := m / 2 ^ e in
    let r := m mod 2 ^ e in
    let half := 2 ^ (e - 1) in
    let q' :=
      if r <? half then q
      else if half <? r then q + 1
      else if Z.even q then q else q + 1 in
    Z.sgn x * (q' * 2 ^ e).

(** [a + b] on numbers that hold integers. *)
Definition numAdd (a b : Z) : Z := roundToDouble (a + b).

(** ** Types ([src/types/index.ts]) *)

Inductive Suit := hearts | diamonds | clubs | spades.

Inductive Rank := R2 | R3 | R4 | R5 | R6 | R7 | R8 | R9 | R10 | RJ | RQ | RK | RA.

Record Card := mkCard { suit : Suit; rank : Rank }.

Inductive Presence := online | offline.

(** [interface User]; [isHost?: boolean] is an optional field. *)
Record User := mkUser {
  u_id : string;
  u_socketId : string;
  u_name : string;
  u_isHost : option bool;
  u_status : Presence
}.

(** [interface Player extends User]. *)
Record Player := mkPlayer {
  p_id : string;
  p_socketId : string;
  p_name : string;
  p_isHost : option bool;
  p_status : Presence;
  hand : list Card;
  tricksWon : Z;
  agoraUid : Z
}.

Record TrickCard := mkTrickCard { playerId : string; card : Card }.

Inductive GameStatus := waiting | playing | finished.

(** [maxPlayers: 2 | 3 | 4]. *)
Inductive MaxPlayers := MP2 | MP3 | MP4.

Record GameState := mkGameState {
  g_id : string;
  players : list Player;
  deck : list Card;
  currentTrick : list TrickCard;
  leadSuit : option Suit;
  currentPlayerId : string;
  turnOrder : list string;
  round : Z;
  trickNumber : Z;
  g_status : GameStatus;
  hostId : string;
  maxPlayers : MaxPlayers
}.

#[export] Instance Suit_eq_dec : EqDecision Suit.
Proof. solve_decision. Defined.
#[export] Instance Rank_eq_dec : EqDecision Rank.
Proof. solve_decision. Defined.
#[export] Instance Card_eq_dec : EqDecision Card.
Proof. solve_decision. Defined.
#[export] Instance GameStatus_eq_dec : EqDecision GameStatus.
Proof. solve_decision. Defined.

(** [a.suit === b.suit], [a.rank === b.rank]: strict equality of the
    literal strings. *)
Definition suit_eqb (a b : Suit) : bool := bool_decide (a = b).
Definition rank_eqb (a b : Rank) : bool := bool_decide (a = b).

(** The comparison [c.suit === card.suit && c.rank === card.rank] that the
    code writes out wherever it looks a card up. *)
Definition sameCard (c d : Card) : bool :=
  suit_eqb (suit c) (suit d) && rank_eqb (rank c) (rank d).

(** The string a suit is at run time. *)
Definition suitName (s : Suit) : string :=
  match s with
  | hearts => "hearts" | diamonds => "diamonds"
  | clubs => "clubs" | spades => "spades"
  end.

(** ** Utilities ([src/game-logic/utils.ts]) *)

Definition allSuits : list Suit := [hearts; diamonds; clubs; spades].
Definition allRanks : list Rank :=
  [R2; R3; R4; R5; R6; R7; R8; R9; R10; RJ; RQ; RK; RA].

Definition getCardValue (c : Card) : Z :=
  match rank c with
  | R2 => 2 | R3 => 3 | R4 => 4 | R5 => 5 | R6 => 6 | R7 => 7 | R8 => 8
  | R9 => 9 | R10 => 10 | RJ => 11 | RQ => 12 | RK => 13 | RA => 14
  end.

(** *** The random source

    [Math.random()] is modelled by a stream of draws: the [k]-th call
    returns draw [rnd k].  [Math.floor(Math.random() * bound)] is an integer
    of [0 .. bound-1], and every such integer is possible: the draw reduced
    modulo [bound]. *)
Definition RandomSource := nat -> nat.

Definition randomIndex (draw bound : nat) : nat := (draw mod bound)%nat.

(** [[deck[i], deck[j]] = [deck[j], deck[i]]]: both reads happen first, then
    [deck[i]] and [deck[j]] are written.  The loop only calls it with
    [j <= i < deck.length]; out of that range the model leaves the deck as
    it is (JavaScript would store [undefined] and grow the array). *)
Definition swap (l : list Card) (i j : nat) : list Card :=
  match l !! i, l !! j with
  | Some x, Some y => <[j:=x]> (<[i:=y]> l)
  | _, _ => l
  end.

(** The body of [for (let i = deck.length - 1; i > 0; i--)], with [k] the
    number of draws already consumed. *)
Fixpoint shuffleLoop (rnd : RandomSource) (k i : nat) (l : list Card) : list Card :=
  match i with
  | O => l
  | S i' =>
      let j := randomIndex (rnd k) (i + 1)%nat in
      shuffleLoop rnd (S k) i' (swap l i j)
  end.

Definition shuffleDeck (rnd : RandomSource) (l : list Card) : list Card :=
  shuffleLoop rnd 0 (length l - 1)%nat l.

(** *** Sorting

    [Array.prototype.sort(cmp)] is stable, and for a comparator that is a
    consistent ordering its result is fixed by that: elements in the order
    of [cmp], equal ones in their original order.  Insertion from the right
    computes it: [x] goes before the first [y] with [cmp x y <= 0]. *)
Section Sort.
Context {A : Type} (cmp : A -> A -> Z).

Fixpoint insertBy (x : A) (l : list A) : list A :=
  match l with
  | [] => [x]
  | y :: l' => if cmp x y <=? 0 then x :: y :: l' else y :: insertBy x l'
  end.

Fixpoint sortBy (l : list A) : list A :=
  match l with
  | [] => []
  | x :: l' => insertBy x (sortBy l')
  end.

(** The order the comparator stands for: [a] may come before [b]. *)
Definition before (a b : A) : Prop := cmp a b <= 0.

End Sort.

(** [sortCards]: [[...cards].sort((a, b) => getCardValue(a) - getCardValue(b))]. *)
Definition sortCards (cards : list Card) : list Card :=
  sortBy (fun a b => getCardValue a - getCardValue b) cards.

(** [groupHandBySuit]: a [Map] whose keys are inserted in the order of
    [allSuits], which is the order [forEach] visits them in; an association
    list in that order. *)
Definition groupHandBySuit (h : list Card) : list (Suit * list Card) :=
  map (fun s => (s, List.filter (fun c => suit_eqb (suit c) s) h)) allSuits.

(** ** Rules ([src/game-logic/rules.ts]) *)

(** The deck [createDeck] builds before it shuffles: suits outermost. *)
Definition orderedDeck : list Card :=
  flat_map (fun s => map (fun r => mkCard s r) allRanks) allSuits.

Definition createDeck (rnd : RandomSource) : list Card :=
  shuffleDeck rnd orderedDeck.

(** [allSuits.indexOf(s)]. *)
Definition suitIndex (s : Suit) : Z :=
  match s with hearts => 0 | diamonds => 1 | clubs => 2 | spades => 3 end.

(** The comparator [dealCards] sorts a hand with. *)
Definition handOrder (a b : Card) : Z :=
  let suitOrder := suitIndex (suit a) - suitIndex (suit b) in
  if negb (suitOrder =? 0) then suitOrder
  else getCardValue b - getCardValue a.

(** [for (let i = 0; i < bound; i++) hands[i % numPlayers].push(deck[i])].
    [deck[i]] is in range for every [i] the loop reaches. *)
Definition dealLoop (deck : list Card) (numPlayers bound : nat)
    (hands : list (list Card)) : list (list Card) :=
  fold_left
    (fun hands i =>
       match deck !! i with
       | Some c => alter (fun h => h ++ [c]) (i mod numPlayers)%nat hands
       | None => hands
       end)
    (seq 0 bound) hands.

(** [dealCards].  With [numPlayers = 0] JavaScript computes the bound
    [Infinity * 0 = NaN] and the loop does not run; [Nat.div] by [0] is [0],
    which gives the same. *)
Definition dealCards (deck : list Card) (numPlayers : nat) : list (list Card) :=
  let hands := replicate numPlayers [] in
  let cardsPerPlayer := (length deck / numPlayers)%nat in
  let hands := dealLoop deck numPlayers (cardsPerPlayer * numPlayers)%nat hands in
  map (sortBy handOrder) hands.

(** Truthiness of the optional boolean [isHost]. *)
Definition truthy (o : option bool) : bool :=
  match o with Some true => true | _ => false end.

Definition twoOfClubs : Card := mkCard clubs R2.

Definition holdsTwoOfClubs (p : Player) : bool :=
  existsb (fun c => suit_eqb (suit c) clubs && rank_eqb (rank c) R2) (hand p).

(** [while (turnOrder[0] !== startingPlayerId) turnOrder.push(turnOrder.shift()!)].
    One unit of fuel per test of the loop condition; [None] when the fuel
    runs out.  On an empty array the JavaScript loop never ends. *)
Fixpoint rotateTo (fuel : nat) (start : string) (order : list string)
    : option (list string) :=
  match fuel with
  | O => None
  | S fuel' =>
      match order with
      | [] => None
      | x :: rest =>
          if String.eqb x start then Some order
          else rotateTo fuel' start (rest ++ [x])
      end
  end.

(** [playerList.map((p, index) => ({ ...p, hand: hands[index], tricksWon: 0,
    agoraUid: 1000 + index }))].  [hands[index]] is in range when [hands]
    was dealt to [playerList.length] players.  An array index is below 2^32,
    so the sum [1000 + index] is exact. *)
Definition seatPlayers (hands : list (list Card)) (playerList : list User)
    : list Player :=
  imap (fun index p =>
          mkPlayer (u_id p) (u_socketId p) (u_name p) (u_isHost p) (u_status p)
                   (default [] (hands !! index)) 0 (1000 + Z.of_nat index))
       playerList.

(** [players.find(p => p.isHost)?.id || players[0].id]: the empty string is
    falsy, so a host whose id is empty gives way to the first player;
    [players[0].id] throws on an empty list. *)
Definition hostOrFirstPlayer (players : list Player) : option string :=
  match find (fun p => truthy (p_isHost p)) players with
  | Some h =>
      if String.eqb (p_id h) "" then p_id <$> players !! 0%nat
      else Some (p_id h)
  | None => p_id <$> players !! 0%nat
  end.

(** [playerList.find(p => p.isHost)?.id || playerList[0].id]. *)
Definition hostOrFirstUser (playerList : list User) : option string :=
  match find (fun p => truthy (u_isHost p)) playerList with
  | Some h =>
      if String.eqb (u_id h) "" then u_id <$> playerList !! 0%nat
      else Some (u_id h)
  | None => u_id <$> playerList !! 0%nat
  end.

(** The starting player: the fallback first, then the loop that looks for
    the holder of the two of clubs and stops at the first one. *)
Definition startingPlayer (players : list Player) : option string :=
  match hostOrFirstPlayer players with
  | None => None
  | Some fallbackId =>
      Some match find holdsTwoOfClubs players with
           | Some p => p_id p
           | None => fallbackId
           end
  end.

(** [setupNewGame].  [fuel] bounds the rotation loop; [None] is a thrown
    [TypeError] ([players[0].id] on an empty list) or exhausted fuel. *)
Definition setupNewGame (fuel : nat) (rnd : RandomSource)
    (playerList : list User) (gameId : string) (maxPlayers : MaxPlayers)
    : option GameState :=
  let deck := createDeck rnd in
  let hands := dealCards deck (length playerList) in
  let players := seatPlayers hands playerList in
  match startingPlayer players with
  | None => None
  | Some startingPlayerId =>
      match rotateTo fuel startingPlayerId (map p_id players) with
      | None => None
      | Some turnOrder =>
          match hostOrFirstUser playerList with
          | None => None
          | Some hostId =>
              Some (mkGameState gameId players [] [] None startingPlayerId
                      turnOrder 1 1 playing hostId maxPlayers)
          end
      end
  end.

(** The result of [isMoveValid]. *)
Record MoveResult := mkMoveResult { valid : bool; message : string }.

Definition findPlayer (playerId : string) (ps : list Player) : option Player :=
  find (fun p => String.eqb (p_id p) playerId) ps.

Definition isMoveValid (gameState : GameState) (playerId : string) (card : Card)
    : MoveResult :=
  match findPlayer playerId (players gameState) with
  | None => mkMoveResult false "Player not found."
  | Some player =>
      if negb (String.eqb (currentPlayerId gameState) playerId) then
        mkMoveResult false "It's not your turn."
      else
        let hasCard := existsb (fun c => sameCard c card) (hand player) in
        if negb hasCard then
          mkMoveResult false "You don't have that card in your hand."
        else
          match leadSuit gameState with
          | Some lead =>
              let hasLeadSuit :=
                existsb (fun c => suit_eqb (suit c) lead) (hand player) in
              if hasLeadSuit && negb (suit_eqb (suit card) lead) then
                mkMoveResult false
                  ("You must follow suit by playing a " ++ suitName lead ++ ".")
              else mkMoveResult true ""
          | None => mkMoveResult true ""
          end
  end.

(** The loop of [determineTrickWinner] over the pair
    [(winningCard, highestValue)]. *)
Definition trickStep (leadSuit : Suit) (acc : option TrickCard * Z)
    (trickCard : TrickCard) : option TrickCard * Z :=
  if suit_eqb (suit (card trickCard)) leadSuit then
    let cardValue := getCardValue (card trickCard) in
    if snd acc <? cardValue then (Some trickCard, cardValue) else acc
  else acc.

(** [determineTrickWinner]; [winningCard!.playerId] throws when no card of
    the lead suit was seen. *)
Definition determineTrickWinner (trick : list TrickCard) (leadSuit : Suit)
    : option string :=
  playerId <$> fst (fold_left (trickStep leadSuit) trick (None, -1)).

(** [winner.tricksWon += 1] on the element [find] returns: the first player
    with that id, updated in place in the array the result shares. *)
Fixpoint creditWinner (winningPlayerId : string) (ps : list Player) : list Player :=
  match ps with
  | [] => []
  | p :: rest =>
      if String.eqb (p_id p) winningPlayerId then
        mkPlayer (p_id p) (p_socketId p) (p_name p) (p_isHost p) (p_status p)
                 (hand p) (numAdd (tricksWon p) 1) (agoraUid p) :: rest
      else p :: creditWinner winningPlayerId rest
  end.

(** [processTrickWin]; [gameState.players[0].hand] throws on an empty
    player list. *)
Definition processTrickWin (gameState : GameState) (winningPlayerId : string)
    : option GameState :=
  let ps := creditWinner winningPlayerId (players gameState) in
  let nextTrickNumber := numAdd (trickNumber gameState) 1 in
  match ps !! 0%nat with
  | None => None
  | Some first =>
      let isGameOver := (length (hand first) =? 0)%nat in
      Some (mkGameState (g_id gameState) ps (deck gameState) [] None
              winningPlayerId (turnOrder gameState) (round gameState)
              nextTrickNumber (if isGameOver then finished else playing)
              (hostId gameState) (maxPlayers gameState))
  end.

(** [Array.prototype.indexOf]: the first index, or [-1]. *)
Fixpoint indexOf (x : string) (l : list string) : Z :=
  match l with
  | [] => -1
  | y :: rest =>
      if String.eqb y x then 0
      else let k := indexOf x rest in if k <? 0 then -1 else k + 1
  end.

(** [getNextPlayerId]; [None] is [undefined].  With an empty [turnOrder]
    the index is [0 % 0 = NaN] and the read is [undefined]. *)
Definition getNextPlayerId (gameState : GameState) : option string :=
  let currentIndex := indexOf (currentPlayerId gameState) (turnOrder gameState) in
  let len := Z.of_nat (length (turnOrder gameState)) in
  if len =? 0 then None
  else
    let nextIndex := Z.rem (currentIndex + 1) len in
    turnOrder gameState !! Z.to_nat nextIndex.

(** ** The engine ([src/index.ts]) *)

(** The card [{ suit: 'spades', rank: '2' }] that stands for a hidden one. *)
Definition placeholderCard : Card := mkCard spades R2.

Definition sanitizePlayer (targetPlayerId : string) (player : Player) : Player :=
  if String.eqb (p_id player) targetPlayerId then player
  else
    let placeholderHand := map (fun _ => placeholderCard) (hand player) in
    mkPlayer (p_id player) (p_socketId player) (p_name player) (p_isHost player)
             (p_status player) placeholderHand (tricksWon player) (agoraUid player).

Definition sanitizeGameStateForPlayer (fullState : GameState)
    (targetPlayerId : string) : GameState :=
  let sanitizedPlayers := map (sanitizePlayer targetPlayerId) (players fullState) in
  mkGameState (g_id fullState) sanitizedPlayers (deck fullState)
    (currentTrick fullState) (leadSuit fullState) (currentPlayerId fullState)
    (turnOrder fullState) (round fullState) (trickNumber fullState)
    (g_status fullState) (hostId fullState) (maxPlayers fullState).

(** The highest card of the lead suit in the trick:
    [currentTrick.filter(..).sort((a, b) => value(b.card) - value(a.card))[0]?.card]. *)
Definition winningCardInTrick (trick : list TrickCard) (leadSuit : Suit)
    : option Card :=
  card <$>
    sortBy (fun a b => getCardValue (card b) - getCardValue (card a))
      (List.filter (fun tc => suit_eqb (suit (card tc)) leadSuit) trick) !! 0%nat.

(** The branch of [triggerAutoPlay] for a player who can follow suit;
    [followSuitCards] is sorted and not empty. *)
Definition followSuitChoice (followSuitCards : list Card) (trick : list TrickCard)
    (leadSuit : Suit) : option Card :=
  let winningHandCards :=
    match winningCardInTrick trick leadSuit with
    | Some w =>
        List.filter (fun c => getCardValue w <? getCardValue c) followSuitCards
    | None => followSuitCards
    end in
  if (0 <? length winningHandCards)%nat
  then winningHandCards !! (length winningHandCards - 1)%nat
  else followSuitCards !! 0%nat.

(** The [forEach] over the suit groups: the suits of maximal length, in
    the order visited, with that length. *)
Definition longestStep (acc : list Suit * nat) (entry : Suit * list Card)
    : list Suit * nat :=
  let '(longestSuits, maxLength) := acc in
  let '(suit, cards) := entry in
  if (maxLength <? length cards)%nat then ([suit], length cards)
  else if (length cards =? maxLength)%nat then (longestSuits ++ [suit], maxLength)
  else (longestSuits, maxLength).

(** The branch for a player who cannot follow suit; it makes one draw. *)
Definition discardChoice (draw : nat) (hand : list Card) : option Card :=
  let suitGroups := groupHandBySuit hand in
  let longestSuits := fst (fold_left longestStep suitGroups ([], 0%nat)) in
  match longestSuits !! randomIndex draw (length longestSuits) with
  | None => None
  | Some chosenSuit =>
      match find (fun e => suit_eqb (fst e) chosenSuit) suitGroups with
      | None => None
      | Some e => sortCards (snd e) !! 0%nat
      end
  end.

(** [hand.reduce((highest, current) => value(current) > value(highest) ? current : highest)]. *)
Definition highestCard (first : Card) (rest : list Card) : Card :=
  fold_left
    (fun highest current =>
       if getCardValue highest <? getCardValue current then current else highest)
    rest first.

(** The card [triggerAutoPlay] decides to play ([cardToPlay]); [None] when
    it returns without playing. *)
Definition autoPlayCard (rnd : RandomSource) (gameState : GameState)
    (playerId : string) : option Card :=
  if negb (String.eqb (currentPlayerId gameState) playerId) then None
  else
    match findPlayer playerId (players gameState) with
    | None => None
    | Some player =>
        match hand player with
        | [] => None
        | first :: rest =>
            match leadSuit gameState with
            | Some leadSuit =>
                let followSuitCards :=
                  sortCards
                    (List.filter (fun c => suit_eqb (suit c) leadSuit) (hand player)) in
                if (0 <? length followSuitCards)%nat
                then followSuitChoice followSuitCards (currentTrick gameState) leadSuit
                else discardChoice (rnd 0%nat) (hand player)
            | None => Some (highestCard first rest)
            end
        end
    end.

(** [advanceToNextTurn]: nothing moves once the game is finished. *)
Definition advanceToNextTurn (gameState : GameState) (nextPlayerId : string)
    : GameState :=
  match g_status gameState with
  | finished => gameState
  | _ =>
      mkGameState (g_id gameState) (players gameState) (deck gameState)
        (currentTrick gameState) (leadSuit gameState) nextPlayerId
        (turnOrder gameState) (round gameState) (trickNumber gameState)
        (g_status gameState) (hostId gameState) (maxPlayers gameState)
  end.

(** [player.hand = player.hand.filter(c => !(c.rank === card.rank && c.suit === card.suit))]
    on the first player with that id. *)
Fixpoint takeFromHand (playerId : string) (played : Card) (ps : list Player)
    : list Player :=
  match ps with
  | [] => []
  | p :: rest =>
      if String.eqb (p_id p) playerId then
        mkPlayer (p_id p) (p_socketId p) (p_name p) (p_isHost p) (p_status p)
          (List.filter
             (fun c => negb (rank_eqb (rank c) (rank played)
                             && suit_eqb (suit c) (suit played)))
             (hand p))
          (tricksWon p) (agoraUid p) :: rest
      else p :: takeFromHand playerId played rest
  end.

(** The synchronous part of [handlePlayCardLogic], on a game that exists.
    [None]: the player is not in the game ([player.hand] throws before
    anything is written), or [turnOrder] is empty and [undefined] would be
    stored as the current player. *)
Definition handlePlayCardLogic (gameState : GameState) (playerId : string)
    (played : Card) : option GameState :=
  match findPlayer playerId (players gameState) with
  | None => None
  | Some _ =>
      let ps := takeFromHand playerId played (players gameState) in
      let trick := currentTrick gameState ++ [mkTrickCard playerId played] in
      let lead :=
        match leadSuit gameState with
        | Some l => Some l
        | None => Some (suit played)
        end in
      let withPlay current :=
        mkGameState (g_id gameState) ps (deck gameState) trick lead current
          (turnOrder gameState) (round gameState) (trickNumber gameState)
          (g_status gameState) (hostId gameState) (maxPlayers gameState) in
      if (length trick =? length ps)%nat then Some (withPlay "")
      else
        let s1 := withPlay (currentPlayerId gameState) in
        advanceToNextTurn s1 <$> getNextPlayerId s1
  end.

(** The delayed callback that resolves a completed trick.  The result is
    [nextState]; when its status is [finished] the game is deleted from the
    registry, otherwise it is stored and the winner's turn starts. *)
Definition resolveTrick (currentState : GameState) : option GameState :=
  match leadSuit currentState with
  | None => None
  | Some lead =>
      match determineTrickWinner (currentTrick currentState) lead with
      | None => None
      | Some winnerId =>
          match processTrickWin currentState winnerId with
          | None => None
          | Some nextState => Some (advanceToNextTurn nextState winnerId)
          end
      end
  end.

(** Pruning a player who stayed offline:
    [currentGame.players = currentGame.players.filter(p => p.id !== user.id)]. *)
Definition prunePlayer (gameState : GameState) (userId : string) : GameState :=
  mkGameState (g_id gameState)
    (List.filter (fun p => negb (String.eqb (p_id p) userId)) (players gameState))
    (deck gameState) (currentTrick gameState) (leadSuit gameState)
    (currentPlayerId gameState) (turnOrder gameState) (round gameState)
    (trickNumber gameState) (g_status gameState) (hostId gameState)
    (maxPlayers gameState).

(** One mutation of a game by the engine: every place of [src/index.ts]
    that writes to a stored [GameState].  Timers are not modelled, so a timer
    callback may fire in any state (in the code the trick-end callback is
    only armed by a play that completes the trick, and the turn timer by the
    start of a turn); the relation allows at least the steps of the code. *)
Inductive step : GameState -> GameState -> Prop :=
| step_play s playerId c s' :
    (* socket 'play-card': the turn and the move are checked first *)
    currentPlayerId s = playerId ->
    valid (isMoveValid s playerId c) = true ->
    handlePlayCardLogic s playerId c = Some s' ->
    step s s'
| step_autoplay rnd s playerId c s' :
    (* the turn timer: triggerAutoPlay, then handlePlayCardLogic *)
    autoPlayCard rnd s playerId = Some c ->
    handlePlayCardLogic s playerId c = Some s' ->
    step s s'
| step_resolve s s' :
    (* the trick-end timer *)
    resolveTrick s = Some s' ->
    step s s'
| step_disconnect s next :
    (* socket 'disconnect': advanceToNextTurn(game.id, getNextPlayerId(game)) *)
    getNextPlayerId s = Some next ->
    step s (advanceToNextTurn s next)
| step_prune s userId :
    (* the reconnection timer *)
    step s (prunePlayer s userId).

(** The states a game goes through from [setupNewGame]. *)
Inductive reachable : GameState -> Prop :=
| reachable_init fuel rnd playerList gameId maxPlayers s :
    setupNewGame fuel rnd playerList gameId maxPlayers = Some s ->
    reachable s
| reachable_step s s' :
    reachable s -> step s s' -> reachable s'.

(** [leadSuit] is null exactly when [currentTrick] is empty. *)
Definition leadSuitInvariant (s : GameState) : Prop :=
  leadSuit s = None <-> currentTrick s = [].

(** * Specification vocabulary and scenarios

    The predicates the properties are stated with, and the concrete games
    they are exercised on. *)

(** A game whose trick has just been completed by its second player: the
    current player is the empty-string sentinel. *)
Definition sentinelState : GameState :=
  mkGameState "game-R" [] [] [] (Some hearts) "" ["u1"; "u2"] 1 1 playing "u1" MP2.

(** What the loop of [determineTrickWinner] has established after the
    cards [seen]. *)
Definition bestSoFar (lead : Suit) (seen : list TrickCard)
    (acc : option TrickCard * Z) : Prop :=
  match fst acc with
  | None =>
      snd acc = -1 /\ forall tc, In tc seen -> suit (card tc) <> lead
  | Some w =>
      In w seen /\ suit (card w) = lead /\ snd acc = getCardValue (card w) /\
      forall tc, In tc seen -> suit (card tc) = lead ->
                 getCardValue (card tc) <= getCardValue (card w)
  end.

(** The scenario of the specification: A leads the 7 of diamonds, B plays
    the 2 of diamonds, C the king of diamonds, D the 3 of clubs. *)
Definition scenarioTrick : list TrickCard :=
  [ mkTrickCard "A" (mkCard diamonds R7); mkTrickCard "B" (mkCard diamonds R2);
    mkTrickCard "C" (mkCard diamonds RK); mkTrickCard "D" (mkCard clubs R3) ].

(** [p] is the element [players.find(p => p.id === playerId)] returns: the
    first player with that id. *)
Definition firstWithId (playerId : string) (ps : list Player) (p : Player) : Prop :=
  exists before after,
    ps = before ++ p :: after /\ p_id p = playerId /\
    forall q, In q before -> p_id q <> playerId.

(** The fourth rejection: a lead suit is set, the hand holds a card of it,
    and the proposed card is of another suit. *)
Definition mustFollowSuit (s : GameState) (p : Player) (c : Card) (lead : Suit) : Prop :=
  leadSuit s = Some lead /\
  (exists c', In c' (hand p) /\ suit c' = lead) /\
  suit c <> lead.

(** Two players in the middle of a trick: A led the 7 of diamonds, B holds
    a diamond and a club and it is B's turn. *)
Definition playerA : Player :=
  mkPlayer "A" "sockA" "Ann" (Some true) online [mkCard hearts R9] 0 1000.
Definition playerB : Player :=
  mkPlayer "B" "sockB" "Bob" None online [mkCard diamonds R2; mkCard clubs R3] 0 1001.
Definition midTrick : GameState :=
  mkGameState "game-R" [playerA; playerB] []
    [mkTrickCard "A" (mkCard diamonds R7)] (Some diamonds) "B" ["A"; "B"]
    1 1 playing "A" MP2.

(** The winner after [winner.tricksWon += 1]. *)
Definition credited (w : Player) : Player :=
  mkPlayer (p_id w) (p_socketId w) (p_name w) (p_isHost w) (p_status w)
           (hand w) (tricksWon w + 1) (agoraUid w).

(** A player with the hand hidden: as many placeholder cards as the hand
    has cards, everything else as it is. *)
Definition hidden (p : Player) : Player :=
  mkPlayer (p_id p) (p_socketId p) (p_name p) (p_isHost p) (p_status p)
           (replicate (length (hand p)) placeholderCard) (tricksWon p) (agoraUid p).

(** Two players that differ at most in which cards they hold; the one with
    id [t] holds the same cards in both. *)
Definition sameButHand (t : string) (p1 p2 : Player) : Prop :=
  p_id p1 = p_id p2 /\ p_socketId p1 = p_socketId p2 /\ p_name p1 = p_name p2 /\
  p_isHost p1 = p_isHost p2 /\ p_status p1 = p_status p2 /\
  tricksWon p1 = tricksWon p2 /\ agoraUid p1 = agoraUid p2 /\
  length (hand p1) = length (hand p2) /\
  (p_id p1 = t -> hand p1 = hand p2).

(** Two states that agree on everything except the contents of the hands
    of the players other than [t]. *)
Definition agreeExceptOtherHands (t : string) (s1 s2 : GameState) : Prop :=
  g_id s1 = g_id s2 /\ deck s1 = deck s2 /\ currentTrick s1 = currentTrick s2 /\
  leadSuit s1 = leadSuit s2 /\ currentPlayerId s1 = currentPlayerId s2 /\
  turnOrder s1 = turnOrder s2 /\ round s1 = round s2 /\
  trickNumber s1 = trickNumber s2 /\ g_status s1 = g_status s2 /\
  hostId s1 = hostId s2 /\ maxPlayers s1 = maxPlayers s2 /\
  Forall2 (sameButHand t) (players s1) (players s2).

(** [midTrick] with another card in A's hand. *)
Definition midTrick' : GameState :=
  mkGameState "game-R"
    [mkPlayer "A" "sockA" "Ann" (Some true) online [mkCard spades RK] 0 1000; playerB]
    [] [mkTrickCard "A" (mkCard diamonds R7)] (Some diamonds) "B" ["A"; "B"]
    1 1 playing "A" MP2.

(** [c] is higher than every card of the lead suit already in the trick
    (than the highest of them, when there is one). *)
Definition beats (trick : list TrickCard) (lead : Suit) (c : Card) : Prop :=
  forall tc, In tc trick -> suit (card tc) = lead ->
             getCardValue (card tc) < getCardValue c.

(** A random source whose every draw is [0]. *)
Definition zeroDraws : RandomSource := fun _ => 0%nat.

(** B must follow A's 2 of hearts and holds the 3 and the king of hearts. *)
Definition cheapWin : GameState :=
  mkGameState "game-R"
    [ playerA;
      mkPlayer "B" "sockB" "Bob" None online
        [mkCard hearts R3; mkCard hearts RK; mkCard clubs R5] 0 1001 ]
    [] [mkTrickCard "A" (mkCard hearts R2)] (Some hearts) "B" ["A"; "B"]
    1 1 playing "A" MP2.

(** The cards [deck[i]] with [i < m] and [i mod n = j], in deck order: what
    round-robin dealing of the first [m] cards gives player [j]. *)
Definition robin (deck : list Card) (n j m : nat) : list Card :=
  flat_map
    (fun i => if (i mod n =? j)%nat then option_list (deck !! i) else [])
    (seq 0 m).

(** Five cards dealt to two players: the fifth is left over. *)
Definition fiveCards : list Card :=
  [ mkCard clubs R2; mkCard hearts RA; mkCard spades R7; mkCard hearts R3;
    mkCard diamonds RQ ].



(** Three participants; the second is the host and has the empty string
    as id. *)
Definition namelessHost : User := mkUser "" "sock2" "Hal" (Some true) online.
Definition threeUsers : list User :=
  [ mkUser "p1" "sock1" "Ann" None online; namelessHost;
    mkUser "p3" "sock3" "Cy" None online ].

(** Draws that leave the two of clubs (index 26 of the ordered deck) last
    in the shuffled deck: with three players that card is not dealt. *)
Definition clubsLast : RandomSource :=
  fun k => match k with O => 26%nat | _ => 0%nat end.

Definition twoUsers : list User :=
  [ mkUser "p1" "sock1" "Ann" (Some true) online;
    mkUser "p2" "sock2" "Bob" None online ].


(** The order [dealCards] leaves a hand in: by suit in the order of
    [allSuits], and within a suit by descending value. *)
Definition handOrdered (a b : Card) : Prop :=
  suitIndex (suit a) < suitIndex (suit b) \/
  (suit a = suit b /\ getCardValue b <= getCardValue a).

(** One turn passed on, as the handler of [disconnect] does it:
    [advanceToNextTurn(game.id, getNextPlayerId(game))]. *)
Definition passTurn (s : GameState) : option GameState :=
  advanceToNextTurn s <$> getNextPlayerId s.

(** [n] turns passed on, one after the other. *)
Fixpoint passTurns (n : nat) (s : GameState) : option GameState :=
  match n with
  | O => Some s
  | S n' =>
      match passTurn s with
      | Some s' => passTurns n' s'
      | None => None
      end
  end.

(** The tricks credited to the players of a game. *)
Definition tricksCredited (ps : list Player) : Z :=
  fold_right (fun p acc => tricksWon p + acc) 0 ps.

(** The number of cards of suit [s] in a hand. *)
Definition suitCount (s : Suit) (h : list Card) : nat :=
  length (List.filter (fun c => suit_eqb (suit c) s) h).

(** B leads a trick: no lead suit yet. *)
Definition playerB3 : Player :=
  mkPlayer "B" "sockB" "Bob" None online
    [mkCard hearts R3; mkCard hearts RK; mkCard clubs R5] 0 1001.
Definition openTrick : GameState :=
  mkGameState "game-R" [playerA; playerB3] [] [] None "B" ["A"; "B"]
    1 1 playing "A" MP2.

(** The scenario of the specification: hearts are led and B holds the 9 of
    spades only. *)
Definition playerB9 : Player :=
  mkPlayer "B" "sockB" "Bob" None online [mkCard spades R9] 0 1001.
Definition onlySpade : GameState :=
  mkGameState "game-R" [playerA; playerB9] []
    [mkTrickCard "A" (mkCard hearts R7)] (Some hearts) "B" ["A"; "B"]
    1 1 playing "A" MP2.

(** The acting player after
    [player.hand = player.hand.filter(c => !(c.rank === card.rank && c.suit === card.suit))]. *)
Definition withoutCard (played : Card) (p : Player) : Player :=
  mkPlayer (p_id p) (p_socketId p) (p_name p) (p_isHost p) (p_status p)
    (List.filter
       (fun c => negb (rank_eqb (rank c) (rank played)
                       && suit_eqb (suit c) (suit played)))
       (hand p))
    (tricksWon p) (agoraUid p).

(** The number of cards the players of a game hold. *)
Definition handCards (s : GameState) : Z :=
  Z.of_nat (length (concat (map hand (players s)))).

(** 1 while a trick is open ([leadSuit] is set), 0 between tricks. *)
Definition leadFlag (s : GameState) : Z :=
  match leadSuit s with Some _ => 1 | None => 0 end.

(** What the engine keeps of the bookkeeping of a game: the turn order is
    not empty, the round is 1, the deck is empty, the game is not waiting,
    no player has a negative trick count, and the players hold at most one
    trick per resolved trick.  The last part bounds the counters: a trick is
    resolved only while one is open, a trick is opened only by a play, and
    a play takes a card out of a hand, so the trick number, the cards in
    hand and the open trick together never exceed 53. *)
Definition bookkeeping (s : GameState) : Prop :=
  turnOrder s <> [] /\ round s = 1 /\ deck s = [] /\ g_status s <> waiting /\
  (forall p, In p (players s) -> 0 <= tricksWon p) /\
  tricksCredited (players s) + 1 <= trickNumber s /\
  trickNumber s + handCards s + leadFlag s <= 53.

(** The cards of a game that are in a hand or in the current trick. *)
Definition cardsInPlay (s : GameState) : list Card :=
  concat (map hand (players s)) ++ map card (currentTrick s).

(** A number that holds a safe integer ([Number.isSafeInteger]): below
    2^53 in absolute value, where adding 1 is exact. *)
Definition safeInteger (n : Z) : Prop := Z.abs n < 2 ^ 53.

(** * Properties *)

(** ** Turn order: [getNextPlayerId] *)

Lemma indexOf_range (x : string) (l : list string) :
  -1 <= indexOf x l < Z.of_nat (length l).
Proof.
  induction l as [|y rest IH]; simpl; [lia|].
  destruct (String.eqb y x); [lia|].
  destruct (indexOf x rest <? 0) eqn:E; lia.
Qed.

Lemma indexOf_absent (x : string) (l : list string) :
  ~ In x l -> indexOf x l = -1.
Proof.
  induction l as [|y rest IH]; simpl; intros Hn; [reflexivity|].
  destruct (String.eqb y x) eqn:E.
  - apply String.eqb_eq in E. tauto.
  - rewrite IH by tauto. reflexivity.
Qed.

Lemma lookup_In {A} (l : list A) (i : nat) (x : A) : l !! i = Some x -> In x l.
Proof. intros H. apply list_elem_of_In. eapply list_elem_of_lookup_2, H. Qed.

(** C10. With a non-empty [turnOrder], [getNextPlayerId] returns an element
    of [turnOrder] (it is total and does not fail), and when
    [currentPlayerId] does not occur in [turnOrder], as for the empty-string
    sentinel, it returns the first element of [turnOrder]. *)
Theorem getNextPlayerId_total (s : GameState) :
  turnOrder s <> [] ->
  (exists next, getNextPlayerId s = Some next /\ In next (turnOrder s)) /\
  (~ In (currentPlayerId s) (turnOrder s) ->
   getNextPlayerId s = head (turnOrder s)).
Proof.
  intros Hne. unfold getNextPlayerId.
  pose proof (indexOf_range (currentPlayerId s) (turnOrder s)) as Hr.
  destruct (turnOrder s) as [|t0 rest] eqn:Et; [congruence|].
  set (len := Z.of_nat (length (t0 :: rest))) in *.
  assert (Hlen : 0 < len) by (unfold len; simpl; lia).
  destruct (len =? 0) eqn:E0; [lia|]. split.
  - assert (Hrem : 0 <= Z.rem (indexOf (currentPlayerId s) (t0 :: rest) + 1) len < len)
      by (apply Z.rem_bound_pos; lia).
    destruct ((t0 :: rest) !! Z.to_nat (Z.rem (indexOf (currentPlayerId s) (t0 :: rest) + 1) len))
      as [next|] eqn:El.
    + exists next. split; [reflexivity|]. eapply lookup_In, El.
    + apply lookup_ge_None in El. subst len. simpl length in *. lia.
  - intros Hn. rewrite (indexOf_absent _ _ Hn).
    replace (-1 + 1) with 0 by lia. rewrite Z.rem_0_l by lia. reflexivity.
Qed.

Lemma getNextPlayerId_total_witness :
  getNextPlayerId sentinelState = Some "u1".
Proof.
  refine (proj2 (getNextPlayerId_total sentinelState _) _).
  - simpl. discriminate.
  - simpl. intros [H|[H|[]]]; discriminate.
Defined.

(** ** Trick resolution: [determineTrickWinner] *)

Lemma getCardValue_pos (c : Card) : 2 <= getCardValue c <= 14.
Proof. unfold getCardValue. destruct (rank c); lia. Qed.

Lemma trickStep_bestSoFar (lead : Suit) (seen : list TrickCard)
    (acc : option TrickCard * Z) (tc : TrickCard) :
  bestSoFar lead seen acc -> bestSoFar lead (seen ++ [tc]) (trickStep lead acc tc).
Proof.
  unfold bestSoFar, trickStep, suit_eqb. destruct acc as [[w|] hv]; simpl.
  - intros (Hin & Hs & Hv & Hmax). subst hv.
    case_bool_decide as Hd; simpl.
    + destruct (getCardValue (card w) <? getCardValue (card tc)) eqn:E; simpl.
      * apply Z.ltb_lt in E. repeat split; auto.
        -- apply in_or_app. right. left. reflexivity.
        -- intros t Ht Hl. apply in_app_or in Ht. destruct Ht as [Ht|[<-|[]]]; [|lia].
           specialize (Hmax t Ht Hl). lia.
      * apply Z.ltb_ge in E. repeat split; auto.
        -- apply in_or_app. left. exact Hin.
        -- intros t Ht Hl. apply in_app_or in Ht. destruct Ht as [Ht|[<-|[]]]; auto.
    + repeat split; auto.
      * apply in_or_app. left. exact Hin.
      * intros t Ht Hl. apply in_app_or in Ht. destruct Ht as [Ht|[<-|[]]]; auto.
        contradiction.
  - intros (Hv & Hnone). subst hv.
    case_bool_decide as Hd; simpl.
    + pose proof (getCardValue_pos (card tc)) as Hp.
      destruct (-1 <? getCardValue (card tc)) eqn:E; [|apply Z.ltb_ge in E; lia].
      simpl. repeat split; auto.
      * apply in_or_app. right. left. reflexivity.
      * intros t Ht Hl. apply in_app_or in Ht. destruct Ht as [Ht|[<-|[]]]; [|lia].
        exfalso. exact (Hnone t Ht Hl).
    + split; [reflexivity|].
      intros t Ht. apply in_app_or in Ht. destruct Ht as [Ht|[<-|[]]]; auto.
Qed.

Lemma trickLoop_bestSoFar (lead : Suit) (trick : list TrickCard) :
  bestSoFar lead trick (fold_left (trickStep lead) trick (None, -1)).
Proof.
  induction trick as [|tc seen IH] using rev_ind.
  - simpl. split; [reflexivity|]. intros tc [].
  - rewrite fold_left_app. simpl. apply trickStep_bestSoFar, IH.
Qed.

(** C3. The rank values are 2 for the two up to 10 for the ten, then 11,
    12, 13 and 14 for jack, queen, king and ace, in every suit.  For a trick
    with at least one card of the lead suit, [determineTrickWinner] returns
    the [playerId] of a trick card [w] of the trick whose card is of the
    lead suit and whose value on that scale is maximal among the trick cards
    of the lead suit; a trick card off the lead suit is never the returned
    entry, whatever its rank. *)
Theorem determineTrickWinner_correct (trick : list TrickCard) (lead : Suit) :
  (exists tc, In tc trick /\ suit (card tc) = lead) ->
  (forall s, map (fun r => getCardValue (mkCard s r))
                 [R2; R3; R4; R5; R6; R7; R8; R9; R10; RJ; RQ; RK; RA] =
             [2; 3; 4; 5; 6; 7; 8; 9; 10; 11; 12; 13; 14]) /\
  exists w,
    determineTrickWinner trick lead = Some (playerId w) /\
    In w trick /\
    suit (card w) = lead /\
    (forall tc, In tc trick -> suit (card tc) = lead ->
                getCardValue (card tc) <= getCardValue (card w)) /\
    (forall tc, In tc trick -> suit (card tc) <> lead -> tc <> w).
Proof.
  intros (tc & Hin & Hs). split; [intros s; reflexivity|].
  pose proof (trickLoop_bestSoFar lead trick) as H.
  unfold determineTrickWinner, bestSoFar in *.
  destruct (fst (fold_left (trickStep lead) trick (None, -1))) as [w|].
  - destruct H as (Hw & Hl & _ & Hmax). exists w. simpl.
    split; [reflexivity|]. split; [exact Hw|]. split; [exact Hl|].
    split; [exact Hmax|]. intros t _ Ht ->. contradiction.
  - destruct H as (_ & Hnone). exfalso. exact (Hnone tc Hin Hs).
Qed.

Lemma determineTrickWinner_correct_witness :
  getCardValue (mkCard diamonds R7) = 7 /\
  getCardValue (mkCard diamonds RK) = 13 /\
  determineTrickWinner scenarioTrick diamonds = Some "C".
Proof.
  destruct (determineTrickWinner_correct scenarioTrick diamonds)
    as (Hscale & w & Hret & Hin & Hs & Hmax & _).
  - exists (mkTrickCard "A" (mkCard diamonds R7)). split; [left|]; reflexivity.
  - specialize (Hscale diamonds).
    pose proof (f_equal (fun l => nth 0 l 0) Hscale) as H2.
    pose proof (f_equal (fun l => nth 5 l 0) Hscale) as H7.
    pose proof (f_equal (fun l => nth 11 l 0) Hscale) as HK.
    cbn [map nth] in H2, H7, HK.
    pose proof (Hmax (mkTrickCard "C" (mkCard diamonds RK))
                  (or_intror (or_intror (or_introl eq_refl))) eq_refl) as Hking.
    cbn [card] in Hking. rewrite HK in Hking.
    split; [exact H7|]. split; [exact HK|].
    destruct Hin as [<-|[<-|[<-|[<-|[]]]]].
    + cbn [card] in Hking. rewrite H7 in Hking. lia.
    + cbn [card] in Hking. rewrite H2 in Hking. lia.
    + exact Hret.
    + discriminate Hs.
Defined.

Example determineTrickWinner_scenario :
  determineTrickWinner scenarioTrick diamonds = Some "C".
Proof. reflexivity. Qed.

(** ** Move validation: [isMoveValid] *)

Lemma findPlayer_None (playerId : string) (ps : list Player) :
  findPlayer playerId ps = None <-> forall q, In q ps -> p_id q <> playerId.
Proof.
  unfold findPlayer. induction ps as [|p rest IH]; simpl.
  - split; [intros _ q []|reflexivity].
  - destruct (String.eqb (p_id p) playerId) eqn:E.
    + apply String.eqb_eq in E. split; [discriminate|].
      intros H. exfalso. apply (H p); auto.
    + apply String.eqb_neq in E. rewrite IH. split.
      * intros H q [<-|Hq]; auto.
      * intros H q Hq. apply H. auto.
Qed.

Lemma findPlayer_Some (playerId : string) (ps : list Player) (p : Player) :
  findPlayer playerId ps = Some p <-> firstWithId playerId ps p.
Proof.
  unfold findPlayer, firstWithId. revert p. induction ps as [|q rest IH]; intros p; simpl.
  - split; [discriminate|]. intros (b & a & H & _). destruct b; discriminate.
  - destruct (String.eqb (p_id q) playerId) eqn:E.
    + apply String.eqb_eq in E. split.
      * intros [= <-]. exists [], rest. repeat split; auto; intros ? [].
      * intros (b & a & H & Hid & Hb). destruct b as [|q' b]; simpl in H.
        -- congruence.
        -- injection H as <- _. exfalso. apply (Hb q); [left; reflexivity|exact E].
    + apply String.eqb_neq in E. rewrite IH. split.
      * intros (b & a & -> & Hid & Hb). exists (q :: b), a. repeat split; auto.
        intros q' [<-|Hq']; auto.
      * intros (b & a & H & Hid & Hb). destruct b as [|q' b]; simpl in H.
        -- injection H as -> _. contradiction.
        -- injection H as <- ->. exists b, a. repeat split; auto.
           intros q' Hq'. apply Hb. right. exact Hq'.
Qed.

Lemma firstWithId_unique (playerId : string) (ps : list Player) (p q : Player) :
  firstWithId playerId ps p -> firstWithId playerId ps q -> p = q.
Proof. rewrite <- !findPlayer_Some. congruence. Qed.

Lemma sameCard_true (c d : Card) : sameCard c d = true <-> c = d.
Proof.
  unfold sameCard, suit_eqb, rank_eqb. rewrite andb_true_iff, !bool_decide_eq_true.
  destruct c, d; simpl. split; [intros [-> ->]; reflexivity|intros [= -> ->]; auto].
Qed.

Lemma hasCard_In (c : Card) (h : list Card) :
  existsb (fun x => sameCard x c) h = true <-> In c h.
Proof.
  rewrite existsb_exists. split.
  - intros (x & Hx & E). apply sameCard_true in E. subst. exact Hx.
  - intros H. exists c. split; [exact H|]. apply sameCard_true. reflexivity.
Qed.

Lemma hasSuit_In (l : Suit) (h : list Card) :
  existsb (fun x => suit_eqb (suit x) l) h = true <->
  exists c, In c h /\ suit c = l.
Proof.
  rewrite existsb_exists. unfold suit_eqb.
  split; intros (x & Hx & E); exists x; split; auto.
  - apply bool_decide_eq_true in E. exact E.
  - apply bool_decide_eq_true. exact E.
Qed.

(** C5. [isMoveValid] rejects with the reason of the first of these that
    holds: (1) no player has the id; (2) the id is not [currentPlayerId];
    (3) the card is not in the hand of the player [find] returns; (4) a lead
    suit is set, that hand holds a card of it and the card is of another
    suit.  It accepts, with an empty message, exactly when none holds.  The
    function only reads its arguments: it is embedded as a function to
    [MoveResult], and there is no state for it to change. *)
Theorem isMoveValid_spec (s : GameState) (playerId : string) (c : Card) :
  ((forall q, In q (players s) -> p_id q <> playerId) ->
   isMoveValid s playerId c = mkMoveResult false "Player not found.") /\
  (forall p, firstWithId playerId (players s) p ->
     (currentPlayerId s <> playerId ->
      isMoveValid s playerId c = mkMoveResult false "It's not your turn.") /\
     (currentPlayerId s = playerId -> ~ In c (hand p) ->
      isMoveValid s playerId c =
        mkMoveResult false "You don't have that card in your hand.") /\
     (forall lead,
        currentPlayerId s = playerId -> In c (hand p) ->
        mustFollowSuit s p c lead ->
        isMoveValid s playerId c =
          mkMoveResult false
            ("You must follow suit by playing a " ++ suitName lead ++ ".")) /\
     (currentPlayerId s = playerId -> In c (hand p) ->
      (forall lead, ~ mustFollowSuit s p c lead) ->
      isMoveValid s playerId c = mkMoveResult true "")) /\
  (valid (isMoveValid s playerId c) = true <->
   exists p, firstWithId playerId (players s) p /\
             currentPlayerId s = playerId /\ In c (hand p) /\
             forall lead, ~ mustFollowSuit s p c lead).
Proof.
  assert (Hcases : forall p, findPlayer playerId (players s) = Some p ->
    (currentPlayerId s <> playerId ->
      isMoveValid s playerId c = mkMoveResult false "It's not your turn.") /\
     (currentPlayerId s = playerId -> ~ In c (hand p) ->
      isMoveValid s playerId c =
        mkMoveResult false "You don't have that card in your hand.") /\
     (forall lead,
        currentPlayerId s = playerId -> In c (hand p) ->
        mustFollowSuit s p c lead ->
        isMoveValid s playerId c =
          mkMoveResult false
            ("You must follow suit by playing a " ++ suitName lead ++ ".")) /\
     (currentPlayerId s = playerId -> In c (hand p) ->
      (forall lead, ~ mustFollowSuit s p c lead) ->
      isMoveValid s playerId c = mkMoveResult true "")).
  { intros p Hf. unfold isMoveValid. rewrite Hf.
    destruct (String.eqb (currentPlayerId s) playerId) eqn:Ecur; simpl.
    - apply String.eqb_eq in Ecur.
      destruct (existsb (fun x => sameCard x c) (hand p)) eqn:Ehas; simpl.
      + apply hasCard_In in Ehas.
        repeat split; try tauto.
        * intros lead _ _ (Hl & Hh & Hs). rewrite Hl.
          apply hasSuit_In in Hh. rewrite Hh. unfold suit_eqb.
          rewrite bool_decide_eq_false_2 by exact Hs. reflexivity.
        * intros _ _ Hno. destruct (leadSuit s) as [lead|] eqn:El; [|reflexivity].
          destruct (existsb (fun x => suit_eqb (suit x) lead) (hand p)) eqn:Eh;
            [|reflexivity].
          unfold suit_eqb. case_bool_decide as Hd; [reflexivity|].
          exfalso. apply (Hno lead). unfold mustFollowSuit.
          apply hasSuit_In in Eh. auto.
      + assert (Hn : ~ In c (hand p)).
        { intros Hin. apply hasCard_In in Hin. congruence. }
        repeat split; try tauto.
    - apply String.eqb_neq in Ecur. repeat split; tauto. }
  split; [|split].
  - intros Hnone. apply findPlayer_None in Hnone. unfold isMoveValid.
    rewrite Hnone. reflexivity.
  - intros p Hp. apply Hcases, findPlayer_Some, Hp.
  - split.
    + intros Hv. destruct (findPlayer playerId (players s)) as [p|] eqn:Hf.
      * destruct (Hcases p eq_refl) as (H2 & H3 & H4 & _).
        exists p. split; [apply findPlayer_Some, Hf|].
        destruct (decide (currentPlayerId s = playerId)) as [Hc|Hc];
          [|rewrite (H2 Hc) in Hv; discriminate].
        split; [exact Hc|].
        destruct (In_dec Card_eq_dec c (hand p)) as [Hin|Hin];
          [|rewrite (H3 Hc Hin) in Hv; discriminate].
        split; [exact Hin|].
        intros lead Hm. rewrite (H4 lead Hc Hin Hm) in Hv. discriminate.
      * unfold isMoveValid in Hv. rewrite Hf in Hv. discriminate.
    + intros (p & Hp & Hc & Hin & Hno).
      apply findPlayer_Some in Hp. destruct (Hcases p Hp) as (_ & _ & _ & H5).
      rewrite (H5 Hc Hin Hno). reflexivity.
Qed.

Lemma isMoveValid_spec_witness :
  isMoveValid midTrick "B" (mkCard clubs R3) =
    mkMoveResult false "You must follow suit by playing a diamonds." /\
  isMoveValid midTrick "B" (mkCard diamonds R2) = mkMoveResult true "".
Proof.
  assert (Hb : firstWithId "B" (players midTrick) playerB).
  { exists [playerA], []. split; [reflexivity|]. split; [reflexivity|].
    intros q [<-|[]]. simpl. discriminate. }
  split.
  - refine (proj1 (proj2 (proj2
      (proj1 (proj2 (isMoveValid_spec midTrick "B" (mkCard clubs R3))) playerB Hb)))
      diamonds eq_refl _ _).
    + simpl. auto.
    + split; [reflexivity|]. split; [|simpl; discriminate].
      exists (mkCard diamonds R2). simpl. auto.
  - refine (proj2 (proj2 (proj2
      (proj1 (proj2 (isMoveValid_spec midTrick "B" (mkCard diamonds R2))) playerB Hb)))
      eq_refl _ _).
    + simpl. auto.
    + intros lead (Hl & _ & Hs). simpl in Hl, Hs. congruence.
Defined.

(** ** Trick resolution: [processTrickWin] *)

Lemma roundToDouble_exact (x : Z) : Z.abs x <= 2 ^ 53 -> roundToDouble x = x.
Proof.
  intros Hx. unfold roundToDouble.
  destruct (Z.abs x <? 2 ^ 53) eqn:E; [reflexivity|].
  apply Z.ltb_ge in E.
  assert (Hcases : x = 2 ^ 53 \/ x = - 2 ^ 53) by lia.
  destruct Hcases as [->| ->]; vm_compute; reflexivity.
Qed.

(** Adding 1 to a safe integer is exact. *)
Lemma numAdd_one_safe (n : Z) : safeInteger n -> numAdd n 1 = n + 1.
Proof.
  unfold safeInteger, numAdd. intros Hn. apply roundToDouble_exact. lia.
Qed.

(** Beyond the safe integers it is not: at 2^53 the sum is rounded back,
    and at 2^53 + 2 it is rounded up to the next double. *)
Example numAdd_one_rounds :
  numAdd (2 ^ 53) 1 = 2 ^ 53 /\ numAdd (2 ^ 53 + 2) 1 = 2 ^ 53 + 4.
Proof. split; vm_compute; reflexivity. Qed.

Lemma creditWinner_first (winnerId : string) (before after : list Player) (w : Player) :
  (forall q, In q before -> p_id q <> winnerId) ->
  p_id w = winnerId ->
  safeInteger (tricksWon w) ->
  creditWinner winnerId (before ++ w :: after) = before ++ credited w :: after.
Proof.
  intros Hb Hw Hsafe. induction before as [|q before IH]; simpl.
  - apply String.eqb_eq in Hw. rewrite Hw.
    unfold credited. rewrite (numAdd_one_safe _ Hsafe). reflexivity.
  - assert (Hq : p_id q <> winnerId) by (apply Hb; left; reflexivity).
    apply String.eqb_neq in Hq. rewrite Hq. f_equal. apply IH.
    intros q' Hq'. apply Hb. right. exact Hq'.
Qed.

Lemma firstWithId_exists (playerId : string) (ps : list Player) :
  (exists p, In p ps /\ p_id p = playerId) -> exists w, firstWithId playerId ps w.
Proof.
  intros (p & Hin & Hid).
  destruct (findPlayer playerId ps) as [w|] eqn:Hf.
  - exists w. apply findPlayer_Some, Hf.
  - exfalso. exact (proj1 (findPlayer_None playerId ps) Hf p Hin Hid).
Qed.

(** C4. For a state with a non-empty player list that holds a player with
    id [winnerId], whose trick number and whose winner's trick count are
    safe integers (the counters of a game: the code adds 1 to them as
    doubles), [processTrickWin] returns a state whose player list is the old
    one with the winner (the first player with that id) credited one more
    trick and every other player as before; [currentTrick] is empty,
    [leadSuit] is null, [currentPlayerId] is the winner, [trickNumber] is one
    more, and the status is [finished] when the first player's hand is empty
    and [playing] otherwise.  The other fields are unchanged. *)
Theorem processTrickWin_spec (s : GameState) (winnerId : string) :
  players s <> [] ->
  (exists p, In p (players s) /\ p_id p = winnerId) ->
  safeInteger (trickNumber s) ->
  (forall p, In p (players s) -> p_id p = winnerId -> safeInteger (tricksWon p)) ->
  exists s' before w after,
    processTrickWin s winnerId = Some s' /\
    players s = before ++ w :: after /\
    p_id w = winnerId /\
    (forall q, In q before -> p_id q <> winnerId) /\
    players s' = before ++ credited w :: after /\
    tricksWon (credited w) = tricksWon w + 1 /\
    (forall j, j <> length before ->
               tricksWon <$> players s' !! j = tricksWon <$> players s !! j) /\
    currentTrick s' = [] /\
    leadSuit s' = None /\
    currentPlayerId s' = winnerId /\
    trickNumber s' = trickNumber s + 1 /\
    (g_status s' = finished <->
     exists first, head (players s) = Some first /\ hand first = []) /\
    (g_status s' <> finished -> g_status s' = playing) /\
    g_id s' = g_id s /\ deck s' = deck s /\ turnOrder s' = turnOrder s /\
    round s' = round s /\ hostId s' = hostId s /\ maxPlayers s' = maxPlayers s.
Proof.
  intros Hne Hex Htn Htw.
  destruct (firstWithId_exists _ _ Hex) as (w & before & after & Hps & Hw & Hb).
  assert (Hsafe : safeInteger (tricksWon w)).
  { apply Htw; [|exact Hw]. rewrite Hps. apply in_or_app. right. left. reflexivity. }
  pose proof (creditWinner_first winnerId before after w Hb Hw Hsafe) as Hcw.
  unfold processTrickWin. rewrite Hps, Hcw, (numAdd_one_safe _ Htn).
  assert (Hhead : exists first first',
             head (before ++ w :: after) = Some first /\
             (before ++ credited w :: after) !! 0%nat = Some first' /\
             hand first' = hand first).
  { destruct before as [|q before]; simpl; eauto. }
  destruct Hhead as (first & first' & Hh & Hh' & Hhand).
  rewrite Hh'. eexists _, before, w, after.
  split; [reflexivity|]. simpl.
  repeat match goal with |- _ /\ _ => split end; auto.
  - intros j Hj.
    destruct (decide (j < length before)%nat) as [Hlt|Hge].
    + rewrite !lookup_app_l by exact Hlt. reflexivity.
    + rewrite !lookup_app_r by lia.
      destruct (j - length before)%nat as [|k] eqn:Ek; [lia|]. reflexivity.
  - rewrite Hhand, Hh. destruct (hand first) as [|c h] eqn:Eh; simpl.
    + split; [intros _; exists first; auto|reflexivity].
    + split; [discriminate|]. intros (f & [= <-] & Hf). congruence.
  - destruct (length (hand first') =? 0)%nat; [intros H; contradiction H|]; reflexivity.
Qed.

Lemma processTrickWin_spec_witness :
  exists s' before w after,
    processTrickWin midTrick "A" = Some s' /\
    players midTrick = before ++ w :: after /\
    players s' = before ++ credited w :: after /\
    currentTrick s' = [] /\ leadSuit s' = None /\ currentPlayerId s' = "A" /\
    trickNumber s' = trickNumber midTrick + 1.
Proof.
  destruct (processTrickWin_spec midTrick "A") as
    (s' & before & w & after & H1 & H2 & _ & _ & H3 & _ & _ & H4 & H5 & H6 & H7 & _).
  - simpl. discriminate.
  - exists playerA. simpl. auto.
  - reflexivity.
  - intros p [<-|[<-|[]]] _; reflexivity.
  - exists s', before, w, after. auto 10.
Defined.

Example processTrickWin_midTrick :
  processTrickWin midTrick "A" =
    Some (mkGameState "game-R" [credited playerA; playerB] [] [] None "A"
            ["A"; "B"] 1 2 playing "A" MP2).
Proof. reflexivity. Qed.

(** ** State redaction: [sanitizeGameStateForPlayer] *)

Lemma placeholderHand_replicate (h : list Card) :
  map (fun _ => placeholderCard) h = replicate (length h) placeholderCard.
Proof. induction h as [|c h IH]; simpl; [reflexivity|]. rewrite IH. reflexivity. Qed.

Lemma sanitizePlayer_cases (t : string) (p : Player) :
  (p_id p = t -> sanitizePlayer t p = p) /\
  (p_id p <> t -> sanitizePlayer t p = hidden p).
Proof.
  unfold sanitizePlayer, hidden. rewrite placeholderHand_replicate.
  destruct (String.eqb (p_id p) t) eqn:E.
  - apply String.eqb_eq in E. split; [reflexivity|contradiction].
  - apply String.eqb_neq in E. split; [contradiction|reflexivity].
Qed.

Lemma sanitizePlayer_sameButHand (t : string) (p1 p2 : Player) :
  sameButHand t p1 p2 -> sanitizePlayer t p1 = sanitizePlayer t p2.
Proof.
  intros (Hid & Hsock & Hname & Hhost & Hst & Htw & Hag & Hlen & Hhand).
  destruct (sanitizePlayer_cases t p1) as [Hown1 Hoth1].
  destruct (sanitizePlayer_cases t p2) as [Hown2 Hoth2].
  destruct (decide (p_id p1 = t)) as [Ht|Ht].
  - rewrite Hown1, Hown2 by congruence. specialize (Hhand Ht).
    destruct p1, p2; simpl in *; congruence.
  - rewrite Hoth1, Hoth2 by congruence. unfold hidden.
    destruct p1, p2; simpl in *; congruence.
Qed.

(** C1. The view [sanitizeGameStateForPlayer s t] has every field of [s]
    except [players]; its players are those of [s], position by position,
    the ones with id [t] as they are and every other one with the hand
    replaced by as many placeholder cards (spades, 2).  Hence two states
    that agree except on the contents of the hands of players other than
    [t] have the same view for [t]. *)
Theorem sanitize_hides_other_hands (s : GameState) (t : string) :
  In t (map p_id (players s)) ->
  (g_id (sanitizeGameStateForPlayer s t) = g_id s /\
   deck (sanitizeGameStateForPlayer s t) = deck s /\
   currentTrick (sanitizeGameStateForPlayer s t) = currentTrick s /\
   leadSuit (sanitizeGameStateForPlayer s t) = leadSuit s /\
   currentPlayerId (sanitizeGameStateForPlayer s t) = currentPlayerId s /\
   turnOrder (sanitizeGameStateForPlayer s t) = turnOrder s /\
   round (sanitizeGameStateForPlayer s t) = round s /\
   trickNumber (sanitizeGameStateForPlayer s t) = trickNumber s /\
   g_status (sanitizeGameStateForPlayer s t) = g_status s /\
   hostId (sanitizeGameStateForPlayer s t) = hostId s /\
   maxPlayers (sanitizeGameStateForPlayer s t) = maxPlayers s) /\
  length (players (sanitizeGameStateForPlayer s t)) = length (players s) /\
  (forall i p, players s !! i = Some p ->
     (p_id p = t -> players (sanitizeGameStateForPlayer s t) !! i = Some p) /\
     (p_id p <> t ->
      players (sanitizeGameStateForPlayer s t) !! i = Some (hidden p))) /\
  (forall s2, agreeExceptOtherHands t s s2 ->
     sanitizeGameStateForPlayer s2 t = sanitizeGameStateForPlayer s t).
Proof.
  intros _. split; [|split; [|split]].
  - simpl. repeat split.
  - simpl. apply length_map.
  - intros i p Hp. simpl. rewrite list_lookup_fmap, Hp. simpl.
    destruct (sanitizePlayer_cases t p) as [Hown Hoth].
    split; intros H; [rewrite Hown|rewrite Hoth]; auto.
  - intros s2 (H1 & H2 & H3 & H4 & H5 & H6 & H7 & H8 & H9 & H10 & H11 & Hps).
    unfold sanitizeGameStateForPlayer.
    rewrite H1, H2, H3, H4, H5, H6, H7, H8, H9, H10, H11. f_equal.
    symmetry. induction Hps as [|p1 p2 l1 l2 Hp _ IH]; simpl; [reflexivity|].
    rewrite (sanitizePlayer_sameButHand t p1 p2 Hp), IH. reflexivity.
Qed.

Lemma sanitize_hides_other_hands_witness :
  players (sanitizeGameStateForPlayer midTrick "B") !! 0%nat = Some (hidden playerA) /\
  players (sanitizeGameStateForPlayer midTrick "B") !! 1%nat = Some playerB /\
  sanitizeGameStateForPlayer midTrick' "B" = sanitizeGameStateForPlayer midTrick "B".
Proof.
  destruct (sanitize_hides_other_hands midTrick "B") as (_ & _ & Hview & Hni).
  - simpl. auto.
  - split; [|split].
    + apply (Hview 0%nat playerA); [reflexivity|simpl; discriminate].
    + apply (Hview 1%nat playerB); reflexivity.
    + apply Hni. unfold agreeExceptOtherHands. simpl.
      repeat match goal with |- _ /\ _ => split end; try reflexivity.
      repeat constructor; simpl; try reflexivity; discriminate.
Defined.

Example sanitize_midTrick :
  hand <$> players (sanitizeGameStateForPlayer midTrick "B") =
    [[placeholderCard]; [mkCard diamonds R2; mkCard clubs R3]].
Proof. reflexivity. Qed.

(** ** Sorting *)

Section SortFacts.
Context {A : Type} (cmp : A -> A -> Z).

Lemma insertBy_perm (x : A) (l : list A) : Permutation (insertBy cmp x l) (x :: l).
Proof.
  induction l as [|y l IH]; simpl; [reflexivity|].
  destruct (cmp x y <=? 0); [reflexivity|].
  rewrite IH. apply perm_swap.
Qed.

Lemma sortBy_perm (l : list A) : Permutation (sortBy cmp l) l.
Proof.
  induction l as [|x l IH]; simpl; [reflexivity|].
  rewrite insertBy_perm, IH. reflexivity.
Qed.

Lemma sortBy_In (l : list A) (x : A) : In x (sortBy cmp l) <-> In x l.
Proof.
  split; apply Permutation_in; [|symmetry]; apply sortBy_perm.
Qed.

Lemma sortBy_length (l : list A) : length (sortBy cmp l) = length l.
Proof. apply Permutation_length, sortBy_perm. Qed.

Hypothesis cmp_total : forall a b, 0 < cmp a b -> cmp b a <= 0.
Hypothesis cmp_trans : forall a b c, cmp a b <= 0 -> cmp b c <= 0 -> cmp a c <= 0.

Lemma insertBy_sorted (x : A) (l : list A) :
  StronglySorted (before cmp) l -> StronglySorted (before cmp) (insertBy cmp x l).
Proof.
  induction l as [|y l IH]; simpl; intros Hs.
  - constructor; constructor.
  - destruct (cmp x y <=? 0) eqn:E.
    + apply Z.leb_le in E. constructor; [exact Hs|].
      constructor; [exact E|].
      apply StronglySorted_inv in Hs. destruct Hs as [_ Hall].
      eapply Forall_impl; [exact Hall|]. intros z Hz. unfold before in *.
      eapply cmp_trans; eassumption.
    + apply Z.leb_gt in E. apply StronglySorted_inv in Hs. destruct Hs as [Hs Hall].
      constructor; [apply IH, Hs|].
      apply List.Forall_forall. intros z Hz.
      apply (Permutation_in _ (insertBy_perm x l)) in Hz.
      destruct Hz as [<-|Hz].
      * apply cmp_total. lia.
      * rewrite List.Forall_forall in Hall. apply Hall, Hz.
Qed.

Lemma sortBy_sorted (l : list A) : StronglySorted (before cmp) (sortBy cmp l).
Proof.
  induction l as [|x l IH]; simpl; [constructor|]. apply insertBy_sorted, IH.
Qed.

End SortFacts.

Lemma StronglySorted_filter {A} (R : A -> A -> Prop) (f : A -> bool) (l : list A) :
  StronglySorted R l -> StronglySorted R (List.filter f l).
Proof.
  induction 1 as [|x l Hs IH Hall]; simpl; [constructor|].
  destruct (f x); [|exact IH]. constructor; [exact IH|].
  rewrite List.Forall_forall in *. intros y Hy. apply filter_In in Hy. apply Hall, Hy.
Qed.

Lemma StronglySorted_weaken {A} (R R' : A -> A -> Prop) (l : list A) :
  (forall a b, R a b -> R' a b) -> StronglySorted R l -> StronglySorted R' l.
Proof.
  intros HR. induction 1 as [|x l Hs IH Hall]; constructor; [exact IH|].
  eapply Forall_impl; [exact Hall|]. intros y. apply HR.
Qed.

Lemma sorted_first {A} (R : A -> A -> Prop) (l : list A) (x : A) :
  StronglySorted R l -> l !! 0%nat = Some x ->
  forall y, In y l -> y = x \/ R x y.
Proof.
  intros Hs Hx y Hy. destruct l as [|x' l]; [discriminate|].
  injection Hx as ->. apply StronglySorted_inv in Hs. destruct Hs as [_ Hall].
  destruct Hy as [->|Hy]; [left; reflexivity|right].
  rewrite List.Forall_forall in Hall. apply Hall, Hy.
Qed.

Lemma sorted_last {A} (R : A -> A -> Prop) (l : list A) (x : A) :
  StronglySorted R l -> l !! (length l - 1)%nat = Some x ->
  forall y, In y l -> y = x \/ R y x.
Proof.
  rewrite Nat.sub_1_r, <- last_lookup.
  induction 1 as [|z l Hs IH Hall]; intros Hx y Hy; [destruct Hy|].
  destruct l as [|z' l].
  - simpl in Hx. injection Hx as ->. destruct Hy as [->|[]]. left. reflexivity.
  - rewrite last_cons_cons in Hx.
    destruct Hy as [->|Hy].
    + right. rewrite List.Forall_forall in Hall. apply Hall.
      apply list_elem_of_In, last_Some_elem_of, Hx.
    + apply IH; assumption.
Qed.

(** ** Autoplay: following suit *)

Lemma sortCards_sorted (cards : list Card) :
  StronglySorted (fun a b => getCardValue a <= getCardValue b) (sortCards cards).
Proof.
  unfold sortCards.
  eapply StronglySorted_weaken;
    [|apply (sortBy_sorted (fun a b => getCardValue a - getCardValue b))].
  - unfold before. intros a b H. lia.
  - intros; lia.
  - intros; lia.
Qed.

Lemma winningCardInTrick_spec (trick : list TrickCard) (lead : Suit) :
  match winningCardInTrick trick lead with
  | Some w =>
      (exists tc, In tc trick /\ suit (card tc) = lead /\ card tc = w) /\
      forall tc, In tc trick -> suit (card tc) = lead ->
                 getCardValue (card tc) <= getCardValue w
  | None => forall tc, In tc trick -> suit (card tc) <> lead
  end.
Proof.
  unfold winningCardInTrick.
  set (cmp := fun a b : TrickCard => getCardValue (card b) - getCardValue (card a)).
  set (f := fun tc : TrickCard => suit_eqb (suit (card tc)) lead).
  assert (Hf : forall tc, In tc (sortBy cmp (List.filter f trick)) <->
                          In tc trick /\ suit (card tc) = lead).
  { intros tc. rewrite sortBy_In, filter_In. unfold f, suit_eqb.
    rewrite bool_decide_eq_true. reflexivity. }
  assert (Hs : StronglySorted (before cmp) (sortBy cmp (List.filter f trick))).
  { apply sortBy_sorted; unfold cmp; intros; lia. }
  destruct (sortBy cmp (List.filter f trick) !! 0%nat) as [tc0|] eqn:E0; simpl.
  - split.
    + exists tc0. pose proof (lookup_In _ _ _ E0) as Hin. apply Hf in Hin. tauto.
    + intros tc Hin Hl.
      destruct (sorted_first _ _ _ Hs E0 tc) as [->|Hb]; [apply Hf; auto|lia|].
      unfold before, cmp in Hb. lia.
  - intros tc Hin Hl. destruct (sortBy cmp (List.filter f trick)) as [|x l] eqn:El;
      [|discriminate].
    apply (proj2 (Hf tc)); auto.
Qed.

Lemma beats_winningCardInTrick (trick : list TrickCard) (lead : Suit) (c : Card) :
  beats trick lead c <->
  match winningCardInTrick trick lead with
  | Some w => getCardValue w < getCardValue c
  | None => True
  end.
Proof.
  pose proof (winningCardInTrick_spec trick lead) as H. unfold beats.
  destruct (winningCardInTrick trick lead) as [w|].
  - destruct H as ((tc0 & Hin & Hl & <-) & Hmax). split.
    + intros Hb. apply Hb; assumption.
    + intros Hw tc Ht Hs. specialize (Hmax tc Ht Hs). lia.
  - split; [trivial|]. intros _ tc Ht Hs. exfalso. exact (H tc Ht Hs).
Qed.

Lemma followSuitChoice_spec (followSuitCards : list Card) (trick : list TrickCard)
    (lead : Suit) :
  StronglySorted (fun a b => getCardValue a <= getCardValue b) followSuitCards ->
  followSuitCards <> [] ->
  exists c,
    followSuitChoice followSuitCards trick lead = Some c /\
    In c followSuitCards /\
    ((exists b, In b followSuitCards /\ beats trick lead b) ->
     beats trick lead c /\
     forall b, In b followSuitCards -> getCardValue b <= getCardValue c) /\
    (~ (exists b, In b followSuitCards /\ beats trick lead b) ->
     forall b, In b followSuitCards -> getCardValue c <= getCardValue b).
Proof.
  intros Hs Hne. unfold followSuitChoice.
  set (W := match winningCardInTrick trick lead with
            | Some w => List.filter (fun c => getCardValue w <? getCardValue c) followSuitCards
            | None => followSuitCards
            end).
  assert (HW : forall b, In b W <-> In b followSuitCards /\ beats trick lead b).
  { intros b. rewrite beats_winningCardInTrick. unfold W.
    destruct (winningCardInTrick trick lead) as [w|].
    - rewrite filter_In, Z.ltb_lt. reflexivity.
    - tauto. }
  assert (HWs : StronglySorted (fun a b => getCardValue a <= getCardValue b) W).
  { unfold W. destruct (winningCardInTrick trick lead); [|exact Hs].
    apply StronglySorted_filter, Hs. }
  destruct (0 <? length W)%nat eqn:EW.
  - apply Nat.ltb_lt in EW.
    destruct (lookup_lt_is_Some_2 W (length W - 1)%nat) as [c Hc]; [lia|].
    exists c. split; [exact Hc|].
    pose proof (lookup_In _ _ _ Hc) as HcW. apply HW in HcW. destruct HcW as [HcF Hcb].
    split; [exact HcF|]. split.
    + intros _. split; [exact Hcb|]. intros b Hb.
      destruct (Z_lt_le_dec (getCardValue c) (getCardValue b)) as [Hlt|Hle]; [|exact Hle].
      assert (HbW : In b W).
      { apply HW. split; [exact Hb|]. intros tc Ht Hl. specialize (Hcb tc Ht Hl). lia. }
      destruct (sorted_last _ _ _ HWs Hc b HbW) as [->|Hle]; lia.
    + intros Hno. exfalso. apply Hno. exists c. auto.
  - apply Nat.ltb_ge in EW.
    destruct followSuitCards as [|c rest] eqn:EF; [congruence|].
    exists c. split; [reflexivity|]. split; [left; reflexivity|]. split.
    + intros (b & Hb & Hbb). exfalso.
      assert (HbW : In b W) by (apply HW; auto).
      destruct W; [destruct HbW|simpl in EW; lia].
    + intros _ b Hb.
      destruct (sorted_first _ (c :: rest) c Hs eq_refl b Hb) as [->|Hle]; lia.
Qed.

(** C2, as stated, fails: with the 2 of hearts led and the 3 and the king
    of hearts in hand, both beating it, the heuristic plays the king and not
    the 3, the lowest beating card. *)
Lemma autoPlay_lowest_beating_counterexample :
  autoPlayCard zeroDraws cheapWin "B" = Some (mkCard hearts RK) /\
  findPlayer "B" (players cheapWin) =
    Some (mkPlayer "B" "sockB" "Bob" None online
            [mkCard hearts R3; mkCard hearts RK; mkCard clubs R5] 0 1001) /\
  suit (mkCard hearts R3) = hearts /\
  beats (currentTrick cheapWin) hearts (mkCard hearts R3) /\
  getCardValue (mkCard hearts R3) < getCardValue (mkCard hearts RK).
Proof.
  repeat split.
  intros tc [<-|[]] _. reflexivity.
Qed.

(** C2, amended. For a state with a lead suit and the acting player [p]
    (the current player, as [find] returns it) holding at least one card of
    the lead suit, the heuristic selects a card of the lead suit from
    [p]'s hand.  If some lead-suit card of the hand beats every lead-suit
    card of the trick, the selected card beats them too and is the
    highest-valued lead-suit card of the hand (the highest beating card,
    not the lowest); otherwise it is the lowest-valued lead-suit card of
    the hand. *)
Theorem autoPlay_follows_suit (rnd : RandomSource) (s : GameState)
    (playerId : string) (p : Player) (lead : Suit) :
  leadSuit s = Some lead ->
  currentPlayerId s = playerId ->
  firstWithId playerId (players s) p ->
  (exists c0, In c0 (hand p) /\ suit c0 = lead) ->
  exists c,
    autoPlayCard rnd s playerId = Some c /\
    In c (hand p) /\
    suit c = lead /\
    ((exists b, In b (hand p) /\ suit b = lead /\ beats (currentTrick s) lead b) ->
     beats (currentTrick s) lead c /\
     forall b, In b (hand p) -> suit b = lead -> getCardValue b <= getCardValue c) /\
    (~ (exists b, In b (hand p) /\ suit b = lead /\ beats (currentTrick s) lead b) ->
     forall b, In b (hand p) -> suit b = lead -> getCardValue c <= getCardValue b).
Proof.
  intros Hlead Hcur Hp (c0 & Hc0 & Hs0).
  set (F := sortCards (List.filter (fun c => suit_eqb (suit c) lead) (hand p))).
  assert (HF : forall b, In b F <-> In b (hand p) /\ suit b = lead).
  { intros b. unfold F, sortCards, suit_eqb.
    rewrite sortBy_In, filter_In, bool_decide_eq_true. reflexivity. }
  assert (HFne : F <> []).
  { intros E. assert (Hin : In c0 F) by (apply HF; auto). rewrite E in Hin. destruct Hin. }
  destruct (followSuitChoice_spec F (currentTrick s) lead (sortCards_sorted _) HFne)
    as (c & Hc & HcF & Hwin & Hlose).
  exists c. apply HF in HcF as HcH. destruct HcH as [HcH Hcs].
  split.
  - unfold autoPlayCard. apply String.eqb_eq in Hcur. rewrite Hcur. simpl.
    apply findPlayer_Some in Hp. rewrite Hp, Hlead.
    destruct (hand p) as [|first rest] eqn:Eh; [destruct Hc0|].
    fold F. destruct (0 <? length F)%nat eqn:EF; [exact Hc|].
    apply Nat.ltb_ge in EF. destruct F; [congruence|simpl in EF; lia].
  - split; [exact HcH|]. split; [exact Hcs|]. split.
    + intros (b & Hb & Hbs & Hbb).
      destruct Hwin as [Hcb Hmax]; [exists b; split; [apply HF; auto|exact Hbb]|].
      split; [exact Hcb|]. intros b' Hb' Hbs'. apply Hmax, HF. auto.
    + intros Hno b Hb Hbs. apply Hlose; [|apply HF; auto].
      intros (b' & Hb' & Hbb'). apply Hno. exists b'. apply HF in Hb'. tauto.
Qed.

Lemma autoPlay_follows_suit_witness :
  exists c,
    autoPlayCard zeroDraws cheapWin "B" = Some c /\
    suit c = hearts /\
    beats (currentTrick cheapWin) hearts c /\
    getCardValue (mkCard hearts R3) <= getCardValue c.
Proof.
  destruct (autoPlay_follows_suit zeroDraws cheapWin "B"
              (mkPlayer "B" "sockB" "Bob" None online
                 [mkCard hearts R3; mkCard hearts RK; mkCard clubs R5] 0 1001)
              hearts)
    as (c & Hc & _ & Hs & Hwin & _).
  - reflexivity.
  - reflexivity.
  - exists [playerA], []. split; [reflexivity|]. split; [reflexivity|].
    intros q [<-|[]]. simpl. discriminate.
  - exists (mkCard hearts R3). simpl. auto.
  - destruct Hwin as [Hb Hmax].
    + exists (mkCard hearts RK). simpl. split; [auto|]. split; [reflexivity|].
      intros tc [<-|[]] _. reflexivity.
    + exists c. split; [exact Hc|]. split; [exact Hs|]. split; [exact Hb|].
      apply Hmax; simpl; auto.
Defined.

(** ** The deck: [shuffleDeck] and [createDeck] *)

Lemma insert_perm (l : list Card) (i : nat) (x y : Card) :
  l !! i = Some x -> Permutation (y :: l) (x :: <[i:=y]> l).
Proof.
  revert i. induction l as [|z l IH]; intros [|i] H; simpl in *; try discriminate.
  - injection H as ->. apply perm_swap.
  - rewrite perm_swap. rewrite (IH i H). rewrite perm_swap. reflexivity.
Qed.

Lemma swap_perm (l : list Card) (i j : nat) : Permutation (swap l i j) l.
Proof.
  unfold swap.
  destruct (l !! i) as [x|] eqn:Ei; [|reflexivity].
  destruct (l !! j) as [y|] eqn:Ej; [|reflexivity].
  assert (Hj : <[i:=y]> l !! j = Some y).
  { destruct (decide (i = j)) as [->|Hne].
    - apply list_lookup_insert_eq. eapply lookup_lt_Some, Ej.
    - rewrite list_lookup_insert_ne by exact Hne. exact Ej. }
  apply (Permutation_cons_inv (a := y)).
  rewrite <- (insert_perm _ j y x Hj).
  symmetry. apply insert_perm, Ei.
Qed.

Lemma shuffleLoop_perm (rnd : RandomSource) (i k : nat) (l : list Card) :
  Permutation (shuffleLoop rnd k i l) l.
Proof.
  revert k l. induction i as [|i IH]; intros k l; simpl; [reflexivity|].
  rewrite IH. apply swap_perm.
Qed.

Lemma shuffleDeck_perm (rnd : RandomSource) (l : list Card) :
  Permutation (shuffleDeck rnd l) l.
Proof. apply shuffleLoop_perm. Qed.

(** The index the loop draws is within the part of the deck not yet
    fixed: [0 <= j <= i]. *)
Lemma randomIndex_range (draw i : nat) : (randomIndex draw (i + 1) <= i)%nat.
Proof.
  unfold randomIndex.
  pose proof (Nat.mod_upper_bound draw (i + 1)). lia.
Qed.

Lemma orderedDeck_count (c : Card) : count_occ Card_eq_dec orderedDeck c = 1%nat.
Proof. destruct c as [[] []]; vm_compute; reflexivity. Qed.

Lemma createDeck_perm (rnd : RandomSource) : Permutation (createDeck rnd) orderedDeck.
Proof. unfold createDeck. exact (shuffleDeck_perm rnd orderedDeck). Qed.

Lemma createDeck_count (rnd : RandomSource) (c : Card) :
  count_occ Card_eq_dec (createDeck rnd) c = 1%nat.
Proof.
  rewrite (proj1 (Permutation_count_occ Card_eq_dec _ _) (createDeck_perm rnd)).
  apply orderedDeck_count.
Qed.

Lemma createDeck_NoDup (rnd : RandomSource) : List.NoDup (createDeck rnd).
Proof.
  apply (NoDup_count_occ Card_eq_dec). intros c. rewrite createDeck_count. lia.
Qed.

Lemma createDeck_length (rnd : RandomSource) : length (createDeck rnd) = 52%nat.
Proof. rewrite (Permutation_length (createDeck_perm rnd)). reflexivity. Qed.

(** C8. Whatever the random source draws, [createDeck] returns 52 cards in
    which every (suit, rank) pair occurs exactly once: the shuffle permutes
    the ordered deck, it adds, drops and duplicates nothing. *)
Theorem createDeck_full_deck (rnd : RandomSource) :
  length (createDeck rnd) = 52%nat /\
  (forall s r, count_occ Card_eq_dec (createDeck rnd) (mkCard s r) = 1%nat) /\
  Permutation (createDeck rnd) orderedDeck.
Proof.
  split; [apply createDeck_length|]. split; [|apply createDeck_perm].
  intros s r. apply createDeck_count.
Qed.

(** ** Dealing: [dealCards] *)

Lemma robin_S (deck : list Card) (n j m : nat) :
  robin deck n j (S m) =
  robin deck n j m ++ (if (m mod n =? j)%nat then option_list (deck !! m) else []).
Proof.
  unfold robin. rewrite seq_S, flat_map_app. simpl. rewrite app_nil_r. reflexivity.
Qed.

Lemma dealLoop_S (deck : list Card) (n m : nat) (hands : list (list Card)) :
  dealLoop deck n (S m) hands =
  match deck !! m with
  | Some c => alter (fun h => h ++ [c]) (m mod n)%nat (dealLoop deck n m hands)
  | None => dealLoop deck n m hands
  end.
Proof. unfold dealLoop. rewrite seq_S, fold_left_app. reflexivity. Qed.

Lemma dealLoop_length (deck : list Card) (n m : nat) (hands : list (list Card)) :
  length (dealLoop deck n m hands) = length hands.
Proof.
  induction m as [|m IH]; [reflexivity|]. rewrite dealLoop_S.
  destruct (deck !! m); [rewrite length_alter|]; exact IH.
Qed.

Lemma dealLoop_lookup (deck : list Card) (n m j : nat) :
  (m <= length deck)%nat -> (j < n)%nat ->
  dealLoop deck n m (replicate n []) !! j = Some (robin deck n j m).
Proof.
  intros Hm Hj. induction m as [|m IH].
  - simpl. apply lookup_replicate_2, Hj.
  - rewrite dealLoop_S, robin_S.
    destruct (lookup_lt_is_Some_2 deck m) as [c Hc]; [lia|]. rewrite Hc. simpl.
    destruct (m mod n =? j)%nat eqn:E.
    + apply Nat.eqb_eq in E. rewrite E, list_lookup_alter_eq, IH by lia. reflexivity.
    + apply Nat.eqb_neq in E. rewrite list_lookup_alter_ne, IH by (auto; lia).
      rewrite app_nil_r. reflexivity.
Qed.

Lemma concat_alter_snoc (hands : list (list Card)) (k : nat) (c : Card) :
  (k < length hands)%nat ->
  Permutation (concat (alter (fun h => h ++ [c]) k hands)) (c :: concat hands).
Proof.
  revert k. induction hands as [|h hands IH]; intros k Hk; simpl in Hk; [lia|].
  destruct k as [|k]; simpl.
  - rewrite <- app_assoc. simpl. symmetry. apply Permutation_middle.
  - etransitivity; [apply Permutation_app_head, (IH k); lia|].
    symmetry. apply Permutation_middle.
Qed.

Lemma dealLoop_perm (deck : list Card) (n m : nat) :
  (0 < n)%nat -> (m <= length deck)%nat ->
  Permutation (concat (dealLoop deck n m (replicate n []))) (take m deck).
Proof.
  intros Hn Hm. induction m as [|m IH].
  - simpl. clear. induction n as [|n IH]; simpl; [reflexivity|exact IH].
  - rewrite dealLoop_S.
    destruct (lookup_lt_is_Some_2 deck m) as [c Hc]; [lia|]. rewrite Hc.
    rewrite (take_S_r _ _ _ Hc), concat_alter_snoc.
    + rewrite IH by lia. apply Permutation_cons_append.
    + rewrite dealLoop_length, length_replicate. apply Nat.mod_upper_bound. lia.
Qed.

Lemma concat_sorted_perm (cmp : Card -> Card -> Z) (hands : list (list Card)) :
  Permutation (concat (map (sortBy cmp) hands)) (concat hands).
Proof.
  induction hands as [|h hands IH]; simpl; [reflexivity|].
  rewrite sortBy_perm, IH. reflexivity.
Qed.

Lemma In_concat_lookup (hands : list (list Card)) (j : nat) (h : list Card) (c : Card) :
  hands !! j = Some h -> In c h -> In c (concat hands).
Proof.
  intros Hh Hc. apply in_concat. exists h. split; [eapply lookup_In, Hh|exact Hc].
Qed.

Lemma NoDup_concat_disjoint (hands : list (list Card)) (i j : nat)
    (h1 h2 : list Card) (c : Card) :
  List.NoDup (concat hands) -> i <> j ->
  hands !! i = Some h1 -> hands !! j = Some h2 ->
  In c h1 -> ~ In c h2.
Proof.
  revert i j. induction hands as [|h hands IH]; intros i j Hnd Hij Hi Hj Hc1 Hc2;
    [destruct i; discriminate|].
  simpl in Hnd. apply NoDup_ListNoDup, NoDup_app in Hnd.
  destruct Hnd as (_ & Hdis & Hnd). apply NoDup_ListNoDup in Hnd.
  destruct i as [|i], j as [|j]; simpl in Hi, Hj.
  - congruence.
  - injection Hi as ->. apply (Hdis c); apply list_elem_of_In; [exact Hc1|].
    eapply In_concat_lookup; eassumption.
  - injection Hj as ->. apply (Hdis c); apply list_elem_of_In; [exact Hc2|].
    eapply In_concat_lookup; eassumption.
  - apply (IH i j); auto.
Qed.

Lemma dealCards_lookup (deck : list Card) (n j : nat) :
  (j < n)%nat ->
  dealCards deck n !! j =
    Some (sortBy handOrder (robin deck n j (length deck / n * n))).
Proof.
  intros Hj. unfold dealCards.
  change (map (sortBy handOrder)) with (fmap (M := list) (sortBy handOrder)).
  rewrite list_lookup_fmap, dealLoop_lookup; [reflexivity| |exact Hj].
  apply Nat.Div0.mul_div_le || (rewrite Nat.mul_comm; apply Nat.Div0.mul_div_le).
Qed.

Lemma dealCards_perm (deck : list Card) (n : nat) :
  (0 < n)%nat ->
  Permutation (concat (dealCards deck n)) (take (length deck / n * n) deck).
Proof.
  intros Hn. unfold dealCards. rewrite concat_sorted_perm.
  apply dealLoop_perm; [exact Hn|].
  rewrite Nat.mul_comm. apply Nat.Div0.mul_div_le.
Qed.

Lemma dealCards_length (deck : list Card) (n : nat) : length (dealCards deck n) = n.
Proof.
  unfold dealCards. rewrite length_map, dealLoop_length, length_replicate. reflexivity.
Qed.

Lemma dealCards_NoDup (deck : list Card) (n : nat) :
  (0 < n)%nat -> List.NoDup deck -> List.NoDup (concat (dealCards deck n)).
Proof.
  intros Hn Hnd.
  eapply Permutation_NoDup; [symmetry; apply dealCards_perm, Hn|].
  rewrite <- (take_drop (length deck / n * n) deck) in Hnd.
  apply NoDup_ListNoDup, NoDup_app in Hnd. apply NoDup_ListNoDup. tauto.
Qed.

(** C6. For a deck of pairwise-distinct cards and [n] of 2, 3 or 4,
    [dealCards deck n] returns [n] hands; hand [j] holds the cards
    [deck[i]], [i < floor(length / n) * n], [i mod n = j] (round-robin);
    together the hands hold exactly the first [floor(length / n) * n] cards
    of the deck, each once: no card is in two hands or twice in a hand, and
    the remaining cards of the deck are in no hand. *)
Theorem dealCards_round_robin (deck : list Card) (n : nat) :
  List.NoDup deck ->
  (n = 2 \/ n = 3 \/ n = 4)%nat ->
  length (dealCards deck n) = n /\
  (forall j, (j < n)%nat ->
     exists h, dealCards deck n !! j = Some h /\
               Permutation h (robin deck n j (length deck / n * n))) /\
  Permutation (concat (dealCards deck n)) (take (length deck / n * n) deck) /\
  List.NoDup (concat (dealCards deck n)) /\
  length (concat (dealCards deck n)) = (length deck / n * n)%nat /\
  (forall i j h1 h2 c,
     i <> j -> dealCards deck n !! i = Some h1 -> dealCards deck n !! j = Some h2 ->
     In c h1 -> ~ In c h2) /\
  (forall c h,
     In c (drop (length deck / n * n) deck) -> In h (dealCards deck n) -> ~ In c h).
Proof.
  intros Hnd Hn. assert (Hpos : (0 < n)%nat) by lia.
  pose proof (dealCards_perm deck n Hpos) as Hperm.
  pose proof (dealCards_NoDup deck n Hpos Hnd) as Hnd'.
  split; [apply dealCards_length|]. split; [|split; [exact Hperm|split; [exact Hnd'|split; [|split]]]].
  - intros j Hj. eexists. split; [apply dealCards_lookup, Hj|]. apply sortBy_perm.
  - rewrite (Permutation_length Hperm), length_take.
    pose proof (Nat.Div0.mul_div_le (length deck) n). lia.
  - intros i j h1 h2 c. apply NoDup_concat_disjoint, Hnd'.
  - intros c h Hc Hh Hch.
    assert (Hin : In c (take (length deck / n * n) deck)).
    { eapply Permutation_in; [exact Hperm|]. apply in_concat. eauto. }
    rewrite <- (take_drop (length deck / n * n) deck) in Hnd.
    apply NoDup_ListNoDup, NoDup_app in Hnd. destruct Hnd as (_ & Hdis & _).
    apply (Hdis c); apply list_elem_of_In; assumption.
Qed.

Lemma dealCards_round_robin_witness :
  length (dealCards fiveCards 2) = 2%nat /\
  Permutation (concat (dealCards fiveCards 2)) (take (length fiveCards / 2 * 2) fiveCards) /\
  List.NoDup (concat (dealCards fiveCards 2)) /\
  length (concat (dealCards fiveCards 2)) = (length fiveCards / 2 * 2)%nat.
Proof.
  destruct (dealCards_round_robin fiveCards 2) as (H1 & _ & H2 & H3 & H4 & _).
  - apply (NoDup_count_occ Card_eq_dec). intros [[] []]; vm_compute; lia.
  - left. reflexivity.
  - auto.
Defined.

Example dealCards_fiveCards :
  dealCards fiveCards 2 =
    [ [mkCard clubs R2; mkCard spades R7]; [mkCard hearts RA; mkCard hearts R3] ].
Proof. reflexivity. Qed.

(** ** Session setup: [setupNewGame] *)






Section Seating.
Context (hands : list (list Card)).

Lemma seatPlayers_lookup (playerList : list User) (i : nat) (p : Player) :
  seatPlayers hands playerList !! i = Some p ->
  exists u, playerList !! i = Some u /\ p_id p = u_id u /\
            p_isHost p = u_isHost u /\ hand p = default [] (hands !! i) /\
            tricksWon p = 0 /\ agoraUid p = 1000 + Z.of_nat i.
Proof.
  unfold seatPlayers. rewrite list_lookup_imap.
  destruct (playerList !! i) as [u|]; simpl; [|discriminate].
  intros [= <-]. exists u. simpl. auto 10.
Qed.

Lemma seatPlayers_length (playerList : list User) :
  length (seatPlayers hands playerList) = length playerList.
Proof. apply length_imap. Qed.


End Seating.



Lemma holdsTwoOfClubs_In (p : Player) :
  holdsTwoOfClubs p = true <-> In twoOfClubs (hand p).
Proof.
  unfold holdsTwoOfClubs. rewrite existsb_exists. split.
  - intros (c & Hc & E). apply andb_true_iff in E. destruct E as [E1 E2].
    unfold suit_eqb, rank_eqb in *. apply bool_decide_eq_true in E1, E2.
    destruct c as [cs cr]. simpl in *. subst. exact Hc.
  - intros H. exists twoOfClubs. split; [exact H|reflexivity].
Qed.






(** The fallback tests the id and not the presence of a host: seated with
    the empty string as id, a host gives way to the first participant when
    nobody holds the two of clubs. *)
Example setupNewGame_empty_host_id :
  exists s,
    setupNewGame 3 clubsLast threeUsers "game-R" MP3 = Some s /\
    existsb holdsTwoOfClubs (players s) = false /\
    find (fun u => truthy (u_isHost u)) threeUsers = Some namelessHost /\
    u_id namelessHost = "" /\
    currentPlayerId s = "p1" /\
    turnOrder s = ["p1"; ""; "p3"].
Proof.
  eexists. split; [vm_compute; reflexivity|]. vm_compute. auto.
Qed.

Example setupNewGame_twoUsers_start :
  currentPlayerId <$> setupNewGame 2 zeroDraws twoUsers "game-R" MP2 = Some "p2".
Proof. vm_compute. reflexivity. Qed.

(** ** The lead suit and the trick *)

Lemma setupNewGame_fresh (fuel : nat) (rnd : RandomSource) (playerList : list User)
    (gameId : string) (maxPlayers0 : MaxPlayers) (s : GameState) :
  setupNewGame fuel rnd playerList gameId maxPlayers0 = Some s ->
  currentTrick s = [] /\ leadSuit s = None.
Proof.
  unfold setupNewGame.
  destruct (startingPlayer _); [|discriminate].
  destruct (rotateTo _ _ _); [|discriminate].
  destruct (hostOrFirstUser _); [|discriminate].
  intros [= <-]. split; reflexivity.
Qed.

Lemma advanceToNextTurn_trick (s : GameState) (next : string) :
  currentTrick (advanceToNextTurn s next) = currentTrick s /\
  leadSuit (advanceToNextTurn s next) = leadSuit s.
Proof. unfold advanceToNextTurn. destruct (g_status s); split; reflexivity. Qed.

(** A play appends one trick card and sets the lead suit if there was
    none. *)
Lemma handlePlayCardLogic_trick (s : GameState) (playerId : string) (c : Card)
    (s' : GameState) :
  handlePlayCardLogic s playerId c = Some s' ->
  currentTrick s' = currentTrick s ++ [mkTrickCard playerId c] /\
  leadSuit s' = Some (default (suit c) (leadSuit s)).
Proof.
  unfold handlePlayCardLogic.
  destruct (findPlayer playerId (players s)); [|discriminate].
  assert (Hl : match leadSuit s with Some l => Some l | None => Some (suit c) end =
               Some (default (suit c) (leadSuit s))) by (destruct (leadSuit s); reflexivity).
  destruct (length (currentTrick s ++ [mkTrickCard playerId c]) =?
            length (takeFromHand playerId c (players s)))%nat.
  - intros [= <-]. simpl. auto.
  - destruct (getNextPlayerId _) as [next|]; [|discriminate].
    simpl. intros [= <-].
    destruct (advanceToNextTurn_trick
      (mkGameState (g_id s) (takeFromHand playerId c (players s)) (deck s)
         (currentTrick s ++ [mkTrickCard playerId c])
         match leadSuit s with Some l => Some l | None => Some (suit c) end
         (currentPlayerId s) (turnOrder s) (round s) (trickNumber s)
         (g_status s) (hostId s) (maxPlayers s)) next) as [-> ->].
    simpl. auto.
Qed.

(** Resolving a trick clears the trick and the lead suit together. *)
Lemma processTrickWin_trick (s : GameState) (winnerId : string) (s' : GameState) :
  processTrickWin s winnerId = Some s' -> currentTrick s' = [] /\ leadSuit s' = None.
Proof.
  unfold processTrickWin.
  destruct (creditWinner winnerId (players s) !! 0%nat); [|discriminate].
  intros [= <-]. split; reflexivity.
Qed.

Lemma resolveTrick_trick (s s' : GameState) :
  resolveTrick s = Some s' -> currentTrick s' = [] /\ leadSuit s' = None.
Proof.
  unfold resolveTrick.
  destruct (leadSuit s) as [lead|]; [|discriminate].
  destruct (determineTrickWinner (currentTrick s) lead) as [w|]; [|discriminate].
  destruct (processTrickWin s w) as [next|] eqn:E; [|discriminate].
  intros [= <-]. destruct (advanceToNextTurn_trick next w) as [-> ->].
  eapply processTrickWin_trick, E.
Qed.

Lemma leadSuitInvariant_after_play (s : GameState) (playerId : string) (c : Card)
    (s' : GameState) :
  handlePlayCardLogic s playerId c = Some s' -> leadSuitInvariant s'.
Proof.
  intros H. destruct (handlePlayCardLogic_trick _ _ _ _ H) as [Ht Hl].
  unfold leadSuitInvariant. rewrite Ht, Hl. split; [discriminate|].
  intros E. destruct (currentTrick s); discriminate.
Qed.

Lemma leadSuitInvariant_cleared (s : GameState) :
  currentTrick s = [] /\ leadSuit s = None -> leadSuitInvariant s.
Proof. intros [Ht Hl]. unfold leadSuitInvariant. rewrite Ht, Hl. tauto. Qed.

Lemma step_leadSuitInvariant (s s' : GameState) :
  leadSuitInvariant s -> step s s' -> leadSuitInvariant s'.
Proof.
  intros Hinv Hstep. destruct Hstep as
    [s pid c s' _ _ Hplay | rnd s pid c s' _ Hplay | s s' Hres | s next _ | s userId].
  - eapply leadSuitInvariant_after_play, Hplay.
  - eapply leadSuitInvariant_after_play, Hplay.
  - eapply leadSuitInvariant_cleared, resolveTrick_trick, Hres.
  - unfold leadSuitInvariant in *.
    destruct (advanceToNextTurn_trick s next) as [-> ->]. exact Hinv.
  - exact Hinv.
Qed.

(** C9. [leadSuit] is null exactly when [currentTrick] is empty in every
    reachable state: in the state [setupNewGame] returns (the base case of
    [reachable]) and after every engine step.  From such a state, a play
    appends one trick card and sets the lead suit to the card's suit when
    it was null (and keeps it otherwise), [processTrickWin] clears the trick
    and the lead suit together, and both re-establish the invariant. *)
Theorem leadSuit_null_iff_trick_empty (s : GameState) :
  reachable s ->
  leadSuitInvariant s /\
  (forall s', step s s' -> leadSuitInvariant s') /\
  (forall playerId c s',
     handlePlayCardLogic s playerId c = Some s' ->
     currentTrick s' = currentTrick s ++ [mkTrickCard playerId c] /\
     (leadSuit s = None -> leadSuit s' = Some (suit c)) /\
     (forall lead, leadSuit s = Some lead -> leadSuit s' = Some lead) /\
     leadSuitInvariant s') /\
  (forall winnerId s',
     processTrickWin s winnerId = Some s' ->
     currentTrick s' = [] /\ leadSuit s' = None /\ leadSuitInvariant s').
Proof.
  intros Hreach.
  assert (Hinv : leadSuitInvariant s).
  { induction Hreach as [fuel rnd playerList gameId mp s Hsetup | s s' _ IH Hstep].
    - eapply leadSuitInvariant_cleared, setupNewGame_fresh, Hsetup.
    - eapply step_leadSuitInvariant; eassumption. }
  split; [exact Hinv|]. split; [|split].
  - intros s' Hstep. eapply step_leadSuitInvariant; eassumption.
  - intros playerId c s' Hplay.
    destruct (handlePlayCardLogic_trick _ _ _ _ Hplay) as [Ht Hl].
    split; [exact Ht|]. split; [|split].
    + intros E. rewrite Hl, E. reflexivity.
    + intros lead E. rewrite Hl, E. reflexivity.
    + eapply leadSuitInvariant_after_play, Hplay.
  - intros winnerId s' Hwin.
    pose proof (processTrickWin_trick _ _ _ Hwin) as Hc.
    destruct Hc as [Ht Hl]. split; [exact Ht|]. split; [exact Hl|].
    apply leadSuitInvariant_cleared. auto.
Qed.

Lemma leadSuit_null_iff_trick_empty_witness :
  exists s0 c s1,
    setupNewGame 2 zeroDraws twoUsers "game-R" MP2 = Some s0 /\
    autoPlayCard zeroDraws s0 "p2" = Some c /\
    handlePlayCardLogic s0 "p2" c = Some s1 /\
    leadSuitInvariant s0 /\ leadSuitInvariant s1 /\
    leadSuit s1 = Some (suit c).
Proof.
  eexists _, _, _.
  split; [vm_compute; reflexivity|].
  split; [vm_compute; reflexivity|].
  split; [vm_compute; reflexivity|].
  match goal with
  | |- leadSuitInvariant ?s0 /\ _ =>
      destruct (leadSuit_null_iff_trick_empty s0) as (H0 & Hstep & Hplay & _);
        [eapply (reachable_init 2 zeroDraws twoUsers "game-R" MP2);
         vm_compute; reflexivity|]
  end.
  split; [exact H0|]. split.
  - apply Hstep.
    eapply (step_autoplay zeroDraws _ "p2");
      [vm_compute; reflexivity | vm_compute; reflexivity].
  - reflexivity.
Defined.

(** * Further properties of the engine *)

(** ** [shuffleDeck] on any deck *)

Lemma swap_lookup_other (l : list Card) (i j m : nat) :
  m <> i -> m <> j -> swap l i j !! m = l !! m.
Proof.
  intros Hi Hj. unfold swap.
  destruct (l !! i) as [x|]; [|reflexivity].
  destruct (l !! j) as [y|]; [|reflexivity].
  rewrite !list_lookup_insert_ne by auto. reflexivity.
Qed.

Lemma swap_lookup_i (l : list Card) (i j : nat) :
  (j <= i)%nat -> (i < length l)%nat -> swap l i j !! i = l !! j.
Proof.
  intros Hj Hi. unfold swap.
  destruct (lookup_lt_is_Some_2 l i Hi) as [x Hx].
  destruct (lookup_lt_is_Some_2 l j) as [y Hy]; [lia|].
  rewrite Hx, Hy.
  destruct (decide (i = j)) as [->|Hne].
  - rewrite list_lookup_insert_eq by (rewrite length_insert; exact Hi). congruence.
  - rewrite list_lookup_insert_ne by auto.
    rewrite list_lookup_insert_eq by exact Hi. reflexivity.
Qed.

(** The loop at index [i] only writes positions [0 .. i]. *)
Lemma shuffleLoop_above (rnd : RandomSource) (i k m : nat) (l : list Card) :
  (i < m)%nat -> shuffleLoop rnd k i l !! m = l !! m.
Proof.
  revert k l. induction i as [|i IH]; intros k l Hm; simpl; [reflexivity|].
  rewrite IH by lia. apply swap_lookup_other; [lia|].
  pose proof (randomIndex_range (rnd k) (S i)). lia.
Qed.

(** X1. For every deck and every random source, [shuffleDeck] returns a
    permutation of the deck of the same length; a deck of at most one card
    comes back as it is; and the first draw alone decides the last position:
    it holds the card that was at the drawn index. *)
Theorem shuffleDeck_fisher_yates (rnd : RandomSource) (l : list Card) :
  Permutation (shuffleDeck rnd l) l /\
  length (shuffleDeck rnd l) = length l /\
  ((length l <= 1)%nat -> shuffleDeck rnd l = l) /\
  shuffleDeck rnd l !! (length l - 1)%nat = l !! randomIndex (rnd 0%nat) (length l).
Proof.
  split; [apply shuffleDeck_perm|]. split; [apply Permutation_length, shuffleDeck_perm|].
  unfold shuffleDeck. split.
  - intros Hl. destruct l as [|c [|d l]]; simpl in *; [reflexivity|reflexivity|lia].
  - destruct (length l) as [|n] eqn:El.
    + destruct l; [reflexivity|discriminate].
    + replace (S n - 1)%nat with n by lia. destruct n as [|n].
      * unfold randomIndex. rewrite Nat.mod_1_r. reflexivity.
      * cbn [shuffleLoop]. rewrite shuffleLoop_above by lia.
        pose proof (randomIndex_range (rnd 0%nat) (S n)) as Hr.
        rewrite swap_lookup_i; [|exact Hr|lia].
        replace (S n + 1)%nat with (S (S n)) by lia. reflexivity.
Qed.

(** ** [sortCards] and the order of a dealt hand *)

(** X2. [sortCards] returns a permutation of its argument in ascending
    order of card value. *)
Theorem sortCards_ascending (cards : list Card) :
  Permutation (sortCards cards) cards /\
  StronglySorted (fun a b => getCardValue a <= getCardValue b) (sortCards cards) /\
  length (sortCards cards) = length cards.
Proof.
  split; [apply sortBy_perm|]. split; [apply sortCards_sorted|apply sortBy_length].
Qed.

Lemma suitIndex_inj (a b : Suit) : suitIndex a = suitIndex b -> a = b.
Proof. destruct a, b; simpl; intros H; try reflexivity; lia. Qed.

Lemma suitIndex_range (a : Suit) : 0 <= suitIndex a <= 3.
Proof. destruct a; simpl; lia. Qed.

Lemma handOrder_before (a b : Card) : handOrder a b <= 0 <-> handOrdered a b.
Proof.
  unfold handOrder, handOrdered.
  destruct (suitIndex (suit a) - suitIndex (suit b) =? 0) eqn:E; simpl.
  - apply Z.eqb_eq in E. assert (Hs : suit a = suit b) by (apply suitIndex_inj; lia).
    split; [intros H; right; split; [exact Hs|lia]|].
    intros [H|[_ H]]; lia.
  - apply Z.eqb_neq in E. split; [intros H; left; lia|].
    intros [H|[Hs _]]; [lia|]. rewrite Hs in E. lia.
Qed.

Lemma handOrder_sorted (h : list Card) : StronglySorted handOrdered (sortBy handOrder h).
Proof.
  eapply StronglySorted_weaken; [|apply (sortBy_sorted handOrder)].
  - intros a b H. apply handOrder_before, H.
  - intros a b H.
    destruct (Z_le_gt_dec (handOrder b a) 0) as [Hle|Hgt]; [exact Hle|exfalso].
    unfold handOrder in *.
    destruct (suitIndex (suit a) - suitIndex (suit b) =? 0) eqn:E1,
             (suitIndex (suit b) - suitIndex (suit a) =? 0) eqn:E2; simpl in *;
      try apply Z.eqb_eq in E1; try apply Z.eqb_eq in E2;
      try apply Z.eqb_neq in E1; try apply Z.eqb_neq in E2; lia.
  - intros a b c Hab Hbc. apply handOrder_before.
    apply handOrder_before in Hab, Hbc. unfold handOrdered in *.
    destruct Hab as [Hab|[Hab1 Hab2]], Hbc as [Hbc|[Hbc1 Hbc2]].
    + left. lia.
    + left. rewrite <- Hbc1. exact Hab.
    + left. rewrite Hab1. exact Hbc.
    + right. split; [congruence|lia].
Qed.

(** X3. Every hand [dealCards] returns is ordered by suit (hearts,
    diamonds, clubs, spades) and, within a suit, by descending value,
    whatever the deck and the number of players. *)
Theorem dealCards_hands_sorted (deck : list Card) (n : nat) :
  Forall (StronglySorted handOrdered) (dealCards deck n).
Proof.
  unfold dealCards. apply List.Forall_forall. intros h Hh.
  apply in_map_iff in Hh. destruct Hh as (h0 & <- & _). apply handOrder_sorted.
Qed.

(** ** Hand sizes *)

Lemma flat_map_pick {B} (g : nat -> list B) (j a m : nat) :
  flat_map (fun i => if (i =? j)%nat then g i else []) (seq a m) =
  if decide (a <= j < a + m)%nat then g j else [].
Proof.
  revert a. induction m as [|m IH]; intros a; cbn [seq flat_map].
  - case_decide; [lia|reflexivity].
  - rewrite IH. destruct (Nat.eqb_spec a j) as [->|Hne].
    + repeat case_decide; try lia. apply app_nil_r.
    + repeat case_decide; try lia; reflexivity.
Qed.

Lemma flat_map_ext_seq {B} (f g : nat -> list B) (a m : nat) :
  (forall i, (a <= i < a + m)%nat -> f i = g i) ->
  flat_map f (seq a m) = flat_map g (seq a m).
Proof.
  revert a. induction m as [|m IH]; intros a H; simpl; [reflexivity|].
  rewrite H by lia. f_equal. apply IH. intros i Hi. apply H. lia.
Qed.

(** One more round of dealing gives player [j] the card [deck[k*n + j]]. *)
Lemma robin_round (deck : list Card) (n j k : nat) :
  (j < n)%nat ->
  robin deck n j (k * n + n) =
  robin deck n j (k * n) ++ option_list (deck !! (k * n + j)%nat).
Proof.
  intros Hj. unfold robin. rewrite seq_app, flat_map_app. f_equal. simpl.
  rewrite (flat_map_ext_seq _
    (fun i => if (i =? k * n + j)%nat then option_list (deck !! i) else [])).
  - rewrite flat_map_pick. case_decide; [reflexivity|lia].
  - intros i Hi.
    assert (Hmod : (i mod n = i - k * n)%nat).
    { replace i with ((i - k * n) + k * n)%nat at 1 by lia.
      rewrite Nat.Div0.mod_add. apply Nat.mod_small. lia. }
    rewrite Hmod.
    destruct (i - k * n =? j)%nat eqn:E1, (i =? k * n + j)%nat eqn:E2; try reflexivity;
      try apply Nat.eqb_eq in E1; try apply Nat.eqb_neq in E1;
      try apply Nat.eqb_eq in E2; try apply Nat.eqb_neq in E2; lia.
Qed.

Lemma robin_length (deck : list Card) (n j k : nat) :
  (j < n)%nat -> (k * n <= length deck)%nat ->
  length (robin deck n j (k * n)) = k.
Proof.
  intros Hj. induction k as [|k IH]; intros Hk; [reflexivity|].
  replace (S k * n)%nat with (k * n + n)%nat in * by lia.
  rewrite robin_round, length_app, IH by (auto; lia).
  destruct (lookup_lt_is_Some_2 deck (k * n + j)) as [c Hc]; [lia|].
  rewrite Hc. simpl. lia.
Qed.

(** X4. [dealCards] gives every player the same number of cards,
    [floor(deck.length / n)]: with more players than cards every hand is
    empty, and with no player at all there is no hand. *)
Theorem dealCards_hand_sizes (deck : list Card) (n : nat) :
  Forall (fun h => length h = (length deck / n)%nat) (dealCards deck n) /\
  ((length deck < n)%nat -> dealCards deck n = replicate n []) /\
  dealCards deck 0 = [].
Proof.
  assert (Hall : Forall (fun h => length h = (length deck / n)%nat) (dealCards deck n)).
  { apply List.Forall_forall. intros h Hh.
    apply list_elem_of_In, list_elem_of_lookup in Hh. destruct Hh as [j Hj].
    pose proof (lookup_lt_Some _ _ _ Hj) as Hlt. rewrite dealCards_length in Hlt.
    rewrite dealCards_lookup in Hj by exact Hlt. injection Hj as <-.
    rewrite sortBy_length. apply robin_length; [exact Hlt|].
    rewrite Nat.mul_comm. apply Nat.Div0.mul_div_le. }
  split; [exact Hall|]. split; [|reflexivity].
  intros Hlt. rewrite Nat.div_small in Hall by exact Hlt.
  apply list_eq. intros i.
  destruct (decide (i < n)%nat) as [Hi|Hi].
  - rewrite lookup_replicate_2 by exact Hi.
    destruct (lookup_lt_is_Some_2 (dealCards deck n) i) as [h Hh];
      [rewrite dealCards_length; exact Hi|].
    rewrite Hh. f_equal.
    rewrite List.Forall_forall in Hall.
    specialize (Hall h (lookup_In _ _ _ Hh)). destruct h; [reflexivity|discriminate].
  - rewrite (proj1 (lookup_replicate_None _ _ _)) by lia.
    apply lookup_ge_None. rewrite dealCards_length. lia.
Qed.

(** ** [groupHandBySuit] *)

Lemma filter_suit_partition (h : list Card) :
  Permutation
    (List.filter (fun c => suit_eqb (suit c) hearts) h ++
     List.filter (fun c => suit_eqb (suit c) diamonds) h ++
     List.filter (fun c => suit_eqb (suit c) clubs) h ++
     List.filter (fun c => suit_eqb (suit c) spades) h) h.
Proof.
  induction h as [|c h IH]; simpl; [reflexivity|].
  destruct c as [[] r]; unfold suit_eqb; simpl.
  - constructor. exact IH.
  - rewrite <- Permutation_middle. constructor. exact IH.
  - rewrite app_assoc, <- Permutation_middle, <- app_assoc. constructor. exact IH.
  - rewrite !app_assoc, <- Permutation_middle, <- !app_assoc. constructor. exact IH.
Qed.

(** X5. [groupHandBySuit] has one entry per suit, in the order hearts,
    diamonds, clubs, spades; the entry of a suit holds exactly the cards of
    the hand of that suit, in hand order; and the groups together are the
    hand: no card is lost or duplicated. *)
Theorem groupHandBySuit_partition (h : list Card) :
  map fst (groupHandBySuit h) = allSuits /\
  (forall s cards, In (s, cards) (groupHandBySuit h) ->
     cards = List.filter (fun c => suit_eqb (suit c) s) h /\
     forall c, In c cards <-> In c h /\ suit c = s) /\
  Permutation (concat (map snd (groupHandBySuit h))) h.
Proof.
  split; [reflexivity|]. split.
  - intros s cards Hin. unfold groupHandBySuit in Hin.
    apply in_map_iff in Hin. destruct Hin as (s' & [= <- <-] & _).
    split; [reflexivity|]. intros c. rewrite filter_In. unfold suit_eqb.
    rewrite bool_decide_eq_true. reflexivity.
  - unfold groupHandBySuit. simpl. rewrite app_nil_r. apply filter_suit_partition.
Qed.

(** ** [determineTrickWinner]: off-suit cards and ties *)

Lemma trickLoop_filter (lead : Suit) (trick : list TrickCard)
    (acc : option TrickCard * Z) :
  fold_left (trickStep lead)
    (List.filter (fun tc => suit_eqb (suit (card tc)) lead) trick) acc =
  fold_left (trickStep lead) trick acc.
Proof.
  revert acc. induction trick as [|tc trick IH]; intros acc; simpl; [reflexivity|].
  destruct (suit_eqb (suit (card tc)) lead) eqn:E; simpl; rewrite IH.
  - reflexivity.
  - assert (Hskip : trickStep lead acc tc = acc)
      by (unfold trickStep; rewrite E; reflexivity).
    rewrite Hskip. reflexivity.
Qed.

(** X6. [determineTrickWinner] fails (the [TypeError] on [winningCard!])
    exactly when the trick holds no card of the lead suit, and the cards off
    the lead suit have no influence on its result: it is the result on the
    lead-suit cards alone. *)
Theorem determineTrickWinner_off_suit (trick : list TrickCard) (lead : Suit) :
  (determineTrickWinner trick lead = None <->
   forall tc, In tc trick -> suit (card tc) <> lead) /\
  determineTrickWinner
    (List.filter (fun tc => suit_eqb (suit (card tc)) lead) trick) lead =
  determineTrickWinner trick lead.
Proof.
  split.
  - pose proof (trickLoop_bestSoFar lead trick) as H.
    unfold determineTrickWinner, bestSoFar in *.
    destruct (fst (fold_left (trickStep lead) trick (None, -1))) as [w|]; simpl.
    + destruct H as (Hin & Hs & _). split; [discriminate|].
      intros Hno. exfalso. exact (Hno w Hin Hs).
    + destruct H as [_ H]. split; [intros _; exact H|reflexivity].
  - unfold determineTrickWinner. rewrite trickLoop_filter. reflexivity.
Qed.

(** What the loop has established about ties: the winner so far is
    strictly higher than every lead-suit card played before it. *)
Lemma trickLoop_first_highest (lead : Suit) (trick : list TrickCard) :
  match fst (fold_left (trickStep lead) trick (None, -1)) with
  | None => True
  | Some w =>
      snd (fold_left (trickStep lead) trick (None, -1)) = getCardValue (card w) /\
      exists pre post,
        trick = pre ++ w :: post /\
        (forall tc, In tc pre -> suit (card tc) = lead ->
                    getCardValue (card tc) < getCardValue (card w)) /\
        (forall tc, In tc post -> suit (card tc) = lead ->
                    getCardValue (card tc) <= getCardValue (card w))
  end.
Proof.
  induction trick as [|tc seen IH] using rev_ind; [exact I|].
  rewrite fold_left_app. simpl.
  pose proof (trickLoop_bestSoFar lead seen) as Hb. unfold bestSoFar in Hb.
  destruct (fold_left (trickStep lead) seen (None, -1)) as [[w|] hv]; simpl in *.
  - destruct IH as (Hv & pre & post & Hseen & Hpre & Hpost).
    destruct Hb as (_ & _ & _ & Hmax). subst hv.
    unfold trickStep. simpl.
    destruct (suit_eqb (suit (card tc)) lead) eqn:Es; simpl.
    + destruct (getCardValue (card w) <? getCardValue (card tc)) eqn:E; simpl.
      * apply Z.ltb_lt in E. split; [reflexivity|].
        exists seen, []. split; [reflexivity|]. split; [|intros ? []].
        intros t Ht Hl. specialize (Hmax t Ht Hl). lia.
      * apply Z.ltb_ge in E. split; [reflexivity|].
        exists pre, (post ++ [tc]). split; [rewrite Hseen, <- app_assoc; reflexivity|].
        split; [exact Hpre|]. intros t Ht Hl.
        apply in_app_or in Ht. destruct Ht as [Ht|[<-|[]]]; auto.
    + split; [reflexivity|].
      exists pre, (post ++ [tc]). split; [rewrite Hseen, <- app_assoc; reflexivity|].
      split; [exact Hpre|]. intros t Ht Hl.
      apply in_app_or in Ht. destruct Ht as [Ht|[<-|[]]]; auto.
      unfold suit_eqb in Es. apply bool_decide_eq_false in Es. contradiction.
  - destruct Hb as [Hv Hnone]. subst hv. unfold trickStep. simpl.
    destruct (suit_eqb (suit (card tc)) lead) eqn:Es; simpl; [|exact I].
    pose proof (getCardValue_pos (card tc)) as Hp.
    destruct (-1 <? getCardValue (card tc)) eqn:E; [|apply Z.ltb_ge in E; lia].
    simpl. split; [reflexivity|].
    exists seen, []. split; [reflexivity|]. split; [|intros ? []].
    intros t Ht Hl. exfalso. exact (Hnone t Ht Hl).
Qed.

(** X7. Among several lead-suit cards of the same highest value, the one
    played first wins: the winner's card is strictly higher than every
    lead-suit card played before it and at least as high as every one played
    after it. *)
Theorem determineTrickWinner_first_highest (trick : list TrickCard) (lead : Suit)
    (winnerId : string) :
  determineTrickWinner trick lead = Some winnerId ->
  exists pre w post,
    trick = pre ++ w :: post /\ playerId w = winnerId /\ suit (card w) = lead /\
    (forall tc, In tc pre -> suit (card tc) = lead ->
                getCardValue (card tc) < getCardValue (card w)) /\
    (forall tc, In tc post -> suit (card tc) = lead ->
                getCardValue (card tc) <= getCardValue (card w)).
Proof.
  intros Hw. pose proof (trickLoop_first_highest lead trick) as H.
  pose proof (trickLoop_bestSoFar lead trick) as Hb.
  unfold determineTrickWinner, bestSoFar in *.
  destruct (fst (fold_left (trickStep lead) trick (None, -1))) as [w|];
    [|discriminate].
  simpl in Hw. injection Hw as <-.
  destruct H as (_ & pre & post & Ht & Hpre & Hpost).
  destruct Hb as (_ & Hs & _).
  exists pre, w, post. auto.
Qed.

Lemma determineTrickWinner_first_highest_witness :
  exists pre w post,
    scenarioTrick = pre ++ w :: post /\ playerId w = "C" /\ suit (card w) = diamonds /\
    (forall tc, In tc pre -> suit (card tc) = diamonds ->
                getCardValue (card tc) < getCardValue (card w)) /\
    (forall tc, In tc post -> suit (card tc) = diamonds ->
                getCardValue (card tc) <= getCardValue (card w)).
Proof.
  apply (determineTrickWinner_first_highest scenarioTrick diamonds "C").
  reflexivity.
Defined.

(** ** [processTrickWin] without a winner among the players *)

Lemma creditWinner_absent (winnerId : string) (ps : list Player) :
  (forall q, In q ps -> p_id q <> winnerId) -> creditWinner winnerId ps = ps.
Proof.
  induction ps as [|p ps IH]; intros H; simpl; [reflexivity|].
  assert (Hp : p_id p <> winnerId) by (apply H; left; reflexivity).
  apply String.eqb_neq in Hp. rewrite Hp. f_equal. apply IH.
  intros q Hq. apply H. right. exact Hq.
Qed.

(** X8. When no player has the winner's id (the [if (winner)] guard),
    [processTrickWin] credits nobody: the players are unchanged, while the
    trick is still cleared, the trick number, a safe integer, still advances
    by one and the unknown id still becomes the current player.  On an empty
    player list it throws ([players[0].hand]). *)
Theorem processTrickWin_unknown_winner (s : GameState) (winnerId : string) :
  (forall q, In q (players s) -> p_id q <> winnerId) ->
  safeInteger (trickNumber s) ->
  (players s = [] -> processTrickWin s winnerId = None) /\
  (players s <> [] ->
   exists s',
     processTrickWin s winnerId = Some s' /\
     players s' = players s /\
     currentPlayerId s' = winnerId /\
     trickNumber s' = trickNumber s + 1 /\
     currentTrick s' = [] /\ leadSuit s' = None).
Proof.
  intros Hno Htn. unfold processTrickWin.
  rewrite (creditWinner_absent _ _ Hno), (numAdd_one_safe _ Htn).
  split.
  - intros ->. reflexivity.
  - intros Hne. destruct (players s) as [|p ps] eqn:E; [congruence|].
    simpl. eexists. split; [reflexivity|]. simpl. auto.
Qed.

Lemma processTrickWin_unknown_winner_witness :
  exists s',
    processTrickWin midTrick "Z" = Some s' /\
    players s' = players midTrick /\
    currentPlayerId s' = "Z" /\
    trickNumber s' = trickNumber midTrick + 1 /\
    currentTrick s' = [] /\ leadSuit s' = None.
Proof.
  refine (proj2 (processTrickWin_unknown_winner midTrick "Z" _ _) _).
  - intros q [<-|[<-|[]]]; simpl; discriminate.
  - reflexivity.
  - simpl. discriminate.
Defined.

(** ** The turn order as a cycle *)

Lemma indexOf_first (x : string) (pre post : list string) :
  (forall y, In y pre -> y <> x) ->
  indexOf x (pre ++ x :: post) = Z.of_nat (length pre).
Proof.
  induction pre as [|y pre IH]; intros Hpre; simpl.
  - rewrite String.eqb_refl. reflexivity.
  - assert (Hy : y <> x) by (apply Hpre; left; reflexivity).
    apply String.eqb_neq in Hy. rewrite Hy.
    rewrite IH by (intros z Hz; apply Hpre; right; exact Hz).
    destruct (Z.of_nat (length pre) <? 0) eqn:E; [apply Z.ltb_lt in E; lia|lia].
Qed.

Lemma indexOf_NoDup (x : string) (l : list string) (i : nat) :
  List.NoDup l -> l !! i = Some x -> indexOf x l = Z.of_nat i.
Proof.
  intros Hnd Hi.
  pose proof (take_drop_middle l i x Hi) as Hl.
  rewrite <- Hl. rewrite indexOf_first.
  - rewrite length_take. apply lookup_lt_Some in Hi. lia.
  - intros y Hy ->. rewrite <- Hl in Hnd.
    apply NoDup_ListNoDup, NoDup_app in Hnd. destruct Hnd as (_ & Hdis & _).
    apply (Hdis x); [apply list_elem_of_In, Hy|left].
Qed.

Lemma getNextPlayerId_at (s : GameState) (i : nat) :
  List.NoDup (turnOrder s) ->
  turnOrder s !! i = Some (currentPlayerId s) ->
  getNextPlayerId s = turnOrder s !! ((i + 1) mod length (turnOrder s))%nat.
Proof.
  intros Hnd Hi. unfold getNextPlayerId.
  rewrite (indexOf_NoDup _ _ _ Hnd Hi).
  pose proof (lookup_lt_Some _ _ _ Hi) as Hlt.
  destruct (Z.of_nat (length (turnOrder s)) =? 0) eqn:E; [apply Z.eqb_eq in E; lia|].
  f_equal. rewrite Z.rem_mod_nonneg by lia.
  replace (Z.of_nat i + 1) with (Z.of_nat (i + 1)) by lia.
  rewrite <- Nat2Z.inj_mod. apply Nat2Z.id.
Qed.

(** X9. In a turn order without repeated ids, [getNextPlayerId] returns the
    id that follows the current player's, and the first id after the last:
    from position [i] it returns position [(i + 1) mod length].  With an
    empty turn order it returns [undefined]. *)
Theorem getNextPlayerId_successor (s : GameState) (i : nat) :
  List.NoDup (turnOrder s) ->
  turnOrder s !! i = Some (currentPlayerId s) ->
  getNextPlayerId s = turnOrder s !! ((i + 1) mod length (turnOrder s))%nat /\
  ((i + 1 < length (turnOrder s))%nat ->
   getNextPlayerId s = turnOrder s !! (i + 1)%nat) /\
  ((i + 1 = length (turnOrder s))%nat -> getNextPlayerId s = head (turnOrder s)).
Proof.
  intros Hnd Hi. pose proof (getNextPlayerId_at s i Hnd Hi) as H.
  split; [exact H|]. split.
  - intros Hlt. rewrite H, Nat.mod_small by exact Hlt. reflexivity.
  - intros Heq. rewrite H, Heq, Nat.Div0.mod_same.
    destruct (turnOrder s); reflexivity.
Qed.

Lemma getNextPlayerId_successor_witness :
  getNextPlayerId midTrick = Some "A".
Proof.
  refine (proj2 (proj2 (getNextPlayerId_successor midTrick 1 _ _)) _).
  - constructor; [simpl; intros [H|[]]; discriminate|].
    constructor; [intros []|constructor].
  - reflexivity.
  - reflexivity.
Defined.

Lemma advanceToNextTurn_same (s : GameState) :
  advanceToNextTurn s (currentPlayerId s) = s.
Proof. unfold advanceToNextTurn. destruct s as [? ? ? ? ? ? ? ? ? []]; reflexivity. Qed.

Lemma advanceToNextTurn_twice (s : GameState) (a b : string) :
  advanceToNextTurn (advanceToNextTurn s a) b = advanceToNextTurn s b.
Proof. unfold advanceToNextTurn. destruct s as [? ? ? ? ? ? ? ? ? []]; reflexivity. Qed.

Lemma advanceToNextTurn_fields (s : GameState) (a : string) :
  turnOrder (advanceToNextTurn s a) = turnOrder s /\
  g_status (advanceToNextTurn s a) = g_status s /\
  (g_status s <> finished -> currentPlayerId (advanceToNextTurn s a) = a) /\
  (g_status s = finished -> advanceToNextTurn s a = s).
Proof.
  unfold advanceToNextTurn. destruct (g_status s) eqn:E; simpl; rewrite ?E;
    repeat split; auto; try discriminate; intros H; contradiction.
Qed.

Lemma getNextPlayerId_some (s : GameState) :
  turnOrder s <> [] -> exists next, getNextPlayerId s = Some next.
Proof.
  intros Hne. unfold getNextPlayerId.
  pose proof (indexOf_range (currentPlayerId s) (turnOrder s)) as Hr.
  destruct (turnOrder s) as [|t0 rest]; [congruence|].
  destruct (Z.of_nat (length (t0 :: rest)) =? 0) eqn:E0;
    [apply Z.eqb_eq in E0; simpl in E0; lia|].
  apply lookup_lt_is_Some_2.
  pose proof (Z.rem_bound_pos (indexOf (currentPlayerId s) (t0 :: rest) + 1)
                (Z.of_nat (length (t0 :: rest)))) as Hb.
  simpl length in *. lia.
Qed.

Lemma passTurns_finished (n : nat) (s : GameState) :
  turnOrder s <> [] -> g_status s = finished -> passTurns n s = Some s.
Proof.
  intros Hne Hfin. induction n as [|n IH]; [reflexivity|]. simpl. unfold passTurn.
  destruct (getNextPlayerId_some s Hne) as (next & Hnext).
  rewrite Hnext. simpl.
  rewrite (proj2 (proj2 (proj2 (advanceToNextTurn_fields s next))) Hfin). exact IH.
Qed.

Lemma passTurns_walk (k : nat) (s : GameState) (i : nat) :
  List.NoDup (turnOrder s) ->
  turnOrder s !! i = Some (currentPlayerId s) ->
  g_status s <> finished ->
  exists next,
    turnOrder s !! ((i + k) mod length (turnOrder s))%nat = Some next /\
    passTurns k s = Some (advanceToNextTurn s next).
Proof.
  revert s i. induction k as [|k IH]; intros s i Hnd Hi Hst.
  - exists (currentPlayerId s). pose proof (lookup_lt_Some _ _ _ Hi) as Hlt.
    rewrite Nat.add_0_r, Nat.mod_small by exact Hlt.
    split; [exact Hi|]. simpl. rewrite advanceToNextTurn_same. reflexivity.
  - pose proof (lookup_lt_Some _ _ _ Hi) as Hlt.
    destruct (lookup_lt_is_Some_2 (turnOrder s) ((i + 1) mod length (turnOrder s))%nat)
      as [n1 Hn1]; [apply Nat.mod_upper_bound; lia|].
    destruct (advanceToNextTurn_fields s n1) as (Hto & Hstat & Hcur & _).
    destruct (IH (advanceToNextTurn s n1) ((i + 1) mod length (turnOrder s))%nat)
      as (next & Hnext & Hpass).
    + rewrite Hto. exact Hnd.
    + rewrite Hto, (Hcur Hst). exact Hn1.
    + rewrite Hstat. exact Hst.
    + exists next. rewrite Hto in Hnext. split.
      * rewrite <- Hnext. f_equal. rewrite Nat.Div0.add_mod_idemp_l. f_equal. lia.
      * simpl. unfold passTurn. rewrite (getNextPlayerId_at s i Hnd Hi), Hn1. simpl.
        rewrite Hpass, advanceToNextTurn_twice. reflexivity.
Qed.

(** X10. Passing the turn on repeatedly walks the turn order as a cycle:
    in a game that is not finished, whose turn order has no repeated id and
    has the current player at position [i], after [k] passes the current
    player is the one at position [(i + k) mod length]; and after exactly
    [length] passes the game is back in the state it started from. *)
Theorem passTurns_cycle (s : GameState) (i : nat) :
  List.NoDup (turnOrder s) ->
  turnOrder s !! i = Some (currentPlayerId s) ->
  (g_status s <> finished ->
   forall k, exists s',
     passTurns k s = Some s' /\
     turnOrder s !! ((i + k) mod length (turnOrder s))%nat = Some (currentPlayerId s')) /\
  passTurns (length (turnOrder s)) s = Some s.
Proof.
  intros Hnd Hi. pose proof (lookup_lt_Some _ _ _ Hi) as Hlt. split.
  - intros Hst k. destruct (passTurns_walk k s i Hnd Hi Hst) as (next & Hnext & Hpass).
    exists (advanceToNextTurn s next). split; [exact Hpass|].
    rewrite (proj1 (proj2 (proj2 (advanceToNextTurn_fields s next))) Hst). exact Hnext.
  - destruct (decide (g_status s = finished)) as [Hfin|Hst].
    + apply passTurns_finished; [|exact Hfin]. intros E. rewrite E in Hi. discriminate.
    + destruct (passTurns_walk (length (turnOrder s)) s i Hnd Hi Hst)
        as (next & Hnext & Hpass).
      rewrite Hpass. f_equal.
      replace ((i + length (turnOrder s)) mod length (turnOrder s))%nat with i in Hnext.
      * rewrite Hi in Hnext. injection Hnext as <-. apply advanceToNextTurn_same.
      * rewrite <- Nat.Div0.add_mod_idemp_r, Nat.Div0.mod_same, Nat.add_0_r.
        symmetry. apply Nat.mod_small, Hlt.
Qed.

Lemma passTurns_cycle_witness :
  passTurns (length (turnOrder midTrick)) midTrick = Some midTrick.
Proof.
  refine (proj2 (passTurns_cycle midTrick 1 _ _)).
  - constructor; [simpl; intros [H|[]]; discriminate|].
    constructor; [intros []|constructor].
  - reflexivity.
Defined.

(** ** Redaction applied twice *)

Lemma sanitizePlayer_id (t : string) (p : Player) :
  p_id (sanitizePlayer t p) = p_id p /\
  length (hand (sanitizePlayer t p)) = length (hand p).
Proof.
  unfold sanitizePlayer. destruct (String.eqb (p_id p) t); simpl;
    rewrite ?length_map; auto.
Qed.

Lemma sanitizePlayer_twice (t t' : string) (p : Player) :
  sanitizePlayer t' (sanitizePlayer t p) =
  if String.eqb (p_id p) t' then sanitizePlayer t p else hidden p.
Proof.
  destruct (sanitizePlayer_cases t p) as [Hown Hoth].
  destruct (String.eqb (p_id p) t') eqn:E'.
  - apply String.eqb_eq in E'.
    apply (proj1 (sanitizePlayer_cases t' (sanitizePlayer t p))).
    rewrite (proj1 (sanitizePlayer_id t p)). exact E'.
  - apply String.eqb_neq in E'.
    rewrite (proj2 (sanitizePlayer_cases t' (sanitizePlayer t p)))
      by (rewrite (proj1 (sanitizePlayer_id t p)); exact E').
    unfold hidden. destruct (sanitizePlayer_id t p) as [Hid Hlen].
    rewrite Hlen. destruct (decide (p_id p = t)) as [Ht|Ht].
    + rewrite (Hown Ht). reflexivity.
    + rewrite (Hoth Ht). reflexivity.
Qed.

(** X11. Redacting a view again for the same recipient changes nothing,
    and redacting a view made for [t] for another recipient [t'] gives the
    view of a stranger: every hand of a player whose id is not [t'] is
    hidden, and a player with id [t'] shows only what the first view
    showed.  Every view keeps the ids and the hand sizes of the players. *)
Theorem sanitize_twice (s : GameState) (t t' : string) :
  sanitizeGameStateForPlayer (sanitizeGameStateForPlayer s t) t =
    sanitizeGameStateForPlayer s t /\
  (forall i p, players s !! i = Some p ->
     players (sanitizeGameStateForPlayer (sanitizeGameStateForPlayer s t) t') !! i =
       Some (if String.eqb (p_id p) t' then sanitizePlayer t p else hidden p)) /\
  map p_id (players (sanitizeGameStateForPlayer s t)) = map p_id (players s) /\
  map (fun p => length (hand p)) (players (sanitizeGameStateForPlayer s t)) =
    map (fun p => length (hand p)) (players s).
Proof.
  split; [|split; [|split]].
  - unfold sanitizeGameStateForPlayer. simpl. f_equal.
    rewrite map_map. apply map_ext. intros p.
    rewrite sanitizePlayer_twice.
    destruct (String.eqb (p_id p) t) eqn:E; [reflexivity|].
    apply String.eqb_neq in E. symmetry.
    apply (proj2 (sanitizePlayer_cases t p)), E.
  - intros i p Hp. simpl. rewrite map_map.
    change (map (fun x => sanitizePlayer t' (sanitizePlayer t x)))
      with (fmap (M := list) (fun x => sanitizePlayer t' (sanitizePlayer t x))).
    rewrite list_lookup_fmap, Hp. simpl. rewrite sanitizePlayer_twice. reflexivity.
  - simpl. rewrite map_map. apply map_ext. intros p. apply sanitizePlayer_id.
  - simpl. rewrite map_map. apply map_ext. intros p. apply sanitizePlayer_id.
Qed.

(** ** Autoplay: leading and discarding *)

Lemma highestCard_spec (first : Card) (rest : list Card) :
  In (highestCard first rest) (first :: rest) /\
  forall b, In b (first :: rest) ->
            getCardValue b <= getCardValue (highestCard first rest).
Proof.
  unfold highestCard. revert first. induction rest as [|c rest IH]; intros first; simpl.
  - split; [left; reflexivity|]. intros b [<-|[]]. lia.
  - destruct (getCardValue first <? getCardValue c) eqn:E.
    + apply Z.ltb_lt in E. destruct (IH c) as [Hin Hmax]. split.
      * right. exact Hin.
      * intros b [<-|Hb]; [|apply Hmax, Hb].
        specialize (Hmax c (or_introl eq_refl)). lia.
    + apply Z.ltb_ge in E. destruct (IH first) as [Hin Hmax]. split.
      * destruct Hin as [<-|Hin]; [left; reflexivity|right; right; exact Hin].
      * intros b [<-|[<-|Hb]].
        -- apply Hmax. left. reflexivity.
        -- specialize (Hmax first (or_introl eq_refl)). lia.
        -- apply Hmax. right. exact Hb.
Qed.

(** What the [forEach] over the suit groups has established after the
    entries [seen]. *)
Lemma longestLoop_spec (groups : list (Suit * list Card)) :
  let acc := fold_left longestStep groups ([], 0%nat) in
  (forall s, In s (fst acc) ->
     exists cards, In (s, cards) groups /\ length cards = snd acc) /\
  (forall e, In e groups -> (length (snd e) <= snd acc)%nat) /\
  (groups <> [] -> fst acc <> []) /\
  (groups = [] -> snd acc = 0%nat).
Proof.
  induction groups as [|[s cards] seen IH] using rev_ind; simpl.
  - split; [intros ? []|]. split; [intros ? []|]. split; [congruence|reflexivity].
  - rewrite fold_left_app. simpl in *.
    destruct (fold_left longestStep seen ([], 0%nat)) as [ls m]. simpl in *.
    destruct IH as (Hls & Hmax & Hne & Hzero).
    destruct (m <? length cards)%nat eqn:E1; simpl.
    + apply Nat.ltb_lt in E1. split; [|split; [|split]].
      * intros s' [<-|[]]. exists cards. split; [apply in_or_app; right; left|]; reflexivity.
      * intros e He. apply in_app_or in He. destruct He as [He|[<-|[]]]; simpl; [|lia].
        specialize (Hmax e He). lia.
      * discriminate.
      * intros H. destruct seen; discriminate.
    + apply Nat.ltb_ge in E1. destruct (length cards =? m)%nat eqn:E2; simpl.
      * apply Nat.eqb_eq in E2. split; [|split; [|split]].
        -- intros s' Hs'. apply in_app_or in Hs'. destruct Hs' as [Hs'|[<-|[]]].
           ++ destruct (Hls s' Hs') as (cs & Hin & Hlen). exists cs.
              split; [apply in_or_app; left; exact Hin|exact Hlen].
           ++ exists cards. split; [apply in_or_app; right; left; reflexivity|exact E2].
        -- intros e He. apply in_app_or in He. destruct He as [He|[<-|[]]]; simpl; [|lia].
           apply Hmax, He.
        -- intros _ H. destruct ls; discriminate.
        -- intros H. destruct seen; discriminate.
      * apply Nat.eqb_neq in E2. split; [|split; [|split]].
        -- intros s' Hs'. destruct (Hls s' Hs') as (cs & Hin & Hlen). exists cs.
           split; [apply in_or_app; left; exact Hin|exact Hlen].
        -- intros e He. apply in_app_or in He. destruct He as [He|[<-|[]]]; simpl; [|lia].
           apply Hmax, He.
        -- intros _. apply Hne. intros ->. specialize (Hzero eq_refl). lia.
        -- intros H. destruct seen; discriminate.
Qed.

Lemma groupHandBySuit_In (h : list Card) (s : Suit) (cards : list Card) :
  In (s, cards) (groupHandBySuit h) <->
  cards = List.filter (fun c => suit_eqb (suit c) s) h.
Proof.
  unfold groupHandBySuit. rewrite in_map_iff. split.
  - intros (s' & [= <- <-] & _). reflexivity.
  - intros ->. exists s. split; [reflexivity|]. destruct s; simpl; auto.
Qed.

Lemma discardChoice_spec (draw : nat) (h : list Card) :
  h <> [] ->
  exists c,
    discardChoice draw h = Some c /\ In c h /\
    (forall s, (suitCount s h <= suitCount (suit c) h)%nat) /\
    (forall b, In b h -> suit b = suit c -> getCardValue c <= getCardValue b).
Proof.
  intros Hne. unfold discardChoice.
  pose proof (longestLoop_spec (groupHandBySuit h)) as Hl. cbv zeta in Hl.
  destruct (fold_left longestStep (groupHandBySuit h) ([], 0%nat)) as [ls m].
  cbn [fst snd] in *. destruct Hl as (Hls & Hmax & Hlsne & _).
  assert (Hlen : (0 < length ls)%nat).
  { destruct ls; [exfalso; apply Hlsne; [discriminate|reflexivity]|simpl; lia]. }
  destruct (lookup_lt_is_Some_2 ls (randomIndex draw (length ls))) as [chosen Hch].
  { unfold randomIndex. apply Nat.mod_upper_bound. lia. }
  rewrite Hch. apply lookup_In in Hch.
  destruct (Hls chosen Hch) as (cards & Hin & Hcards).
  apply groupHandBySuit_In in Hin.
  destruct (find (fun e => suit_eqb (fst e) chosen) (groupHandBySuit h))
    as [[s' cards']|] eqn:Ef.
  - pose proof (find_some _ _ Ef) as [He Hs']. simpl in Hs'.
    unfold suit_eqb in Hs'. apply bool_decide_eq_true in Hs'. subst s'.
    apply groupHandBySuit_In in He. simpl. rewrite He, <- Hin.
    assert (Hm : forall s, (suitCount s h <= m)%nat).
    { intros s. unfold suitCount.
      apply (Hmax (s, List.filter (fun c => suit_eqb (suit c) s) h)).
      apply groupHandBySuit_In. reflexivity. }
    assert (Hpos : (0 < m)%nat).
    { destruct h as [|c0 h']; [congruence|].
      specialize (Hm (suit c0)). unfold suitCount, suit_eqb in Hm. simpl in Hm.
      rewrite bool_decide_eq_true_2 in Hm by reflexivity. simpl in Hm. lia. }
    destruct (lookup_lt_is_Some_2 (sortCards cards) 0) as [c Hc];
      [unfold sortCards; rewrite sortBy_length; lia|].
    exists c. split; [exact Hc|].
    assert (HcIn : In c cards).
    { apply (sortBy_In (fun a b => getCardValue a - getCardValue b)).
      eapply lookup_In, Hc. }
    assert (Hcs : In c h /\ suit c = chosen).
    { rewrite Hin in HcIn. apply filter_In in HcIn. unfold suit_eqb in HcIn.
      rewrite bool_decide_eq_true in HcIn. exact HcIn. }
    destruct Hcs as [Hch' Hcsuit]. split; [exact Hch'|]. split.
    + intros s. rewrite Hcsuit. unfold suitCount at 2. rewrite <- Hin, Hcards. apply Hm.
    + intros b Hb Hbs.
      assert (HbIn : In b (sortCards cards)).
      { apply (sortBy_In (fun a b => getCardValue a - getCardValue b)).
        rewrite Hin. apply filter_In. split; [exact Hb|].
        unfold suit_eqb. apply bool_decide_eq_true. congruence. }
      destruct (sorted_first _ _ _ (sortCards_sorted cards) Hc b HbIn) as [->|Hle]; lia.
  - exfalso. pose proof (find_none _ _ Ef (chosen, cards)) as Hnone.
    simpl in Hnone. unfold suit_eqb in Hnone.
    rewrite bool_decide_eq_true_2 in Hnone by reflexivity.
    assert (Hin' : In (chosen, cards) (groupHandBySuit h))
      by (apply groupHandBySuit_In; exact Hin).
    specialize (Hnone Hin'). discriminate.
Qed.

Lemma followSuit_cards_In (h : list Card) (lead : Suit) (b : Card) :
  In b (sortCards (List.filter (fun c => suit_eqb (suit c) lead) h)) <->
  In b h /\ suit b = lead.
Proof.
  unfold sortCards, suit_eqb.
  rewrite sortBy_In, filter_In, bool_decide_eq_true. reflexivity.
Qed.

Lemma autoPlayCard_turn (rnd : RandomSource) (s : GameState) (playerId : string)
    (p : Player) :
  currentPlayerId s = playerId ->
  findPlayer playerId (players s) = Some p ->
  autoPlayCard rnd s playerId =
  match hand p with
  | [] => None
  | first :: rest =>
      match leadSuit s with
      | Some lead =>
          if (0 <? length (sortCards
                             (List.filter (fun c => suit_eqb (suit c) lead) (hand p))))%nat
          then followSuitChoice
                 (sortCards (List.filter (fun c => suit_eqb (suit c) lead) (hand p)))
                 (currentTrick s) lead
          else discardChoice (rnd 0%nat) (hand p)
      | None => Some (highestCard first rest)
      end
  end.
Proof.
  intros Hcur Hp. unfold autoPlayCard.
  apply String.eqb_eq in Hcur. rewrite Hcur, Hp. reflexivity.
Qed.

Lemma autoPlayCard_plays (rnd : RandomSource) (s : GameState) (playerId : string)
    (p : Player) :
  currentPlayerId s = playerId ->
  findPlayer playerId (players s) = Some p ->
  hand p <> [] ->
  exists c,
    autoPlayCard rnd s playerId = Some c /\ In c (hand p) /\
    forall lead, leadSuit s = Some lead ->
                 (exists c', In c' (hand p) /\ suit c' = lead) -> suit c = lead.
Proof.
  intros Hcur Hp Hne. rewrite (autoPlayCard_turn rnd s playerId p Hcur Hp).
  destruct (hand p) as [|first rest] eqn:Eh; [congruence|]. rewrite <- Eh in *.
  destruct (leadSuit s) as [lead|].
  - set (F := sortCards (List.filter (fun c => suit_eqb (suit c) lead) (hand p))).
    destruct (0 <? length F)%nat eqn:EF.
    + apply Nat.ltb_lt in EF.
      assert (HFne : F <> []) by (intros E; rewrite E in EF; simpl in EF; lia).
      destruct (followSuitChoice_spec F (currentTrick s) lead (sortCards_sorted _) HFne)
        as (c & Hc & HcF & _).
      apply followSuit_cards_In in HcF. destruct HcF as [HcH Hcs].
      exists c. split; [exact Hc|]. split; [exact HcH|]. intros l [= <-] _. exact Hcs.
    + apply Nat.ltb_ge in EF.
      destruct (discardChoice_spec (rnd 0%nat) (hand p) Hne) as (c & Hc & HcH & _).
      exists c. split; [exact Hc|]. split; [exact HcH|].
      intros l [= <-] (c' & Hc' & Hs'). exfalso.
      assert (Hin : In c' F) by (apply followSuit_cards_In; auto).
      destruct F; [destruct Hin|simpl in EF; lia].
  - exists (highestCard first rest). split; [reflexivity|].
    split; [rewrite Eh; apply highestCard_spec|discriminate].
Qed.

(** X12. When no lead suit is set (the player leads the trick), the
    heuristic plays a card of the acting player's hand whose value is the
    highest in the hand. *)
Theorem autoPlay_leads_highest (rnd : RandomSource) (s : GameState)
    (playerId : string) (p : Player) :
  leadSuit s = None ->
  currentPlayerId s = playerId ->
  firstWithId playerId (players s) p ->
  hand p <> [] ->
  exists c,
    autoPlayCard rnd s playerId = Some c /\ In c (hand p) /\
    forall b, In b (hand p) -> getCardValue b <= getCardValue c.
Proof.
  intros Hlead Hcur Hp Hne. apply findPlayer_Some in Hp.
  rewrite (autoPlayCard_turn rnd s playerId p Hcur Hp), Hlead.
  destruct (hand p) as [|first rest]; [congruence|].
  exists (highestCard first rest). split; [reflexivity|]. apply highestCard_spec.
Qed.

(** X13. When a lead suit is set and the acting player holds no card of
    it, the heuristic, whatever it draws, plays a card of the hand from a
    suit the player holds the most cards of, and the lowest-valued card of
    that suit. *)
Theorem autoPlay_discards_from_longest (rnd : RandomSource) (s : GameState)
    (playerId : string) (p : Player) (lead : Suit) :
  leadSuit s = Some lead ->
  currentPlayerId s = playerId ->
  firstWithId playerId (players s) p ->
  hand p <> [] ->
  (forall c, In c (hand p) -> suit c <> lead) ->
  exists c,
    autoPlayCard rnd s playerId = Some c /\ In c (hand p) /\
    (forall s', (suitCount s' (hand p) <= suitCount (suit c) (hand p))%nat) /\
    (forall b, In b (hand p) -> suit b = suit c -> getCardValue c <= getCardValue b).
Proof.
  intros Hlead Hcur Hp Hne Hnone. apply findPlayer_Some in Hp.
  rewrite (autoPlayCard_turn rnd s playerId p Hcur Hp), Hlead.
  destruct (hand p) as [|first rest] eqn:Eh; [congruence|]. rewrite <- Eh in *.
  set (F := sortCards (List.filter (fun c => suit_eqb (suit c) lead) (hand p))).
  assert (HF : F = []).
  { destruct F as [|c F'] eqn:EF; [reflexivity|exfalso].
    assert (Hin : In c F) by (rewrite EF; left; reflexivity).
    apply followSuit_cards_In in Hin. destruct Hin as [Hin Hs].
    exact (Hnone c Hin Hs). }
  rewrite HF. simpl. apply discardChoice_spec, Hne.
Qed.

(** X14. Every card the heuristic decides to play is a legal move for the
    acting player: [isMoveValid] accepts it in the same state. *)
Theorem autoPlay_is_valid (rnd : RandomSource) (s : GameState)
    (playerId : string) (c : Card) :
  autoPlayCard rnd s playerId = Some c ->
  isMoveValid s playerId c = mkMoveResult true "".
Proof.
  intros Hauto.
  assert (Hcur : currentPlayerId s = playerId).
  { unfold autoPlayCard in Hauto.
    destruct (String.eqb (currentPlayerId s) playerId) eqn:E; [|discriminate].
    apply String.eqb_eq, E. }
  destruct (findPlayer playerId (players s)) as [p|] eqn:Hp.
  2:{ unfold autoPlayCard in Hauto. rewrite Hp in Hauto.
      destruct (negb _); discriminate. }
  assert (Hne : hand p <> []).
  { intros E. rewrite (autoPlayCard_turn rnd s playerId p Hcur Hp), E in Hauto.
    discriminate. }
  destruct (autoPlayCard_plays rnd s playerId p Hcur Hp Hne) as (c' & Hc' & Hin & Hsuit).
  rewrite Hauto in Hc'. injection Hc' as <-.
  unfold isMoveValid. rewrite Hp.
  apply String.eqb_eq in Hcur. rewrite Hcur. simpl.
  rewrite (proj2 (hasCard_In c (hand p)) Hin). simpl.
  destruct (leadSuit s) as [lead|]; [|reflexivity].
  destruct (existsb (fun x => suit_eqb (suit x) lead) (hand p)) eqn:Eh; [|reflexivity].
  apply hasSuit_In in Eh. rewrite (Hsuit lead eq_refl Eh).
  unfold suit_eqb. rewrite bool_decide_eq_true_2 by reflexivity. reflexivity.
Qed.

(** X15. The heuristic plays exactly when it is the player's turn, the
    player is in the game and holds a card; otherwise it returns without
    playing. *)
Theorem autoPlay_plays_iff (rnd : RandomSource) (s : GameState) (playerId : string) :
  autoPlayCard rnd s playerId = None <->
  (currentPlayerId s <> playerId \/
   (forall q, In q (players s) -> p_id q <> playerId) \/
   exists p, firstWithId playerId (players s) p /\ hand p = []).
Proof.
  split.
  - intros Hnone.
    destruct (decide (currentPlayerId s = playerId)) as [Hcur|Hcur]; [|left; exact Hcur].
    right. destruct (findPlayer playerId (players s)) as [p|] eqn:Hp.
    + right. exists p. split; [apply findPlayer_Some, Hp|].
      destruct (hand p) as [|c0 h] eqn:Eh; [reflexivity|exfalso].
      destruct (autoPlayCard_plays rnd s playerId p Hcur Hp) as (c & Hc & _);
        [rewrite Eh; discriminate|congruence].
    + left. apply findPlayer_None, Hp.
  - intros [Hcur|[Hnone|(p & Hp & Hh)]].
    + unfold autoPlayCard. apply String.eqb_neq in Hcur. rewrite Hcur. reflexivity.
    + unfold autoPlayCard. apply findPlayer_None in Hnone. rewrite Hnone.
      destruct (negb _); reflexivity.
    + apply findPlayer_Some in Hp. unfold autoPlayCard. rewrite Hp, Hh.
      destruct (negb _); reflexivity.
Qed.

Lemma autoPlay_leads_highest_witness :
  exists c,
    autoPlayCard zeroDraws openTrick "B" = Some c /\ In c (hand playerB3) /\
    forall b, In b (hand playerB3) -> getCardValue b <= getCardValue c.
Proof.
  apply (autoPlay_leads_highest zeroDraws openTrick "B" playerB3).
  - reflexivity.
  - reflexivity.
  - exists [playerA], []. split; [reflexivity|]. split; [reflexivity|].
    intros q [<-|[]]. simpl. discriminate.
  - simpl. discriminate.
Defined.

Example autoPlay_openTrick :
  autoPlayCard zeroDraws openTrick "B" = Some (mkCard hearts RK).
Proof. reflexivity. Qed.

Lemma autoPlay_discards_from_longest_witness :
  exists c,
    autoPlayCard zeroDraws onlySpade "B" = Some c /\ In c (hand playerB9) /\
    (forall s', (suitCount s' (hand playerB9) <= suitCount (suit c) (hand playerB9))%nat) /\
    (forall b, In b (hand playerB9) -> suit b = suit c ->
               getCardValue c <= getCardValue b).
Proof.
  apply (autoPlay_discards_from_longest zeroDraws onlySpade "B" playerB9 hearts).
  - reflexivity.
  - reflexivity.
  - exists [playerA], []. split; [reflexivity|]. split; [reflexivity|].
    intros q [<-|[]]. simpl. discriminate.
  - simpl. discriminate.
  - intros c [<-|[]]. simpl. discriminate.
Defined.

Example autoPlay_onlySpade :
  forall rnd, autoPlayCard rnd onlySpade "B" = Some (mkCard spades R9).
Proof. intros rnd. reflexivity. Qed.

Lemma autoPlay_is_valid_witness :
  isMoveValid cheapWin "B" (mkCard hearts RK) = mkMoveResult true "".
Proof. apply (autoPlay_is_valid zeroDraws). reflexivity. Defined.

(** ** Playing a card: [handlePlayCardLogic] *)

Lemma takeFromHand_first (playerId : string) (played : Card)
    (before after : list Player) (p : Player) :
  (forall q, In q before -> p_id q <> playerId) ->
  p_id p = playerId ->
  takeFromHand playerId played (before ++ p :: after) =
  before ++ withoutCard played p :: after.
Proof.
  intros Hb Hp. induction before as [|q before IH]; simpl.
  - apply String.eqb_eq in Hp. rewrite Hp. reflexivity.
  - assert (Hq : p_id q <> playerId) by (apply Hb; left; reflexivity).
    apply String.eqb_neq in Hq. rewrite Hq. f_equal. apply IH.
    intros q' Hq'. apply Hb. right. exact Hq'.
Qed.

Lemma takeFromHand_length (playerId : string) (played : Card) (ps : list Player) :
  length (takeFromHand playerId played ps) = length ps.
Proof.
  induction ps as [|p ps IH]; simpl; [reflexivity|].
  destruct (String.eqb (p_id p) playerId); simpl; [reflexivity|]. rewrite IH. reflexivity.
Qed.

Lemma keepOthers_true (played c : Card) :
  negb (rank_eqb (rank c) (rank played) && suit_eqb (suit c) (suit played)) = true <->
  c <> played.
Proof.
  unfold rank_eqb, suit_eqb. rewrite negb_true_iff, andb_false_iff.
  rewrite !bool_decide_eq_false. destruct c as [cs cr], played as [ps pr]; simpl.
  split.
  - intros [H|H] [= -> ->]; contradiction.
  - intros H. destruct (decide (cr = pr)) as [->|Hr]; [|left; exact Hr].
    right. intros ->. apply H. reflexivity.
Qed.

Lemma withoutCard_hand (played : Card) (p : Player) :
  (forall b, In b (hand (withoutCard played p)) <-> In b (hand p) /\ b <> played) /\
  (List.NoDup (hand p) -> In played (hand p) ->
   (length (hand (withoutCard played p)) + 1 = length (hand p))%nat).
Proof.
  unfold withoutCard. simpl. split.
  - intros b. rewrite filter_In, keepOthers_true. reflexivity.
  - induction (hand p) as [|c h IH]; intros Hnd Hin; [destruct Hin|].
    apply NoDup_cons_iff in Hnd. destruct Hnd as [Hc Hnd]. simpl.
    destruct (negb (rank_eqb (rank c) (rank played) && suit_eqb (suit c) (suit played)))
      eqn:E.
    + apply keepOthers_true in E. destruct Hin as [->|Hin]; [contradiction|].
      simpl. rewrite (IH Hnd Hin). reflexivity.
    + assert (Hcp : c = played).
      { destruct (decide (c = played)) as [Hd|Hd]; [exact Hd|].
        apply keepOthers_true in Hd. congruence. }
      subst c. f_equal. rewrite Nat.add_1_r. f_equal.
      clear IH Hin Hnd. induction h as [|d h IH]; [reflexivity|]. simpl.
      assert (Hd : d <> played) by (intros ->; apply Hc; left; reflexivity).
      apply keepOthers_true in Hd. rewrite Hd. simpl. f_equal. apply IH.
      intros H. apply Hc. right. exact H.
Qed.

(** X16. A play by a player of the game, in a game with a turn order,
    takes the played card out of that player's hand and nothing else: every
    other card of the hand stays, every other player is untouched, and the
    card becomes the last card of the trick.  A hand of distinct cards that
    held the card is one card shorter. *)
Theorem handlePlayCardLogic_moves_card (s : GameState) (playerId : string)
    (c : Card) (p : Player) :
  firstWithId playerId (players s) p ->
  turnOrder s <> [] ->
  exists s' before after,
    handlePlayCardLogic s playerId c = Some s' /\
    players s = before ++ p :: after /\
    players s' = before ++ withoutCard c p :: after /\
    (forall b, In b (hand (withoutCard c p)) <-> In b (hand p) /\ b <> c) /\
    (List.NoDup (hand p) -> In c (hand p) ->
     (length (hand (withoutCard c p)) + 1 = length (hand p))%nat) /\
    currentTrick s' = currentTrick s ++ [mkTrickCard playerId c] /\
    trickNumber s' = trickNumber s /\ g_status s' = g_status s /\
    turnOrder s' = turnOrder s.
Proof.
  intros Hp Hto. pose proof Hp as (before & after & Hps & Hid & Hb).
  apply findPlayer_Some in Hp.
  assert (Htake : takeFromHand playerId c (players s) =
                  before ++ withoutCard c p :: after)
    by (rewrite Hps; apply takeFromHand_first; assumption).
  unfold handlePlayCardLogic. rewrite Hp. cbv zeta. rewrite Htake.
  destruct (withoutCard_hand c p) as [Hhand Hlen].
  destruct (length (currentTrick s ++ [mkTrickCard playerId c]) =?
            length (before ++ withoutCard c p :: after))%nat.
  - eexists _, before, after. split; [reflexivity|]. simpl. auto 10.
  - match goal with
    | |- context [getNextPlayerId ?s1] =>
        destruct (getNextPlayerId_some s1 Hto) as (next & Hnext); rewrite Hnext
    end.
    simpl. eexists _, before, after. split; [reflexivity|].
    unfold advanceToNextTurn. simpl. destruct (g_status s); simpl; auto 10.
Qed.

Lemma handlePlayCardLogic_moves_card_witness :
  exists s' before after,
    handlePlayCardLogic midTrick "B" (mkCard diamonds R2) = Some s' /\
    players midTrick = before ++ playerB :: after /\
    players s' = before ++ withoutCard (mkCard diamonds R2) playerB :: after /\
    currentTrick s' =
      currentTrick midTrick ++ [mkTrickCard "B" (mkCard diamonds R2)].
Proof.
  destruct (handlePlayCardLogic_moves_card midTrick "B" (mkCard diamonds R2) playerB)
    as (s' & before & after & H1 & H2 & H3 & _ & _ & H4 & _).
  - exists [playerA], []. split; [reflexivity|]. split; [reflexivity|].
    intros q [<-|[]]. simpl. discriminate.
  - simpl. discriminate.
  - exists s', before, after. auto.
Defined.

Lemma handlePlayCardLogic_turn (s : GameState) (playerId : string) (c : Card)
    (s' : GameState) :
  handlePlayCardLogic s playerId c = Some s' ->
  ((length (currentTrick s) + 1 = length (players s))%nat ->
   currentPlayerId s' = "") /\
  ((length (currentTrick s) + 1 <> length (players s))%nat ->
   (g_status s <> finished -> getNextPlayerId s = Some (currentPlayerId s')) /\
   (g_status s = finished -> currentPlayerId s' = currentPlayerId s)).
Proof.
  unfold handlePlayCardLogic.
  destruct (findPlayer playerId (players s)); [|discriminate]. cbv zeta.
  rewrite length_app, takeFromHand_length. simpl length.
  destruct (length (currentTrick s) + 1 =? length (players s))%nat eqn:E.
  - apply Nat.eqb_eq in E. intros [= <-]. split; [reflexivity|]. intros H. contradiction.
  - apply Nat.eqb_neq in E.
    match goal with
    | |- context [getNextPlayerId ?s1] =>
        change (getNextPlayerId s1) with (getNextPlayerId s)
    end.
    destruct (getNextPlayerId s) as [next|]; [|discriminate].
    simpl. intros [= <-]. split; [intros H; contradiction|]. intros _.
    unfold advanceToNextTurn. simpl.
    destruct (g_status s); split; intros H; try reflexivity; try discriminate;
      contradiction.
Qed.

(** X17. The play that completes the trick (as many trick cards as
    players) leaves the empty string as current player, and while it stays
    no play is accepted from a player whose id is not empty: [isMoveValid]
    rejects every card and the heuristic does not play.  A play that does
    not complete the trick passes the turn to [getNextPlayerId]. *)
Theorem handlePlayCardLogic_completes_trick (s : GameState) (playerId : string)
    (c : Card) (s' : GameState) :
  handlePlayCardLogic s playerId c = Some s' ->
  ((length (currentTrick s) + 1 = length (players s))%nat ->
   currentPlayerId s' = "" /\
   forall rnd other c',
     other <> "" ->
     valid (isMoveValid s' other c') = false /\ autoPlayCard rnd s' other = None) /\
  ((length (currentTrick s) + 1 <> length (players s))%nat ->
   g_status s <> finished ->
   getNextPlayerId s = Some (currentPlayerId s')).
Proof.
  intros Hplay. destruct (handlePlayCardLogic_turn _ _ _ _ Hplay) as [Hfull Hpart].
  split.
  - intros Hlen. specialize (Hfull Hlen). split; [exact Hfull|].
    intros rnd other c' Hother.
    assert (E : String.eqb (currentPlayerId s') other = false)
      by (apply String.eqb_neq; congruence).
    split.
    + unfold isMoveValid. destruct (findPlayer other (players s')); [|reflexivity].
      rewrite E. reflexivity.
    + unfold autoPlayCard. rewrite E. reflexivity.
  - intros Hlen Hst. apply (proj1 (Hpart Hlen)), Hst.
Qed.

Lemma handlePlayCardLogic_completes_trick_witness :
  exists s',
    handlePlayCardLogic midTrick "B" (mkCard diamonds R2) = Some s' /\
    currentPlayerId s' = "" /\
    valid (isMoveValid s' "A" (mkCard hearts R9)) = false /\
    autoPlayCard zeroDraws s' "A" = None.
Proof.
  eexists. split; [reflexivity|].
  match goal with
  | |- currentPlayerId ?s' = _ /\ _ =>
      destruct (proj1 (handlePlayCardLogic_completes_trick midTrick "B"
                         (mkCard diamonds R2) s' eq_refl) eq_refl) as [H1 H2]
  end.
  split; [exact H1|]. apply (H2 zeroDraws "A"). discriminate.
Defined.

(** ** Resolving a trick: [resolveTrick] *)

Lemma tricksCredited_app (l1 l2 : list Player) :
  tricksCredited (l1 ++ l2) = tricksCredited l1 + tricksCredited l2.
Proof.
  unfold tricksCredited. induction l1 as [|p l1 IH]; simpl; [reflexivity|].
  rewrite IH. lia.
Qed.

Lemma tricksCredited_creditWinner (winnerId : string) (ps : list Player) :
  ((forall p, In p ps -> safeInteger (tricksWon p)) ->
   (exists p, In p ps /\ p_id p = winnerId) ->
   tricksCredited (creditWinner winnerId ps) = tricksCredited ps + 1) /\
  ((forall q, In q ps -> p_id q <> winnerId) ->
   tricksCredited (creditWinner winnerId ps) = tricksCredited ps).
Proof.
  split.
  - intros Hsafe Hex.
    destruct (firstWithId_exists _ _ Hex) as (w & before & after & -> & Hw & Hb).
    rewrite (creditWinner_first _ _ _ _ Hb Hw), !tricksCredited_app
      by (apply Hsafe, in_or_app; right; left; reflexivity).
    unfold tricksCredited. simpl. lia.
  - intros Hno. rewrite creditWinner_absent by exact Hno. reflexivity.
Qed.

Lemma creditWinner_ids (winnerId : string) (ps : list Player) :
  map p_id (creditWinner winnerId ps) = map p_id ps /\
  map hand (creditWinner winnerId ps) = map hand ps.
Proof.
  induction ps as [|p ps [IH1 IH2]]; simpl; [auto|].
  destruct (String.eqb (p_id p) winnerId); simpl; [auto|].
  rewrite IH1, IH2. auto.
Qed.

(** X18. The trick-end callback, on a state with a lead suit, a trick that
    holds a card of it, at least one player, and counters that are safe
    integers, succeeds: the id [determineTrickWinner] returns becomes the
    current player (the winner leads the next trick), the trick and the
    lead suit are cleared, the trick number advances by one, and the
    players' credited tricks grow by exactly one in total when the winner is
    still among the players. *)
Theorem resolveTrick_winner_leads (s : GameState) (lead : Suit) :
  leadSuit s = Some lead ->
  (exists tc, In tc (currentTrick s) /\ suit (card tc) = lead) ->
  players s <> [] ->
  safeInteger (trickNumber s) ->
  (forall p, In p (players s) -> safeInteger (tricksWon p)) ->
  exists s' winnerId,
    resolveTrick s = Some s' /\
    determineTrickWinner (currentTrick s) lead = Some winnerId /\
    currentPlayerId s' = winnerId /\
    currentTrick s' = [] /\ leadSuit s' = None /\
    trickNumber s' = trickNumber s + 1 /\
    map p_id (players s') = map p_id (players s) /\
    map hand (players s') = map hand (players s) /\
    ((exists p, In p (players s) /\ p_id p = winnerId) ->
     tricksCredited (players s') = tricksCredited (players s) + 1).
Proof.
  intros Hlead Hex Hne Htn Htw. unfold resolveTrick. rewrite Hlead.
  destruct (determineTrickWinner (currentTrick s) lead) as [w|] eqn:Hw.
  2:{ exfalso. destruct Hex as (tc & Hin & Hs).
      pose proof (trickLoop_bestSoFar lead (currentTrick s)) as Hb.
      unfold determineTrickWinner, bestSoFar in *.
      destruct (fst (fold_left (trickStep lead) (currentTrick s) (None, -1)));
        [discriminate|]. exact (proj2 Hb tc Hin Hs). }
  unfold processTrickWin.
  destruct (creditWinner_ids w (players s)) as [Hids Hhands].
  destruct (creditWinner w (players s) !! 0%nat) as [first|] eqn:E0.
  - eexists _, w. split; [reflexivity|]. split; [reflexivity|].
    unfold advanceToNextTurn. simpl. rewrite (numAdd_one_safe _ Htn).
    destruct (length (hand first) =? 0)%nat; simpl;
      (repeat split; auto;
       apply (proj1 (tricksCredited_creditWinner w (players s))), Htw).
  - exfalso. apply lookup_ge_None in E0.
    assert (Hl : length (map p_id (creditWinner w (players s))) =
                 length (map p_id (players s))) by (rewrite Hids; reflexivity).
    rewrite !length_map in Hl. destruct (players s); [congruence|simpl in *; lia].
Qed.

Lemma resolveTrick_winner_leads_witness :
  exists s' winnerId,
    resolveTrick midTrick = Some s' /\
    currentPlayerId s' = winnerId /\
    currentTrick s' = [] /\ leadSuit s' = None /\
    trickNumber s' = trickNumber midTrick + 1.
Proof.
  destruct (resolveTrick_winner_leads midTrick diamonds)
    as (s' & w & H1 & _ & H2 & H3 & H4 & H5 & _).
  - reflexivity.
  - exists (mkTrickCard "A" (mkCard diamonds R7)). simpl. auto.
  - simpl. discriminate.
  - reflexivity.
  - intros p [<-|[<-|[]]]; reflexivity.
  - exists s', w. auto.
Defined.

(** ** What the engine keeps of a game *)

Lemma takeFromHand_tricks (playerId : string) (played : Card) (ps : list Player) :
  map tricksWon (takeFromHand playerId played ps) = map tricksWon ps /\
  map p_id (takeFromHand playerId played ps) = map p_id ps.
Proof.
  induction ps as [|p ps [IH1 IH2]]; simpl; [auto|].
  destruct (String.eqb (p_id p) playerId); simpl; [auto|]. rewrite IH1, IH2. auto.
Qed.

Lemma tricksCredited_map (ps : list Player) :
  tricksCredited ps = fold_right Z.add 0 (map tricksWon ps).
Proof.
  unfold tricksCredited. induction ps as [|p ps IH]; simpl; [reflexivity|].
  rewrite IH. reflexivity.
Qed.

Lemma tricks_nonneg_map (ps : list Player) :
  (forall p, In p ps -> 0 <= tricksWon p) <-> Forall (fun n => 0 <= n) (map tricksWon ps).
Proof.
  rewrite List.Forall_forall. split.
  - intros H n Hn. apply in_map_iff in Hn. destruct Hn as (p & <- & Hp). apply H, Hp.
  - intros H p Hp. apply H, in_map, Hp.
Qed.

Lemma creditWinner_nonneg (winnerId : string) (ps : list Player) :
  (forall p, In p ps -> 0 <= tricksWon p) ->
  (forall p, In p ps -> safeInteger (tricksWon p)) ->
  (forall p, In p (creditWinner winnerId ps) -> 0 <= tricksWon p) /\
  tricksCredited (creditWinner winnerId ps) <= tricksCredited ps + 1.
Proof.
  intros Hnn Hsafe. split.
  - induction ps as [|q ps IH]; simpl; [intros ? []|].
    assert (Hq : 0 <= tricksWon q) by (apply Hnn; left; reflexivity).
    assert (Hsq : safeInteger (tricksWon q)) by (apply Hsafe; left; reflexivity).
    assert (Hps : forall p, In p ps -> 0 <= tricksWon p)
      by (intros p Hp; apply Hnn; right; exact Hp).
    assert (Hss : forall p, In p ps -> safeInteger (tricksWon p))
      by (intros p Hp; apply Hsafe; right; exact Hp).
    destruct (String.eqb (p_id q) winnerId).
    + intros p [<-|Hp]; [|apply Hps, Hp]. simpl.
      rewrite (numAdd_one_safe _ Hsq). lia.
    + intros p [<-|Hp]; [exact Hq|apply IH; assumption].
  - destruct (findPlayer winnerId ps) as [w|] eqn:Hf.
    + rewrite (proj1 (tricksCredited_creditWinner winnerId ps) Hsafe); [lia|].
      apply findPlayer_Some in Hf. destruct Hf as (b & a & -> & Hw & _).
      exists w. split; [apply in_or_app; right; left; reflexivity|exact Hw].
    + pose proof (proj1 (findPlayer_None winnerId ps) Hf) as Hno.
      rewrite (proj2 (tricksCredited_creditWinner winnerId ps) Hno). lia.
Qed.

Lemma prune_tricks (f : Player -> bool) (ps : list Player) :
  (forall p, In p ps -> 0 <= tricksWon p) ->
  tricksCredited (List.filter f ps) <= tricksCredited ps.
Proof.
  unfold tricksCredited. induction ps as [|q ps IH]; intros Hnn; simpl; [lia|].
  assert (Hq : 0 <= tricksWon q) by (apply Hnn; left; reflexivity).
  assert (Hps : forall p, In p ps -> 0 <= tricksWon p)
    by (intros p Hp; apply Hnn; right; exact Hp).
  specialize (IH Hps). destruct (f q); simpl; lia.
Qed.

Lemma tricksWon_le_credited (ps : list Player) :
  (forall p, In p ps -> 0 <= tricksWon p) ->
  0 <= tricksCredited ps /\ forall p, In p ps -> tricksWon p <= tricksCredited ps.
Proof.
  unfold tricksCredited. induction ps as [|q ps IH]; intros Hnn; simpl.
  - split; [lia|intros ? []].
  - assert (Hq : 0 <= tricksWon q) by (apply Hnn; left; reflexivity).
    assert (Hps : forall p, In p ps -> 0 <= tricksWon p)
      by (intros p Hp; apply Hnn; right; exact Hp).
    destruct (IH Hps) as [H0 Hle]. split; [lia|].
    intros p [<-|Hp]; [lia|]. specialize (Hle p Hp). lia.
Qed.

(** The counters of a game that keeps its books are safe integers: the
    additions of [processTrickWin] are exact on them. *)
Lemma bookkeeping_safe (s : GameState) :
  bookkeeping s ->
  1 <= trickNumber s <= 53 /\ safeInteger (trickNumber s) /\
  forall p, In p (players s) -> safeInteger (tricksWon p).
Proof.
  intros (_ & _ & _ & _ & Hnn & Hsum & Hpot).
  destruct (tricksWon_le_credited (players s) Hnn) as [H0 Hle].
  assert (Hh : 0 <= handCards s) by (unfold handCards; lia).
  assert (Hl : 0 <= leadFlag s) by (unfold leadFlag; destruct (leadSuit s); lia).
  split; [lia|]. split.
  - unfold safeInteger. lia.
  - intros p Hp. specialize (Hle p Hp). specialize (Hnn p Hp).
    unfold safeInteger. lia.
Qed.

Lemma seatPlayers_hands (hands : list (list Card)) (playerList : list User) :
  length hands = length playerList ->
  map hand (seatPlayers hands playerList) = hands.
Proof.
  intros Hlen. apply list_eq. intros i.
  change (map hand) with (fmap (M := list) hand).
  rewrite list_lookup_fmap. unfold seatPlayers. rewrite list_lookup_imap.
  destruct (playerList !! i) as [u|] eqn:Eu; simpl.
  - destruct (lookup_lt_is_Some_2 hands i) as [h Hh];
      [rewrite Hlen; eapply lookup_lt_Some, Eu|].
    rewrite Hh. reflexivity.
  - symmetry. apply lookup_ge_None. rewrite Hlen. apply lookup_ge_None, Eu.
Qed.


Lemma setupNewGame_players (fuel : nat) (rnd : RandomSource) (playerList : list User)
    (gameId : string) (mp : MaxPlayers) (s : GameState) :
  setupNewGame fuel rnd playerList gameId mp = Some s ->
  players s = seatPlayers (dealCards (createDeck rnd) (length playerList)) playerList /\
  startingPlayer (players s) = Some (currentPlayerId s) /\
  hostOrFirstUser playerList = Some (hostId s) /\
  playerList <> [].
Proof.
  unfold setupNewGame.
  set (ps := seatPlayers (dealCards (createDeck rnd) (length playerList)) playerList).
  destruct (startingPlayer ps) as [sid|] eqn:Es; [|discriminate].
  destruct (rotateTo fuel sid (map p_id ps)); [|discriminate].
  destruct (hostOrFirstUser playerList) as [hid|] eqn:Eh; [|discriminate].
  intros [= <-]. simpl. repeat split; auto.
  intros ->. discriminate.
Qed.


Lemma isMoveValid_in_hand (s : GameState) (playerId : string) (c : Card) :
  valid (isMoveValid s playerId c) = true ->
  exists p, findPlayer playerId (players s) = Some p /\ In c (hand p).
Proof.
  unfold isMoveValid.
  destruct (findPlayer playerId (players s)) as [p|]; [|discriminate].
  destruct (negb (String.eqb (currentPlayerId s) playerId)); [discriminate|].
  destruct (existsb (fun x => sameCard x c) (hand p)) eqn:E; [|discriminate].
  intros _. exists p. split; [reflexivity|]. apply hasCard_In, E.
Qed.


Lemma autoPlayCard_in_hand (rnd : RandomSource) (s : GameState) (playerId : string)
    (c : Card) :
  autoPlayCard rnd s playerId = Some c ->
  exists p, findPlayer playerId (players s) = Some p /\ In c (hand p).
Proof.
  intros Hauto.
  assert (Hcur : currentPlayerId s = playerId).
  { unfold autoPlayCard in Hauto.
    destruct (String.eqb (currentPlayerId s) playerId) eqn:E; [|discriminate].
    apply String.eqb_eq, E. }
  destruct (findPlayer playerId (players s)) as [p|] eqn:Hp.
  2:{ unfold autoPlayCard in Hauto. rewrite Hp in Hauto.
      destruct (negb _); discriminate. }
  assert (Hne : hand p <> []).
  { intros E. rewrite (autoPlayCard_turn rnd s playerId p Hcur Hp), E in Hauto.
    discriminate. }
  destruct (autoPlayCard_plays rnd s playerId p Hcur Hp Hne) as (c' & Hc' & Hin & _).
  exists p. split; [reflexivity|]. congruence.
Qed.


Lemma withoutCard_shorter (c : Card) (p : Player) :
  In c (hand p) -> (length (hand (withoutCard c p)) < length (hand p))%nat.
Proof.
  unfold withoutCard. simpl. induction (hand p) as [|d h IH]; intros Hin;
    [destruct Hin|]. simpl.
  destruct (negb (rank_eqb (rank d) (rank c) && suit_eqb (suit d) (suit c))) eqn:E.
  - destruct Hin as [->|Hin].
    + assert (Hcc : c <> c) by (apply keepOthers_true; exact E). congruence.
    + simpl. specialize (IH Hin). lia.
  - pose proof (filter_length_le
                  (fun x => negb (rank_eqb (rank x) (rank c)
                                  && suit_eqb (suit x) (suit c))) h). lia.
Qed.

(** A play takes the card out of the hand of the first player with the id:
    the other hands are the same. *)
Lemma handlePlayCardLogic_players (s : GameState) (playerId : string) (c : Card)
    (p : Player) (s' : GameState) :
  findPlayer playerId (players s) = Some p ->
  handlePlayCardLogic s playerId c = Some s' ->
  exists before after,
    players s = before ++ p :: after /\
    players s' = before ++ withoutCard c p :: after.
Proof.
  intros Hp Hplay.
  pose proof (proj1 (findPlayer_Some _ _ _) Hp) as (before & after & Hps & Hid & Hb).
  assert (Htake : takeFromHand playerId c (players s) =
                  before ++ withoutCard c p :: after)
    by (rewrite Hps; apply takeFromHand_first; assumption).
  exists before, after. split; [exact Hps|].
  revert Hplay. unfold handlePlayCardLogic. rewrite Hp. cbv zeta. rewrite Htake.
  destruct (_ =? _)%nat.
  - intros [= <-]. reflexivity.
  - destruct (getNextPlayerId _) as [next|]; [|discriminate]. simpl.
    intros [= <-]. unfold advanceToNextTurn. simpl. destruct (g_status s); reflexivity.
Qed.

Lemma handCards_play (s : GameState) (playerId : string) (c : Card)
    (p : Player) (s' : GameState) :
  findPlayer playerId (players s) = Some p -> In c (hand p) ->
  handlePlayCardLogic s playerId c = Some s' ->
  handCards s' + 1 <= handCards s.
Proof.
  intros Hp Hin Hplay.
  destruct (handlePlayCardLogic_players s playerId c p s' Hp Hplay)
    as (before & after & Hps & Hps').
  pose proof (withoutCard_shorter c p Hin) as Hlt.
  unfold handCards. rewrite Hps, Hps'.
  rewrite !map_app, !concat_app, !length_app. cbn [map concat].
  rewrite !length_app. lia.
Qed.

Lemma handCards_prune (f : Player -> bool) (ps : list Player) :
  (length (concat (map hand (List.filter f ps))) <= length (concat (map hand ps)))%nat.
Proof.
  induction ps as [|q ps IH]; simpl; [lia|].
  destruct (f q); simpl; rewrite ?length_app; lia.
Qed.

(** The fields no step writes, and the trick number. *)
Lemma handlePlayCardLogic_frame (s : GameState) (playerId : string) (c : Card)
    (s' : GameState) :
  handlePlayCardLogic s playerId c = Some s' ->
  turnOrder s' = turnOrder s /\ g_id s' = g_id s /\ hostId s' = hostId s /\
  maxPlayers s' = maxPlayers s /\ round s' = round s /\ deck s' = deck s /\
  g_status s' = g_status s /\ trickNumber s' = trickNumber s /\
  map tricksWon (players s') = map tricksWon (players s) /\
  map p_id (players s') = map p_id (players s).
Proof.
  unfold handlePlayCardLogic.
  destruct (findPlayer playerId (players s)); [|discriminate]. cbv zeta.
  destruct (takeFromHand_tricks playerId c (players s)) as [Htw Hids].
  destruct (_ =? _)%nat.
  - intros [= <-]. simpl. auto 12.
  - destruct (getNextPlayerId _) as [next|]; [|discriminate]. simpl.
    intros [= <-]. unfold advanceToNextTurn. simpl.
    destruct (g_status s); simpl; auto 12.
Qed.

Lemma resolveTrick_frame (s s' : GameState) :
  resolveTrick s = Some s' ->
  turnOrder s' = turnOrder s /\ g_id s' = g_id s /\ hostId s' = hostId s /\
  maxPlayers s' = maxPlayers s /\ round s' = round s /\ deck s' = deck s /\
  g_status s' <> waiting /\ trickNumber s' = numAdd (trickNumber s) 1 /\
  map p_id (players s') = map p_id (players s) /\
  exists winnerId, players s' = creditWinner winnerId (players s).
Proof.
  unfold resolveTrick.
  destruct (leadSuit s) as [lead|]; [|discriminate].
  destruct (determineTrickWinner (currentTrick s) lead) as [w|]; [|discriminate].
  unfold processTrickWin.
  destruct (creditWinner w (players s) !! 0%nat) as [first|]; [|discriminate].
  cbv zeta.
  intros [= <-]. unfold advanceToNextTurn. simpl.
  destruct (creditWinner_ids w (players s)) as [Hids _].
  destruct (length (hand first) =? 0)%nat; simpl;
    (repeat split; auto; try discriminate; exists w; reflexivity).
Qed.

(** A trick is resolved only while one is open. *)
Lemma resolveTrick_open (s s' : GameState) :
  resolveTrick s = Some s' -> leadFlag s = 1 /\ leadFlag s' = 0.
Proof.
  intros Hres. destruct (resolveTrick_trick s s' Hres) as [_ Hl'].
  unfold leadFlag. rewrite Hl'. split; [|reflexivity].
  unfold resolveTrick in Hres. destruct (leadSuit s); [reflexivity|discriminate].
Qed.

(** X19. No step of the engine writes the turn order, the game id, the
    host id, the capacity, the round or the deck: in particular pruning a
    player leaves that player's id in the turn order.  A step never adds a
    player.  The trick number stays or becomes the double nearest to its
    successor; while it is a safe integer, a step never lowers it and
    raises it by at most one. *)
Theorem step_keeps_setup (s s' : GameState) :
  step s s' ->
  turnOrder s' = turnOrder s /\ g_id s' = g_id s /\ hostId s' = hostId s /\
  maxPlayers s' = maxPlayers s /\ round s' = round s /\ deck s' = deck s /\
  (trickNumber s' = trickNumber s \/ trickNumber s' = numAdd (trickNumber s) 1) /\
  (safeInteger (trickNumber s) ->
   trickNumber s <= trickNumber s' <= trickNumber s + 1) /\
  (length (players s') <= length (players s))%nat.
Proof.
  intros Hstep.
  assert (Hbound : trickNumber s' = trickNumber s \/
                   trickNumber s' = numAdd (trickNumber s) 1 ->
                   safeInteger (trickNumber s) ->
                   trickNumber s <= trickNumber s' <= trickNumber s + 1).
  { intros [->| ->] Hsafe; [lia|]. rewrite (numAdd_one_safe _ Hsafe). lia. }
  destruct Hstep as
    [s pid c s' _ _ Hplay | rnd s pid c s' _ Hplay | s s' Hres | s next _ | s userId].
  - destruct (handlePlayCardLogic_frame _ _ _ _ Hplay)
      as (H1 & H2 & H3 & H4 & H5 & H6 & _ & H7 & _ & H8).
    apply (f_equal (@length string)) in H8. rewrite !length_map in H8.
    repeat match goal with |- _ /\ _ => split end; auto; lia.
  - destruct (handlePlayCardLogic_frame _ _ _ _ Hplay)
      as (H1 & H2 & H3 & H4 & H5 & H6 & _ & H7 & _ & H8).
    apply (f_equal (@length string)) in H8. rewrite !length_map in H8.
    repeat match goal with |- _ /\ _ => split end; auto; lia.
  - destruct (resolveTrick_frame _ _ Hres)
      as (H1 & H2 & H3 & H4 & H5 & H6 & _ & H7 & H8 & _).
    apply (f_equal (@length string)) in H8. rewrite !length_map in H8.
    repeat match goal with |- _ /\ _ => split end; auto; lia.
  - assert (Hplayers : players (advanceToNextTurn s next) = players s)
      by (unfold advanceToNextTurn; destruct (g_status s); reflexivity).
    assert (Htn : trickNumber (advanceToNextTurn s next) = trickNumber s)
      by (unfold advanceToNextTurn; destruct (g_status s); reflexivity).
    assert (Hsame : turnOrder (advanceToNextTurn s next) = turnOrder s /\
                    g_id (advanceToNextTurn s next) = g_id s /\
                    hostId (advanceToNextTurn s next) = hostId s /\
                    maxPlayers (advanceToNextTurn s next) = maxPlayers s /\
                    round (advanceToNextTurn s next) = round s /\
                    deck (advanceToNextTurn s next) = deck s)
      by (unfold advanceToNextTurn; destruct (g_status s); simpl; auto 10).
    destruct Hsame as (H1 & H2 & H3 & H4 & H5 & H6).
    rewrite Hplayers.
    repeat match goal with |- _ /\ _ => split end; auto.
  - simpl. repeat match goal with |- _ /\ _ => split end; auto; try lia.
    apply filter_length_le.
Qed.

Lemma step_keeps_setup_witness :
  turnOrder (prunePlayer midTrick "A") = turnOrder midTrick /\
  In "A" (turnOrder (prunePlayer midTrick "A")) /\
  trickNumber midTrick <= trickNumber (prunePlayer midTrick "A")
    <= trickNumber midTrick + 1 /\
  (length (players (prunePlayer midTrick "A")) <= length (players midTrick))%nat.
Proof.
  destruct (step_keeps_setup midTrick (prunePlayer midTrick "A"))
    as (H1 & _ & _ & _ & _ & _ & _ & H2 & H3).
  - apply step_prune.
  - split; [exact H1|]. split; [left; reflexivity|].
    split; [apply H2; vm_compute; reflexivity|exact H3].
Defined.

Lemma setupNewGame_bookkeeping (fuel : nat) (rnd : RandomSource)
    (playerList : list User) (gameId : string) (mp : MaxPlayers) (s : GameState) :
  setupNewGame fuel rnd playerList gameId mp = Some s -> bookkeeping s.
Proof.
  intros Hsetup.
  destruct (setupNewGame_players _ _ _ _ _ _ Hsetup) as (Hps & _ & _ & Hne).
  assert (Hcards : handCards s <= 52).
  { unfold handCards. rewrite Hps, seatPlayers_hands by apply dealCards_length.
    assert (Hn : (0 < length playerList)%nat)
      by (destruct playerList; [congruence|simpl; lia]).
    rewrite (Permutation_length (dealCards_perm (createDeck rnd) _ Hn)).
    rewrite length_take, createDeck_length. lia. }
  revert Hsetup Hcards. unfold handCards, setupNewGame. clear Hps.
  set (ps := seatPlayers (dealCards (createDeck rnd) (length playerList)) playerList).
  destruct (startingPlayer ps) as [sid|]; [|discriminate].
  destruct (rotateTo fuel sid (map p_id ps)) as [order|] eqn:Hrot; [|discriminate].
  destruct (hostOrFirstUser playerList); [|discriminate].
  intros [= <-]. unfold bookkeeping, handCards, leadFlag.
  cbn [players turnOrder round deck g_status trickNumber leadSuit]. intros Hcards.
  assert (Hzero : forall p, In p ps -> tricksWon p = 0).
  { intros p Hp. apply list_elem_of_In, list_elem_of_lookup in Hp. destruct Hp as [i Hi].
    destruct (seatPlayers_lookup _ _ _ _ Hi) as (_ & _ & _ & _ & _ & H & _). exact H. }
  split; [|split; [reflexivity|split; [reflexivity|split; [discriminate|split;
    [|split]]]]].
  - intros ->. destruct fuel as [|fuel]; [discriminate|]. simpl in Hrot.
    destruct (map p_id ps) as [|x rest]; [discriminate|].
    destruct (String.eqb x sid); [discriminate|].
    clear -Hrot. revert Hrot. generalize (rest ++ [x]). revert fuel.
    induction fuel as [|fuel IH]; intros l; simpl; [discriminate|].
    destruct l as [|y l]; [discriminate|].
    destruct (String.eqb y sid); [discriminate|]. apply IH.
  - intros p Hp. rewrite (Hzero p Hp). lia.
  - assert (Hsum : tricksCredited ps = 0).
    { unfold tricksCredited. clear -Hzero. induction ps as [|p ps IH]; [reflexivity|].
      simpl. rewrite (Hzero p) by (left; reflexivity).
      rewrite IH; [reflexivity|]. intros q Hq. apply Hzero. right. exact Hq. }
    rewrite Hsum. lia.
  - lia.
Qed.

Lemma advanceToNextTurn_frame (s : GameState) (next : string) :
  turnOrder (advanceToNextTurn s next) = turnOrder s /\
  round (advanceToNextTurn s next) = round s /\
  deck (advanceToNextTurn s next) = deck s /\
  g_status (advanceToNextTurn s next) = g_status s /\
  players (advanceToNextTurn s next) = players s /\
  trickNumber (advanceToNextTurn s next) = trickNumber s.
Proof.
  unfold advanceToNextTurn. destruct (g_status s) eqn:E; simpl; rewrite ?E; auto 10.
Qed.

Lemma play_bookkeeping (s : GameState) (playerId : string) (c : Card)
    (s' : GameState) :
  bookkeeping s ->
  (exists p, findPlayer playerId (players s) = Some p /\ In c (hand p)) ->
  handlePlayCardLogic s playerId c = Some s' ->
  bookkeeping s'.
Proof.
  unfold bookkeeping. intros (Hto & Hr & Hd & Hst & Hnn & Hsum & Hpot) (p & Hp & Hin) Hplay.
  destruct (handlePlayCardLogic_frame _ _ _ _ Hplay)
    as (H1 & _ & _ & _ & H5 & H6 & H7 & H8 & H9 & _).
  pose proof (handCards_play s playerId c p s' Hp Hin Hplay) as Hcards.
  assert (Hflag : leadFlag s' = 1).
  { destruct (handlePlayCardLogic_trick _ _ _ _ Hplay) as [_ Hl].
    unfold leadFlag. rewrite Hl. reflexivity. }
  assert (Hflag0 : 0 <= leadFlag s) by (unfold leadFlag; destruct (leadSuit s); lia).
  rewrite H1, H5, H6, H7, H8.
  repeat match goal with |- _ /\ _ => split end; auto.
  - apply tricks_nonneg_map. rewrite H9. apply tricks_nonneg_map, Hnn.
  - rewrite tricksCredited_map, H9, <- tricksCredited_map. exact Hsum.
  - lia.
Qed.

Lemma step_bookkeeping (s s' : GameState) :
  bookkeeping s -> step s s' -> bookkeeping s'.
Proof.
  intros Hb Hstep.
  destruct Hstep as
    [s pid c s' _ Hvalid Hplay | rnd s pid c s' Hauto Hplay | s s' Hres | s next _
    | s userId].
  - eapply play_bookkeeping; [exact Hb| |exact Hplay].
    apply isMoveValid_in_hand, Hvalid.
  - eapply play_bookkeeping; [exact Hb| |exact Hplay].
    eapply autoPlayCard_in_hand, Hauto.
  - destruct (bookkeeping_safe s Hb) as (Hrange & Hsafe & Hsafes).
    destruct Hb as (Hto & Hr & Hd & Hst & Hnn & Hsum & Hpot).
    destruct (resolveTrick_frame _ _ Hres)
      as (H1 & _ & _ & _ & H5 & H6 & H7 & H8 & _ & w & Hw).
    destruct (resolveTrick_open _ _ Hres) as [Hopen Hclosed].
    rewrite (numAdd_one_safe _ Hsafe) in H8.
    destruct (creditWinner_nonneg w (players s) Hnn Hsafes) as [Hnn' Hsum'].
    assert (Hcards : handCards s' = handCards s).
    { unfold handCards. rewrite Hw.
      rewrite (proj2 (creditWinner_ids w (players s))). reflexivity. }
    unfold bookkeeping. rewrite Hcards, Hclosed, H1, H5, H6, H8, Hw.
    repeat match goal with |- _ /\ _ => split end; auto. all: lia.
  - destruct Hb as (Hto & Hr & Hd & Hst & Hnn & Hsum & Hpot).
    assert (Hflag : leadFlag (advanceToNextTurn s next) = leadFlag s)
      by (unfold leadFlag, advanceToNextTurn; destruct (g_status s); reflexivity).
    unfold bookkeeping, handCards in *. rewrite Hflag.
    destruct (advanceToNextTurn_frame s next) as (-> & -> & -> & -> & -> & ->).
    auto 10.
  - destruct Hb as (Hto & Hr & Hd & Hst & Hnn & Hsum & Hpot).
    unfold bookkeeping, handCards, leadFlag in *. simpl.
    repeat match goal with |- _ /\ _ => split end; auto.
    + intros p Hp. apply filter_In in Hp. apply Hnn, Hp.
    + pose proof (prune_tricks (fun p => negb (String.eqb (p_id p) userId))
                    (players s) Hnn). lia.
    + pose proof (handCards_prune (fun p => negb (String.eqb (p_id p) userId))
                    (players s)). lia.
Qed.

Lemma reachable_keeps_books (s : GameState) : reachable s -> bookkeeping s.
Proof.
  intros Hreach.
  induction Hreach as [fuel rnd playerList gameId mp s Hsetup | s s' _ IH Hstep].
  - eapply setupNewGame_bookkeeping, Hsetup.
  - eapply step_bookkeeping; eassumption.
Qed.

(** X20. In every state a game reaches from [setupNewGame], the turn order
    is not empty, so [getNextPlayerId] returns an id; the round is 1 and the
    deck is empty; the status is [playing] or [finished]; no trick count is
    negative; and the tricks credited to the players never exceed the
    number of resolved tricks, [trickNumber - 1]. *)
Theorem reachable_bookkeeping (s : GameState) :
  reachable s ->
  turnOrder s <> [] /\
  (exists next, getNextPlayerId s = Some next) /\
  round s = 1 /\ deck s = [] /\
  (g_status s = playing \/ g_status s = finished) /\
  (forall p, In p (players s) -> 0 <= tricksWon p) /\
  tricksCredited (players s) <= trickNumber s - 1.
Proof.
  intros Hreach.
  pose proof (reachable_keeps_books s Hreach) as Hb.
  destruct Hb as (Hto & Hr & Hd & Hst & Hnn & Hsum & _).
  split; [exact Hto|]. split; [apply getNextPlayerId_some, Hto|].
  split; [exact Hr|]. split; [exact Hd|]. split; [|split; [exact Hnn|lia]].
  destruct (g_status s); [contradiction|left|right]; reflexivity.
Qed.

Lemma reachable_bookkeeping_witness :
  exists s,
    setupNewGame 2 zeroDraws twoUsers "game-R" MP2 = Some s /\
    (exists next, getNextPlayerId s = Some next) /\
    tricksCredited (players s) <= trickNumber s - 1.
Proof.
  eexists. split; [vm_compute; reflexivity|].
  match goal with
  | |- (exists next, getNextPlayerId ?s0 = _) /\ _ =>
      destruct (reachable_bookkeeping s0) as (_ & H1 & _ & _ & _ & _ & H2);
        [eapply (reachable_init 2 zeroDraws twoUsers "game-R" MP2);
         vm_compute; reflexivity|]
  end.
  split; [exact H1|exact H2].
Defined.

(** X24. In every state a game reaches from [setupNewGame], the trick
    number, the number of cards the players hold and the open trick together
    do not exceed 53: a trick is resolved only while one is open, a trick is
    opened only by a play, and a play takes a card out of a hand.  So the
    trick number is between 1 and 53 and every trick count between 0 and
    52: the counters are safe integers, and the additions of
    [processTrickWin] are exact on them. *)
Theorem reachable_counters_safe (s : GameState) :
  reachable s ->
  trickNumber s + handCards s + leadFlag s <= 53 /\
  1 <= trickNumber s <= 53 /\
  (forall p, In p (players s) -> 0 <= tricksWon p <= 52) /\
  numAdd (trickNumber s) 1 = trickNumber s + 1 /\
  (forall p, In p (players s) -> numAdd (tricksWon p) 1 = tricksWon p + 1).
Proof.
  intros Hreach.
  pose proof (reachable_keeps_books s Hreach) as Hb.
  destruct (bookkeeping_safe s Hb) as (Hrange & Hsafe & Hsafes).
  destruct Hb as (_ & _ & _ & _ & Hnn & Hsum & Hpot).
  destruct (tricksWon_le_credited (players s) Hnn) as [_ Hle].
  split; [exact Hpot|]. split; [exact Hrange|]. split; [|split].
  - intros p Hp. specialize (Hle p Hp). specialize (Hnn p Hp). lia.
  - apply numAdd_one_safe, Hsafe.
  - intros p Hp. apply numAdd_one_safe, Hsafes, Hp.
Qed.

Lemma reachable_counters_safe_witness :
  exists s,
    setupNewGame 2 zeroDraws twoUsers "game-R" MP2 = Some s /\
    trickNumber s + handCards s + leadFlag s <= 53 /\
    numAdd (trickNumber s) 1 = trickNumber s + 1.
Proof.
  eexists. split; [vm_compute; reflexivity|].
  match goal with
  | |- trickNumber ?s0 + _ + _ <= _ /\ _ =>
      destruct (reachable_counters_safe s0) as (H1 & _ & _ & H2 & _);
        [eapply (reachable_init 2 zeroDraws twoUsers "game-R" MP2);
         vm_compute; reflexivity|]
  end.
  split; [exact H1|exact H2].
Defined.

(** ** The seats [setupNewGame] fills *)

Lemma seatPlayers_lookup_user (hands : list (list Card)) (playerList : list User)
    (i : nat) (p : Player) (u : User) :
  seatPlayers hands playerList !! i = Some p -> playerList !! i = Some u ->
  p_socketId p = u_socketId u /\ p_name p = u_name u /\ p_status p = u_status u.
Proof.
  unfold seatPlayers. rewrite list_lookup_imap. intros Hp Hu. rewrite Hu in Hp.
  simpl in Hp. injection Hp as <-. auto.
Qed.

(** X21. In the state [setupNewGame] returns, the players are the
    participants in order: player [i] has the id, the socket id, the name,
    the host flag and the connection status of participant [i], no trick
    won, the voice slot [1000 + index] and the [i]-th dealt hand, of
    [floor(52 / n)] cards ordered by suit and descending value; no card is
    in two hands or twice in a hand; and the participant list was not empty
    (on an empty list the function throws). *)
Theorem setupNewGame_seats (fuel : nat) (rnd : RandomSource) (playerList : list User)
    (gameId : string) (mp : MaxPlayers) (s : GameState) :
  setupNewGame fuel rnd playerList gameId mp = Some s ->
  playerList <> [] /\
  length (players s) = length playerList /\
  (forall i p, players s !! i = Some p ->
     exists u, playerList !! i = Some u /\ p_id p = u_id u /\
               p_socketId p = u_socketId u /\ p_name p = u_name u /\
               p_isHost p = u_isHost u /\ p_status p = u_status u /\
               hand p = default [] (dealCards (createDeck rnd) (length playerList) !! i) /\
               tricksWon p = 0 /\ agoraUid p = 1000 + Z.of_nat i /\
               length (hand p) = (52 / length playerList)%nat /\
               StronglySorted handOrdered (hand p)) /\
  List.NoDup (concat (map hand (players s))).
Proof.
  intros Hsetup.
  destruct (setupNewGame_players _ _ _ _ _ _ Hsetup) as (Hps & _ & _ & Hne).
  assert (Hpos : (0 < length playerList)%nat) by (destruct playerList; simpl; [congruence|lia]).
  split; [exact Hne|]. rewrite Hps. split; [apply seatPlayers_length|]. split.
  - intros i p Hp. destruct (seatPlayers_lookup _ _ _ _ Hp)
      as (u & Hu & Hid & Hhost & Hhand & Htw & Hag).
    destruct (seatPlayers_lookup_user _ _ _ _ _ Hp Hu) as (Hsock & Hname & Hstatus).
    exists u. repeat match goal with |- _ /\ _ => split end; auto.
    + rewrite Hhand, dealCards_lookup by (eapply lookup_lt_Some, Hu).
      cbv [from_option id].
      rewrite sortBy_length, robin_length;
        [rewrite createDeck_length; reflexivity|eapply lookup_lt_Some, Hu|].
      rewrite Nat.mul_comm. apply Nat.Div0.mul_div_le.
    + rewrite Hhand, dealCards_lookup by (eapply lookup_lt_Some, Hu).
      cbv [from_option id]. apply handOrder_sorted.
  - rewrite seatPlayers_hands by apply dealCards_length.
    apply dealCards_NoDup; [exact Hpos|apply createDeck_NoDup].
Qed.

Lemma setupNewGame_seats_witness :
  exists s,
    setupNewGame 3 clubsLast threeUsers "game-R" MP3 = Some s /\
    length (players s) = length threeUsers /\
    List.NoDup (concat (map hand (players s))).
Proof.
  eexists. split; [vm_compute; reflexivity|].
  match goal with
  | |- length (players ?s0) = _ /\ _ =>
      destruct (setupNewGame_seats 3 clubsLast threeUsers "game-R" MP3 s0)
        as (_ & H1 & _ & H2); [vm_compute; reflexivity|]
  end.
  split; [exact H1|exact H2].
Defined.

(** X22. When the number of participants divides 52 (two or four players),
    every card is dealt, so some player holds the two of clubs and that
    player starts: the fallback to the host is never taken. *)
Theorem setupNewGame_clubs_holder_starts (fuel : nat) (rnd : RandomSource)
    (playerList : list User) (gameId : string) (mp : MaxPlayers) (s : GameState) :
  (52 mod length playerList = 0)%nat ->
  setupNewGame fuel rnd playerList gameId mp = Some s ->
  exists p, In p (players s) /\ In twoOfClubs (hand p) /\ currentPlayerId s = p_id p.
Proof.
  intros Hdiv Hsetup.
  destruct (setupNewGame_players _ _ _ _ _ _ Hsetup) as (Hps & Hstart & _ & Hne).
  assert (Hpos : (0 < length playerList)%nat) by (destruct playerList; simpl; [congruence|lia]).
  set (hands := dealCards (createDeck rnd) (length playerList)) in *.
  assert (Hall : Permutation (concat hands) (createDeck rnd)).
  { unfold hands. rewrite dealCards_perm by exact Hpos.
    rewrite createDeck_length.
    assert (Hfull : (52 / length playerList * length playerList = 52)%nat).
    { pose proof (Nat.div_mod_eq 52 (length playerList)) as Hdm.
      rewrite Hdiv in Hdm. lia. }
    rewrite Hfull, <- (createDeck_length rnd). rewrite firstn_all. reflexivity. }
  assert (Hin : In twoOfClubs (concat hands)).
  { eapply Permutation_in; [symmetry; exact Hall|].
    apply (count_occ_In Card_eq_dec). rewrite createDeck_count. lia. }
  apply in_concat in Hin. destruct Hin as (h & Hh & Hc).
  apply list_elem_of_In, list_elem_of_lookup in Hh. destruct Hh as [j Hj].
  pose proof (lookup_lt_Some _ _ _ Hj) as Hlt.
  unfold hands in Hlt. rewrite dealCards_length in Hlt.
  destruct (lookup_lt_is_Some_2 (players s) j) as [q Hq];
    [rewrite Hps, seatPlayers_length; exact Hlt|].
  assert (Hqh : hand q = h).
  { rewrite Hps in Hq. destruct (seatPlayers_lookup _ _ _ _ Hq) as (_ & _ & _ & _ & Hhq & _).
    fold hands in Hhq. rewrite Hj in Hhq. exact Hhq. }
  unfold startingPlayer in Hstart.
  destruct (hostOrFirstPlayer (players s)) as [fb|]; [|discriminate].
  destruct (find holdsTwoOfClubs (players s)) as [holder|] eqn:Ef.
  - injection Hstart as Hcur. pose proof (find_some _ _ Ef) as [Hin Hholds].
    exists holder. split; [exact Hin|]. split; [apply holdsTwoOfClubs_In, Hholds|].
    symmetry. exact Hcur.
  - exfalso. pose proof (find_none _ _ Ef q (lookup_In _ _ _ Hq)) as Hq'.
    assert (Hq'' : holdsTwoOfClubs q = true)
      by (apply holdsTwoOfClubs_In; rewrite Hqh; exact Hc).
    congruence.
Qed.

Lemma setupNewGame_clubs_holder_starts_witness :
  exists s p,
    setupNewGame 2 zeroDraws twoUsers "game-R" MP2 = Some s /\
    In p (players s) /\ In twoOfClubs (hand p) /\ currentPlayerId s = p_id p.
Proof.
  eexists.
  match goal with
  | |- exists p, setupNewGame ?f ?r ?l ?g ?m = Some ?s0 /\ _ =>
      assert (Hs : setupNewGame f r l g m = Some s0) by (vm_compute; reflexivity)
  end.
  destruct (setupNewGame_clubs_holder_starts 2 zeroDraws twoUsers "game-R" MP2 _
              eq_refl Hs) as (p & H1 & H2 & H3).
  exists p. auto.
Defined.

(** ** No card in two places *)

Lemma withoutCard_perm (played : Card) (p : Player) :
  List.NoDup (hand p) -> In played (hand p) ->
  Permutation (hand p) (played :: hand (withoutCard played p)).
Proof.
  unfold withoutCard. simpl. induction (hand p) as [|c h IH]; intros Hnd Hin;
    [destruct Hin|].
  apply NoDup_cons_iff in Hnd. destruct Hnd as [Hc Hnd]. simpl.
  destruct (negb (rank_eqb (rank c) (rank played) && suit_eqb (suit c) (suit played)))
    eqn:E.
  - apply keepOthers_true in E. destruct Hin as [->|Hin]; [contradiction|].
    rewrite (IH Hnd Hin) at 1. apply perm_swap.
  - assert (Hcp : c = played).
    { destruct (decide (c = played)) as [Hd|Hd]; [exact Hd|].
      apply keepOthers_true in Hd. congruence. }
    subst c. constructor.
    assert (Hsame : List.filter
              (fun x => negb (rank_eqb (rank x) (rank played)
                              && suit_eqb (suit x) (suit played))) h = h).
    { clear IH Hin Hnd. induction h as [|d h IH]; [reflexivity|]. simpl.
      assert (Hd : d <> played) by (intros ->; apply Hc; left; reflexivity).
      apply keepOthers_true in Hd. rewrite Hd. f_equal. apply IH.
      intros H. apply Hc. right. exact H. }
    rewrite Hsame. reflexivity.
Qed.

Lemma play_keeps_cards (s : GameState) (playerId : string) (c : Card)
    (p : Player) (s' : GameState) :
  findPlayer playerId (players s) = Some p -> In c (hand p) ->
  List.NoDup (cardsInPlay s) ->
  handlePlayCardLogic s playerId c = Some s' ->
  Permutation (cardsInPlay s') (cardsInPlay s).
Proof.
  intros Hp Hin Hnd Hplay.
  pose proof (proj1 (findPlayer_Some _ _ _) Hp) as (before & after & Hps & Hid & Hb).
  assert (Htake : takeFromHand playerId c (players s) =
                  before ++ withoutCard c p :: after)
    by (rewrite Hps; apply takeFromHand_first; assumption).
  assert (Hplayers : players s' = before ++ withoutCard c p :: after /\
                     currentTrick s' = currentTrick s ++ [mkTrickCard playerId c]).
  { revert Hplay. unfold handlePlayCardLogic. rewrite Hp. cbv zeta. rewrite Htake.
    destruct (_ =? _)%nat.
    - intros [= <-]. simpl. auto.
    - destruct (getNextPlayerId _) as [next|]; [|discriminate]. simpl.
      intros [= <-]. unfold advanceToNextTurn. simpl. destruct (g_status s); simpl; auto. }
  destruct Hplayers as [Hps' Ht'].
  assert (Hhand : List.NoDup (hand p)).
  { unfold cardsInPlay in Hnd. rewrite Hps, map_app, concat_app in Hnd. simpl in Hnd.
    apply NoDup_ListNoDup in Hnd.
    apply NoDup_app in Hnd. destruct Hnd as (Hnd & _ & _).
    apply NoDup_app in Hnd. destruct Hnd as (_ & _ & Hnd).
    apply NoDup_app in Hnd. destruct Hnd as (Hnd & _ & _).
    apply NoDup_ListNoDup, Hnd. }
  unfold cardsInPlay. rewrite Hps', Ht', Hps.
  rewrite !map_app, !concat_app. simpl.
  rewrite (withoutCard_perm c p Hhand Hin) at 2. simpl.
  rewrite <- !app_assoc. apply Permutation_app_head.
  simpl. rewrite !app_assoc. symmetry. apply Permutation_cons_append.
Qed.

Lemma prune_keeps_NoDup (f : Player -> bool) (ps : list Player) (rest : list Card) :
  List.NoDup (concat (map hand ps) ++ rest) ->
  List.NoDup (concat (map hand (List.filter f ps)) ++ rest).
Proof.
  induction ps as [|p ps IH]; simpl; intros Hnd; [exact Hnd|].
  rewrite <- app_assoc in Hnd. apply NoDup_ListNoDup, NoDup_app in Hnd.
  destruct Hnd as (Hp & Hdis & Hrest). apply NoDup_ListNoDup in Hrest.
  specialize (IH Hrest). destruct (f p); [|exact IH]. simpl.
  rewrite <- app_assoc. apply NoDup_ListNoDup, NoDup_app.
  split; [exact Hp|]. split; [|apply NoDup_ListNoDup, IH].
  intros x Hx Hx'. apply (Hdis x Hx).
  apply list_elem_of_In in Hx'. apply list_elem_of_In.
  apply in_app_or in Hx'. apply in_or_app. destruct Hx' as [Hx'|Hx']; [left|right; exact Hx'].
  apply in_concat in Hx'. destruct Hx' as (h & Hh & Hxh). apply in_concat. exists h.
  split; [|exact Hxh]. apply in_map_iff in Hh. destruct Hh as (q & <- & Hq).
  apply in_map, (proj1 (filter_In _ _ _) Hq).
Qed.

Lemma step_keeps_NoDup (s s' : GameState) :
  List.NoDup (cardsInPlay s) -> step s s' -> List.NoDup (cardsInPlay s').
Proof.
  intros Hnd Hstep. destruct Hstep as
    [s pid c s' _ Hvalid Hplay | rnd s pid c s' Hauto Hplay | s s' Hres | s next _ | s userId].
  - destruct (isMoveValid_in_hand _ _ _ Hvalid) as (p & Hp & Hin).
    eapply Permutation_NoDup; [symmetry; eapply play_keeps_cards; eassumption|exact Hnd].
  - destruct (autoPlayCard_in_hand _ _ _ _ Hauto) as (p & Hp & Hin).
    eapply Permutation_NoDup; [symmetry; eapply play_keeps_cards; eassumption|exact Hnd].
  - destruct (resolveTrick_trick _ _ Hres) as [Ht _].
    destruct (resolveTrick_frame _ _ Hres) as (_ & _ & _ & _ & _ & _ & _ & _ & _ & w & Hw).
    unfold cardsInPlay in *. rewrite Ht, Hw, (proj2 (creditWinner_ids w (players s))).
    simpl. rewrite app_nil_r.
    apply NoDup_ListNoDup, NoDup_app in Hnd. apply NoDup_ListNoDup, Hnd.
  - unfold cardsInPlay in *.
    destruct (advanceToNextTurn_frame s next) as (_ & _ & _ & _ & -> & _).
    rewrite (proj1 (advanceToNextTurn_trick s next)). exact Hnd.
  - unfold cardsInPlay in *. simpl. apply prune_keeps_NoDup, Hnd.
Qed.

(** X23. In every state a game reaches from [setupNewGame], no card is in
    two places: the hands of the players and the current trick together
    hold every card at most once.  A play moves one card from a hand to the
    trick, so the cards in play stay the same cards. *)
Theorem reachable_no_duplicate_card (s : GameState) :
  reachable s ->
  List.NoDup (cardsInPlay s) /\
  (forall s', step s s' ->
     List.NoDup (cardsInPlay s') /\
     forall c, In c (cardsInPlay s') -> In c (cardsInPlay s)).
Proof.
  intros Hreach.
  assert (Hnd : List.NoDup (cardsInPlay s)).
  { induction Hreach as [fuel rnd playerList gameId mp s Hsetup | s s' _ IH Hstep].
    - destruct (setupNewGame_players _ _ _ _ _ _ Hsetup) as (Hps & _ & _ & Hne).
      destruct (setupNewGame_fresh _ _ _ _ _ _ Hsetup) as [Ht _].
      unfold cardsInPlay. rewrite Ht, Hps. simpl. rewrite app_nil_r.
      rewrite seatPlayers_hands by apply dealCards_length.
      apply dealCards_NoDup; [|apply createDeck_NoDup].
      destruct playerList; simpl; [congruence|lia].
    - eapply step_keeps_NoDup; eassumption. }
  split; [exact Hnd|]. intros s' Hstep. split; [eapply step_keeps_NoDup; eassumption|].
  destruct Hstep as
    [s pid c s' _ Hvalid Hplay | rnd s pid c s' Hauto Hplay | s s' Hres | s next _ | s userId].
  - destruct (isMoveValid_in_hand _ _ _ Hvalid) as (p & Hp & Hin).
    intros x. apply Permutation_in. eapply play_keeps_cards; eassumption.
  - destruct (autoPlayCard_in_hand _ _ _ _ Hauto) as (p & Hp & Hin).
    intros x. apply Permutation_in. eapply play_keeps_cards; eassumption.
  - destruct (resolveTrick_trick _ _ Hres) as [Ht _].
    destruct (resolveTrick_frame _ _ Hres) as (_ & _ & _ & _ & _ & _ & _ & _ & _ & w & Hw).
    unfold cardsInPlay. rewrite Ht, Hw, (proj2 (creditWinner_ids w (players s))).
    simpl. rewrite app_nil_r. intros x Hx. apply in_or_app. left. exact Hx.
  - unfold cardsInPlay.
    destruct (advanceToNextTurn_frame s next) as (_ & _ & _ & _ & -> & _).
    rewrite (proj1 (advanceToNextTurn_trick s next)). auto.
  - unfold cardsInPlay. simpl. intros x Hx. apply in_app_or in Hx. apply in_or_app.
    destruct Hx as [Hx|Hx]; [left|right; exact Hx].
    apply in_concat in Hx. destruct Hx as (h & Hh & Hxh). apply in_concat. exists h.
    split; [|exact Hxh]. apply in_map_iff in Hh. destruct Hh as (q & <- & Hq).
    apply in_map, (proj1 (filter_In _ _ _) Hq).
Qed.

Lemma reachable_no_duplicate_card_witness :
  exists s,
    setupNewGame 2 zeroDraws twoUsers "game-R" MP2 = Some s /\
    List.NoDup (cardsInPlay s).
Proof.
  eexists. split; [vm_compute; reflexivity|].
  match goal with
  | |- List.NoDup (cardsInPlay ?s0) =>
      refine (proj1 (reachable_no_duplicate_card s0 _));
        eapply (reachable_init 2 zeroDraws twoUsers "game-R" MP2);
        vm_compute; reflexivity
  end.
Defined.
